(** * Lighthouse: work-during-interaction audit and Fraggle Rock artifact resolution

    A shallow embedding of

    - [lighthouse-core/audits/work-during-interaction.js]
      ([recursivelyClipTasks], [clipTasksByTs], [getPhaseTimes],
      [eventThreadBreakdown], [audit]), and
    - the Fraggle Rock config module that follows it in the same source file
      ([resolveWorkingCopy], [resolveExtensions], [resolveArtifactDependencies],
      [resolveArtifactsToDefns], [overrideSettingsForGatherMode],
      [overrideSettingsThrottlingWindows], [initializeConfig]),

    together with a model of the computed-artifact cache, whose code is not
    part of the sources at hand.

    Modelling decisions.

    - JavaScript numbers are kept abstract: the class [Number] lists the
      operations the code applies to them ([+], [-], [*], [/], [Math.max],
      [Math.min], [<], truthiness).  The doubles of the language are one
      instance, the rationals [Qc] another.  Whatever is proved of a
      [Number] holds of both; what needs arithmetic without rounding asks
      for [ExactArithmetic] or is stated of [Qc], and what needs comparisons
      that make an order asks for [ConsistentOrder] (no [NaN]) or, where
      only totals above the threshold are compared, for
      [OrderedAboveThreshold], which holds of the doubles too.
    - Task nodes are JavaScript objects mutated in place and reachable both
      from the flat [tasks] array and from their parent's [children] array.
      They live in a heap ([gmap addr TaskNode]); arrays of nodes are lists
      of addresses, and every function that writes a node threads the heap.
    - The recursion of [recursivelyClipTasks] follows the [children]
      references of the heap, so it carries the depth the call stack has
      left: at depth [0] the engine throws its [RangeError].
    - Exceptions and rejected promises are the left injection of [Result].
    - The config module writes the settings object it has resolved; the two
      functions that do so return the object as they leave it.  What the
      module imports is taken as given ([ConfigHelpers], [ConfigModules]). *)

From Stdlib Require Import ZArith QArith Qcanon Sorted Floats Uint63.
From stdpp Require Import base option list gmap strings.

Open Scope Z_scope.

(** * The program *)

(** ** JavaScript values *)

(** Thrown values: the built-in [TypeError] and [RangeError], the generic
    [Error] with its message, and the errors raised by the two helpers
    [throwInvalidDependencyOrder] and [throwInvalidArtifactDependency] of
    [validation.js], kept apart by the helper that threw them. *)
Inductive JsError : Type :=
  | TypeError (msg : string)
  | RangeError (msg : string)
  | Error (msg : string)
  | InvalidDependencyOrder (artifactId dependencyKey : string)
  | InvalidArtifactDependency (artifactId dependencyKey : string).

Definition Result (A : Type) : Type := JsError + A.

Definition ret {A} (a : A) : Result A := inr a.
Definition throw {A} (e : JsError) : Result A := inl e.
Definition bind {A B} (m : Result A) (k : A → Result B) : Result B :=
  match m with
  | inl e => inl e
  | inr a => k a
  end.

Notation "'do' x <- m ; k" := (bind m (fun x => k))
  (at level 10, x pattern, m at level 100, k at level 200).

(** The operations the sources apply to numbers. *)
Class Number (num : Type) : Type := {
  num_of_Z : Z → num;
  num_add : num → num → num;
  num_sub : num → num → num;
  num_mul : num → num → num;
  num_div : num → num → num;
  Math_max : num → num → num;
  Math_min : num → num → num;
  num_lt : num → num → bool;
  num_truthy : num → bool;
}.

(** Arithmetic without rounding, as far as the proofs below use it. *)
Class ExactArithmetic (num : Type) `{!Number num} : Prop := {
  num_add_comm : ∀ a b : num, num_add a b = num_add b a;
  num_add_sub_assoc : ∀ a b c : num, num_add a (num_sub b c) = num_sub (num_add a b) c;
  num_sub_add : ∀ a b : num, num_add (num_sub a b) b = a;
  num_add_sub : ∀ a b : num, num_sub (num_add a b) b = a;
}.

(** Comparisons that order the numbers, and agree with the sign of a
    difference: what makes [(a, b) => b - a] a consistent comparator. *)
Class ConsistentOrder (num : Type) `{!Number num} : Prop := {
  num_lt_irrefl : ∀ a : num, num_lt a a = false;
  num_lt_trans : ∀ a b c : num, num_lt a b = true → num_lt b c = true → num_lt a c = true;
  num_nlt_trans : ∀ a b c : num, num_lt a b = false → num_lt b c = false → num_lt a c = false;
  num_sub_pos : ∀ a b : num, num_lt (num_of_Z 0) (num_sub b a) = num_lt a b;
}.

(** [x || 0] on an optional number: [undefined], [0] and [NaN] are falsy. *)
Definition or_zero {num : Type} `{!Number num} (x : option num) : num :=
  match x with
  | Some d => if num_truthy d then d else num_of_Z 0
  | None => num_of_Z 0
  end.

(** The rationals: exact arithmetic, and an instance that computes. *)
Definition Qc_ltb (a b : Qc) : bool := bool_decide (a < b)%Qc.

#[export] Instance Qc_Number : Number Qc := {|
  num_of_Z z := Q2Qc (inject_Z z);
  num_add := Qcplus;
  num_sub := Qcminus;
  num_mul := Qcmult;
  num_div := Qcdiv;
  Math_max a b := if Qc_ltb a b then b else a;
  Math_min a b := if Qc_ltb b a then b else a;
  num_lt := Qc_ltb;
  num_truthy a := negb (bool_decide (a = Q2Qc 0));
|}.

(** The doubles.  An integer literal is the double of that value;
    [Math.max] and [Math.min] answer [NaN] when an argument is [NaN], and
    take [+0] to be above [-0]. *)
Definition float_of_Z (z : Z) : float :=
  match z with
  | Z0 => 0%float
  | Zpos _ => PrimFloat.of_uint63 (Uint63.of_Z z)
  | Zneg p => PrimFloat.opp (PrimFloat.of_uint63 (Uint63.of_Z (Zpos p)))
  end.

Definition float_max (a b : float) : float :=
  if PrimFloat.is_nan a || PrimFloat.is_nan b then PrimFloat.nan
  else if PrimFloat.ltb a b then b
  else if PrimFloat.ltb b a then a
  else if PrimFloat.is_zero a && PrimFloat.get_sign a then b else a.

Definition float_min (a b : float) : float :=
  if PrimFloat.is_nan a || PrimFloat.is_nan b then PrimFloat.nan
  else if PrimFloat.ltb b a then b
  else if PrimFloat.ltb a b then a
  else if PrimFloat.is_zero a && negb (PrimFloat.get_sign a) then b else a.

#[export] Instance float_Number : Number float := {|
  num_of_Z := float_of_Z;
  num_add := PrimFloat.add;
  num_sub := PrimFloat.sub;
  num_mul := PrimFloat.mul;
  num_div := PrimFloat.div;
  Math_max := float_max;
  Math_min := float_min;
  num_lt := PrimFloat.ltb;
  num_truthy a := negb (PrimFloat.is_nan a || PrimFloat.is_zero a);
|}.

(** ** Trace events and task nodes *)

(** The fields of [LH.TraceEvent] the sources read. *)
Record TraceEvent (num : Type) : Type := {
  evt_pid : Z;
  evt_tid : Z;
  evt_ts : num;
  evt_dur : option num;
}.
Arguments evt_pid {num} _.
Arguments evt_tid {num} _.
Arguments evt_ts {num} _.
Arguments evt_dur {num} _.

(** Object references: addresses in the heap of task nodes. *)
Abbreviation addr := nat (only parsing).

(** [TaskNode] of [main-thread-tasks.js]: the event pair recorded in the
    trace, the links of the tree, and the four derived timings. *)
Record TaskNode (num : Type) : Type := {
  event : TraceEvent num;
  endEvent : option (TraceEvent num);
  parent : option addr;
  children : list addr;
  startTime : num;
  endTime : num;
  duration : num;
  selfTime : num;
}.
Arguments event {num} _.
Arguments endEvent {num} _.
Arguments parent {num} _.
Arguments children {num} _.
Arguments startTime {num} _.
Arguments endTime {num} _.
Arguments duration {num} _.
Arguments selfTime {num} _.

Abbreviation heap num := (gmap nat (TaskNode num)) (only parsing).

(** The three assignments [task.startTime = ..; task.endTime = ..;
    task.duration = ..] and the assignment [task.selfTime = ..]. *)
Definition set_times {num} (s e d : num) (t : TaskNode num) : TaskNode num :=
  {| event := event t; endEvent := endEvent t; parent := parent t;
     children := children t;
     startTime := s; endTime := e; duration := d; selfTime := selfTime t |}.

Definition set_selfTime {num} (x : num) (t : TaskNode num) : TaskNode num :=
  {| event := event t; endEvent := endEvent t; parent := parent t;
     children := children t;
     startTime := startTime t; endTime := endTime t; duration := duration t;
     selfTime := x |}.

(** The object at an address; an address that holds none reads as [undefined]. *)
Definition deref {num} (a : addr) (σ : heap num) : Result (TaskNode num) :=
  match σ !! a with
  | Some t => ret t
  | None => throw (TypeError "Cannot read properties of undefined")
  end.

(** [Array.prototype.map] (or a loop pushing one result per element) with a
    callback that writes shared state: the calls run left to right, each on
    the state the previous one left, and the first throw ends the run. *)
Fixpoint Array_map_st {S A B} (f : A → S → Result (B * S))
    (l : list A) (σ : S) : Result (list B * S) :=
  match l with
  | [] => ret ([], σ)
  | x :: l =>
      do (y, σ) <- f x σ;
      do (ys, σ) <- Array_map_st f l σ;
      ret (y :: ys, σ)
  end.

(** [Array.prototype.reduce] without an initial value. *)
Definition Array_reduce1 {A} (f : A → A → A) (l : list A) : Result A :=
  match l with
  | [] => throw (TypeError "Reduce of empty array with no initial value")
  | x :: l => ret (fold_left f l x)
  end.

(** [Array.prototype.sort] with a comparator.  The language fixes the result
    to be the stable arrangement in which [b] precedes [a] only if
    [comparefn a b > 0]; insertion from the right computes it. *)
Fixpoint sort_insert {num A} `{!Number num} (comparefn : A → A → num) (x : A)
    (l : list A) : list A :=
  match l with
  | [] => [x]
  | y :: l' =>
      if num_lt (num_of_Z 0) (comparefn x y) then y :: sort_insert comparefn x l'
      else x :: l
  end.

Definition Array_sort {num A} `{!Number num} (comparefn : A → A → num)
    (l : list A) : list A :=
  foldr (sort_insert comparefn) [] l.

(** Property access [o[key]] on an object used as a record of numbers. *)
Fixpoint obj_get {A} (key : string) (o : list (string * A)) : option A :=
  match o with
  | [] => None
  | (k, v) :: o => if decide (k = key) then Some v else obj_get key o
  end.

(** ** [work-during-interaction.js] *)

(** [EventTimingEvent] of [responsiveness.js]: [args.data] and the fields of
    the trace event itself. *)
Record InteractionData (num : Type) : Type := {
  timeStamp : num;
  processingStart : num;
  processingEnd : num;
  data_duration : num;
  data_type : string;
}.
Arguments timeStamp {num} _.
Arguments processingStart {num} _.
Arguments processingEnd {num} _.
Arguments data_duration {num} _.
Arguments data_type {num} _.

Record EventTimingEvent (num : Type) : Type := {
  ie_pid : Z;
  ie_tid : Z;
  ie_ts : num;
  args_data : InteractionData num;
}.
Arguments ie_pid {num} _.
Arguments ie_tid {num} _.
Arguments ie_ts {num} _.
Arguments args_data {num} _.

(** [{startTs, endTs}] *)
Record TimeWindow (num : Type) : Type := {
  startTs : num;
  endTs : num;
}.
Arguments startTs {num} _.
Arguments endTs {num} _.

(** The object [getPhaseTimes] returns. *)
Record PhaseTimes (num : Type) : Type := {
  inputDelay : TimeWindow num;
  processingDelay : TimeWindow num;
  presentationDelay : TimeWindow num;
}.
Arguments inputDelay {num} _.
Arguments processingDelay {num} _.
Arguments presentationDelay {num} _.

(** [Object.entries(phases)]: the keys in the order the literal lists them. *)
Definition Object_entries {num} (phases : PhaseTimes num) : list (string * TimeWindow num) :=
  [("inputDelay", inputDelay phases);
   ("processingDelay", processingDelay phases);
   ("presentationDelay", presentationDelay phases)].

Definition TASK_THRESHOLD {num} `{!Number num} : num := num_of_Z 1.

(** [UIStrings], by key. *)
Definition UIStrings (key : string) : option string :=
  if decide (key = "title") then Some "Minimizes work during key interaction"
  else if decide (key = "failureTitle") then Some "Minimize work during key interaction"
  else if decide (key = "description")
  then Some ("This is the thread-blocking work occurring during the Interaction to Next "
             +:+ "Paint measurement. [Learn more](https://web.dev/inp/).")
  else if decide (key = "inputDelay") then Some "Input delay"
  else if decide (key = "processingDelay") then Some "Processing delay"
  else if decide (key = "presentationDelay") then Some "Presentation delay"
  else if decide (key = "displayValue")
  then Some "{timeInMs, number, milliseconds} ms spent on event '{interactionType}'"
  else None.

(** A value handed to a message: a number or a string. *)
Inductive IcuValue (num : Type) : Type :=
  | IcuNumber (n : num)
  | IcuString (s : string).
Arguments IcuNumber {num} _.
Arguments IcuString {num} _.

(** What [str_] of [i18n.js] is called with: the message (absent when the
    looked-up key is) and the values to fill in. *)
Record IcuMessage (num : Type) : Type := str_ {
  icu_message : option string;
  icu_values : list (string * IcuValue num);
}.
Arguments str_ {num} _ _.
Arguments icu_message {num} _.
Arguments icu_values {num} _.

(** One row per URL under a phase. *)
Record UrlRow (num : Type) : Type := {
  url : string;
  total : num;
  scripting : num;
  layout : num;
  render : num;
}.
Arguments url {num} _.
Arguments total {num} _.
Arguments scripting {num} _.
Arguments layout {num} _.
Arguments render {num} _.

(** [{type: 'subitems', items}] *)
Record SubItems (num : Type) : Type := {
  subitems_type : string;
  subitems_items : list (UrlRow num);
}.
Arguments subitems_type {num} _.
Arguments subitems_items {num} _.

(** One row per phase: [{phase, total, subItems}]. *)
Record TableItem (num : Type) : Type := {
  item_phase : IcuMessage num;
  item_total : num;
  item_subItems : SubItems num;
}.
Arguments item_phase {num} _.
Arguments item_total {num} _.
Arguments item_subItems {num} _.

(** A column of the table with the column of its sub-items. *)
Record SubItemsHeading : Type := {
  sub_key : string;
  sub_granularity : option Z;
  sub_itemType : string;
}.

Record Heading : Type := {
  h_key : option string;
  h_itemType : string;
  h_subItemsHeading : SubItemsHeading;
  h_granularity : option Z;
  h_text : string;
}.

(** What [Audit.makeTableDetails(headings, items)] is called with. *)
Record Table (num : Type) : Type := makeTableDetails {
  tbl_headings : list Heading;
  tbl_items : list (TableItem num);
}.
Arguments makeTableDetails {num} _ _.
Arguments tbl_headings {num} _.
Arguments tbl_items {num} _.

Record Trace (num : Type) : Type := {
  traceEvents : list (TraceEvent num);
}.
Arguments traceEvents {num} _.

(** The modules of [lib/tracehouse] the audit calls, which are not among the
    sources: they are taken as given.  [getMainThreadTasks] allocates the
    task nodes, so it returns the array together with the heap holding them;
    [getExecutionTimingsByURL] reads the nodes, and returns the entries of
    its [Map] in iteration order, each value with the entries of its record
    in property order. *)
Class Tracehouse (num : Type) : Type := {
  Frame : Type;
  NetworkRequest : Type;
  filteredTraceSort :
    list (TraceEvent num) → (TraceEvent num → bool) → list (TraceEvent num);
  getMainThreadTasks :
    list (TraceEvent num) → list Frame → num → list addr * heap num;
  getExecutionTimingsByURL :
    list addr → heap num → list NetworkRequest → list (string * list (string * num));
  taskGroups_scriptEvaluation_id : string;
  taskGroups_styleLayout_id : string;
  taskGroups_styleLayout_label : string;
  taskGroups_paintCompositeRender_id : string;
  taskGroups_paintCompositeRender_label : string;
}.

Record ProcessedTrace (num : Type) `{!Tracehouse num} : Type := {
  frames : list Frame;
}.
Arguments frames {num _} _.

Section WorkDuringInteraction.
Context {num : Type} `{!Number num}.

Fixpoint recursivelyClipTasks (depth : nat) (task : addr) (parent : option addr)
    (startTs endTs : num) (σ : heap num) : Result (num * heap num) :=
  match depth with
  | O => throw (RangeError "Maximum call stack size exceeded")
  | S depth =>
      do t <- deref task σ;
      let taskEventStart := evt_ts (event t) in
      let taskEventEnd :=
        match endEvent t with
        | Some endEvent => evt_ts endEvent
        | None => num_add (evt_ts (event t)) (or_zero (evt_dur (event t)))
        end in
      let startTime :=
        num_div (Math_max startTs (Math_min endTs taskEventStart)) (num_of_Z 1000) in
      let endTime :=
        num_div (Math_max startTs (Math_min endTs taskEventEnd)) (num_of_Z 1000) in
      let σ := <[task := set_times startTime endTime (num_sub endTime startTime) t]> σ in
      do (durations, σ) <-
        Array_map_st
          (λ child, recursivelyClipTasks depth child (Some task) startTs endTs)
          (children t) σ;
      let childTime := fold_left (λ sum child, num_add sum child) durations (num_of_Z 0) in
      do t <- deref task σ;
      let σ := <[task := set_selfTime (num_sub (duration t) childTime) t]> σ in
      do t <- deref task σ;
      ret (duration t, σ)
  end.

Fixpoint clipTasksByTs (depth : nat) (tasks : list addr) (startTs endTs : num)
    (σ : heap num) : Result (heap num) :=
  match tasks with
  | [] => ret σ
  | task :: tasks =>
      do t <- deref task σ;
      match parent t with
      | Some _ => clipTasksByTs depth tasks startTs endTs σ
      | None =>
          do (_, σ) <- recursivelyClipTasks depth task None startTs endTs σ;
          clipTasksByTs depth tasks startTs endTs σ
      end
  end.

Definition getPhaseTimes (interactionEvent : EventTimingEvent num) : PhaseTimes num :=
  let interactionData := args_data interactionEvent in
  let startTs := ie_ts interactionEvent in
  let navStart := num_sub startTs (num_mul (timeStamp interactionData) (num_of_Z 1000)) in
  let processingStartTs :=
    num_add navStart (num_mul (processingStart interactionData) (num_of_Z 1000)) in
  let processingEndTs :=
    num_add navStart (num_mul (processingEnd interactionData) (num_of_Z 1000)) in
  let endTs := num_add startTs (num_mul (data_duration interactionData) (num_of_Z 1000)) in
  {| inputDelay := {| startTs := startTs; endTs := processingStartTs |};
     processingDelay := {| startTs := processingStartTs; endTs := processingEndTs |};
     presentationDelay := {| startTs := processingEndTs; endTs := endTs |} |}.

End WorkDuringInteraction.

(** A loop that pushes one result per element and stops at the first throw. *)
Fixpoint Result_mapM {A B} (f : A → Result B) (l : list A) : Result (list B) :=
  match l with
  | [] => ret []
  | x :: l =>
      do y <- f x;
      do ys <- Result_mapM f l;
      ret (y :: ys)
  end.

Section EventThreadBreakdown.
Context {num : Type} `{!Number num} `{!Tracehouse num}.

(** The body of the loop over [executionTimings]: the row pushed for one URL. *)
Definition urlResult (entry : string * list (string * num)) : Result (UrlRow num) :=
  let '(url, timingByGroupId) := entry in
  do totalExecutionTimeForURL <-
    Array_reduce1 (λ total timespanMs, num_add total timespanMs) (timingByGroupId.*2);
  let scriptingTotal := or_zero (obj_get taskGroups_scriptEvaluation_id timingByGroupId) in
  let layoutTotal := or_zero (obj_get taskGroups_styleLayout_id timingByGroupId) in
  let renderTotal := or_zero (obj_get taskGroups_paintCompositeRender_id timingByGroupId) in
  ret {| url := url;
         total := totalExecutionTimeForURL;
         scripting := scriptingTotal;
         layout := layoutTotal;
         render := renderTotal |}.

(** [results.filter(..).sort(..)] *)
Definition filteredResults (results : list (UrlRow num)) : list (UrlRow num) :=
  Array_sort (λ a b, num_sub (total b) (total a))
    (List.filter (λ result, num_lt TASK_THRESHOLD (total result)) results).

(** The body of the loop over the phases: the tasks are clipped in place, and
    the item pushed for the phase is returned with the heap as it is left. *)
Definition phaseItem (depth : nat) (threadTasks : list addr)
    (networkRecords : list NetworkRequest) (entry : string * TimeWindow num)
    (σ : heap num) : Result (TableItem num * heap num) :=
  let '(phaseName, phaseTimes) := entry in
  do σ <- clipTasksByTs depth threadTasks (startTs phaseTimes) (endTs phaseTimes) σ;
  let executionTimings := getExecutionTimingsByURL threadTasks σ networkRecords in
  do results <- Result_mapM urlResult executionTimings;
  ret ({| item_phase := str_ (UIStrings phaseName) [];
          item_total :=
            num_div (num_sub (endTs phaseTimes) (startTs phaseTimes)) (num_of_Z 1000);
          item_subItems :=
            {| subitems_type := "subitems";
               subitems_items := filteredResults results |} |}, σ).

Definition headings : list Heading :=
  [ {| h_key := Some "phase"; h_itemType := "text";
       h_subItemsHeading :=
         {| sub_key := "url"; sub_granularity := None; sub_itemType := "url" |};
       h_granularity := None; h_text := "Phase" |};
    {| h_key := Some "total"; h_itemType := "ms";
       h_subItemsHeading :=
         {| sub_key := "total"; sub_granularity := Some 1; sub_itemType := "ms" |};
       h_granularity := Some 1; h_text := "Total time" |};
    {| h_key := None; h_itemType := "ms";
       h_subItemsHeading :=
         {| sub_key := "scripting"; sub_granularity := Some 1; sub_itemType := "ms" |};
       h_granularity := None; h_text := "Script evaluation" |};
    {| h_key := None; h_itemType := "ms";
       h_subItemsHeading :=
         {| sub_key := "layout"; sub_granularity := Some 1; sub_itemType := "ms" |};
       h_granularity := None; h_text := taskGroups_styleLayout_label |};
    {| h_key := None; h_itemType := "ms";
       h_subItemsHeading :=
         {| sub_key := "render"; sub_granularity := Some 1; sub_itemType := "ms" |};
       h_granularity := None; h_text := taskGroups_paintCompositeRender_label |} ].

Definition eventThreadBreakdown (depth : nat) (interactionEvent : EventTimingEvent num)
    (trace : Trace num) (processedTrace : ProcessedTrace num)
    (networkRecords : list NetworkRequest) : Result (Table num * PhaseTimes num) :=
  let threadEvents :=
    filteredTraceSort (traceEvents trace)
      (λ evt, bool_decide (evt_pid evt = ie_pid interactionEvent)
              && bool_decide (evt_tid evt = ie_tid interactionEvent)) in
  let traceEndTs :=
    fold_left
      (λ endTs evt, Math_max (num_add (evt_ts evt) (or_zero (evt_dur evt))) endTs)
      threadEvents (num_of_Z 0) in
  let '(threadTasks, σ) := getMainThreadTasks threadEvents (frames processedTrace) traceEndTs in
  let phases := getPhaseTimes interactionEvent in
  do (items, _) <-
    Array_map_st (phaseItem depth threadTasks networkRecords) (Object_entries phases) σ;
  ret (makeTableDetails headings items, phases).

End EventThreadBreakdown.

(** [context.settings], as far as the audit reads it. *)
Record Settings : Type := {
  throttlingMethod : string;
}.

(** The computed artifacts the audit requests and the constants it imports,
    none of them among the sources.  A request answers with the value its
    promise resolves to, or with the reason it rejects with. *)
Class ComputedArtifacts (num : Type) `{!Tracehouse num} : Type := {
  DevtoolsLog : Type;
  ComputedCache : Type;
  DEFAULT_PASS : string;
  inpThresholds_p10 : num;
  ComputedResponsivenes_request :
    option (Trace num) * Settings → ComputedCache → Result (option (EventTimingEvent num));
  NetworkRecords_request :
    option DevtoolsLog → ComputedCache → Result (list NetworkRequest);
  ProcessedTrace_request :
    option (Trace num) → ComputedCache → Result (ProcessedTrace num);
}.

Record Artifacts (num : Type) `{!Tracehouse num} `{!ComputedArtifacts num} : Type := {
  traces : gmap string (Trace num);
  devtoolsLogs : gmap string DevtoolsLog;
}.
Arguments traces {num _ _} _.
Arguments devtoolsLogs {num _ _} _.

Record AuditContext (num : Type) `{!Tracehouse num} `{!ComputedArtifacts num} : Type := {
  settings : Settings;
  computedCache : ComputedCache;
}.
Arguments settings {num _ _} _.
Arguments computedCache {num _ _} _.

(** [{type: 'debugdata', interactionType, phases}] *)
Record DebugData (num : Type) : Type := {
  debug_type : string;
  interactionType : string;
  debug_phases : PhaseTimes num;
}.
Arguments debug_type {num} _.
Arguments interactionType {num} _.
Arguments debug_phases {num} _.

(** [{...table, debugData}] *)
Record Details (num : Type) : Type := {
  details_table : Table num;
  debugData : DebugData num;
}.
Arguments details_table {num} _.
Arguments debugData {num} _.

(** [LH.Audit.Product]; a field the object literal leaves out is [None], and
    so is the score [null]. *)
Record Product (num : Type) : Type := {
  score : option num;
  notApplicable : option bool;
  displayValue : option (IcuMessage num);
  details : option (Details num);
}.
Arguments score {num} _.
Arguments notApplicable {num} _.
Arguments displayValue {num} _.
Arguments details {num} _.

Section Audit.
Context {num : Type} `{!Number num} `{!Tracehouse num} `{!ComputedArtifacts num}.

(** [{score: null, notApplicable: true}] *)
Definition notApplicableProduct : Product num :=
  {| score := None; notApplicable := Some true; displayValue := None; details := None |}.

Definition audit (depth : nat) (artifacts : Artifacts num) (context : AuditContext num)
    : Result (Product num) :=
  let settings := settings context in
  if decide (throttlingMethod settings = "simulate") then ret notApplicableProduct
  else
    let trace := traces artifacts !! DEFAULT_PASS in
    let metricData := (trace, settings) in
    do interactionEvent <- ComputedResponsivenes_request metricData (computedCache context);
    match interactionEvent with
    | None => ret notApplicableProduct
    | Some interactionEvent =>
        let devtoolsLog := devtoolsLogs artifacts !! DEFAULT_PASS in
        do networkRecords <- NetworkRecords_request devtoolsLog (computedCache context);
        do processedTrace <- ProcessedTrace_request trace (computedCache context);
        do (table, phases) <-
          match trace with
          | Some trace =>
              eventThreadBreakdown depth interactionEvent trace processedTrace networkRecords
          | None => throw (TypeError "Cannot read properties of undefined")
          end;
        let duration := data_duration (args_data interactionEvent) in
        let interactionType := data_type (args_data interactionEvent) in
        let displayValue :=
          str_ (UIStrings "displayValue")
            [("timeInMs", IcuNumber duration); ("interactionType", IcuString interactionType)] in
        ret {| score :=
                 Some (if num_lt duration inpThresholds_p10 then num_of_Z 1 else num_of_Z 0);
               displayValue := Some displayValue;
               notApplicable := None;
               details :=
                 Some {| details_table := table;
                         debugData :=
                           {| debug_type := "debugdata";
                              interactionType := interactionType;
                              debug_phases := phases |} |} |}
    end.

End Audit.

(** ** The Fraggle Rock config: artifact definitions *)

(** A gatherer's [symbol]: a token with no content but its identity. *)
Abbreviation JsSymbol := nat (only parsing).

(** [gatherer.instance.meta] *)
Record GathererMeta : Type := {
  meta_supportedModes : list string;
  meta_symbol : option JsSymbol;
  meta_dependencies : option (list (string * JsSymbol));
}.

(** [LH.Config.AnyGathererDefn], read through [gatherer.instance]; a legacy
    gatherer has no [meta]. *)
Record GathererDefn : Type := {
  instance_name : string;
  instance_meta : option GathererMeta;
}.

(** [LH.Config.ArtifactJson], for a gatherer description of type [GathererJson]. *)
Record ArtifactJson (GathererJson : Type) : Type := {
  json_id : string;
  json_gatherer : GathererJson;
}.
Arguments json_id {GathererJson} _.
Arguments json_gatherer {GathererJson} _.

(** [LH.Config.AnyArtifactDefn]; a resolved dependency is [{id}]. *)
Record ArtifactDefn : Type := {
  defn_id : string;
  defn_gatherer : GathererDefn;
  defn_dependencies : option (list (string * string));
}.

(** What the module imports from [config-helpers.js], [validation.js] and
    [runner.js], none of them among the sources. *)
Class ConfigHelpers : Type := {
  GathererJson : Type;
  coreGathererList : list string;
  resolveGathererToDefn : GathererJson → list string → option string → Result GathererDefn;
  isFRGathererDefn : GathererDefn → bool;
  isValidArtifactDependency : GathererDefn → GathererDefn → bool;
}.

(** [throwInvalidDependencyOrder] and [throwInvalidArtifactDependency] throw
    for the artifact and the dependency they are called with. *)
Definition throwInvalidDependencyOrder {A} (artifactId dependencyName : string) : Result A :=
  throw (InvalidDependencyOrder artifactId dependencyName).

Definition throwInvalidArtifactDependency {A} (artifactId dependencyName : string) : Result A :=
  throw (InvalidArtifactDependency artifactId dependencyName).

(** [gatherer.instance.meta], read where the code takes the object for granted. *)
Definition the_meta (gatherer : GathererDefn) : Result GathererMeta :=
  match instance_meta gatherer with
  | Some meta => ret meta
  | None => throw (TypeError "Cannot read properties of undefined")
  end.

Section Config.
Context `{!ConfigHelpers}.

Definition resolveArtifactDependencies (artifact : ArtifactJson GathererJson)
    (gatherer : GathererDefn) (artifactDefnsBySymbol : gmap nat ArtifactDefn)
    : Result (option (list (string * string))) :=
  do meta <- the_meta gatherer;
  match meta_dependencies meta with
  | None => ret None
  | Some entries =>
      do dependencies <-
        Result_mapM
          (λ '(dependencyName, artifactSymbol),
            match artifactDefnsBySymbol !! artifactSymbol with
            | None => throwInvalidDependencyOrder (json_id artifact) dependencyName
            | Some dependency =>
                if isValidArtifactDependency gatherer (defn_gatherer dependency)
                then ret (dependencyName, defn_id dependency)
                else throwInvalidArtifactDependency (json_id artifact) dependencyName
            end)
          entries;
      ret (Some dependencies)
  end.

(** The callback of [artifacts.map]: it reads and writes [artifactDefnsBySymbol]. *)
Definition resolveArtifact (configDir : option string)
    (artifactJson : ArtifactJson GathererJson)
    (artifactDefnsBySymbol : gmap nat ArtifactDefn)
    : Result (ArtifactDefn * gmap nat ArtifactDefn) :=
  let gathererJson := json_gatherer artifactJson in
  do gatherer <- resolveGathererToDefn gathererJson coreGathererList configDir;
  if negb (isFRGathererDefn gatherer)
  then throw (Error (instance_name gatherer +:+ " gatherer does not have a Fraggle Rock meta obj"))
  else
    do dependencies <- resolveArtifactDependencies artifactJson gatherer artifactDefnsBySymbol;
    let artifact :=
      {| defn_id := json_id artifactJson;
         defn_gatherer := gatherer;
         defn_dependencies := dependencies |} in
    do meta <- the_meta (defn_gatherer artifact);
    match meta_symbol meta with
    | Some symbol => ret (artifact, <[symbol := artifact]> artifactDefnsBySymbol)
    | None => ret (artifact, artifactDefnsBySymbol)
    end.

Definition resolveArtifactsToDefns (artifacts : option (list (ArtifactJson GathererJson)))
    (configDir : option string) : Result (option (list ArtifactDefn)) :=
  match artifacts with
  | None => ret None
  | Some artifacts =>
      do (artifactDefns, _) <- Array_map_st (resolveArtifact configDir) artifacts ∅;
      ret (Some artifactDefns)
  end.

End Config.

(** ** The Fraggle Rock config: settings, the working copy and the config *)

(** The types of what the module only hands on: the settings, audits,
    categories and groups of a config JSON, and the resolved audits. *)
Class ConfigTypes : Type := {
  SettingsJson : Type;
  AuditJson : Type;
  AuditDefn : Type;
  Categories : Type;
  Groups : Type;
}.

(** [LH.Config.Settings], as far as the config module reads and writes it.
    A threshold the object does not have is [None]. *)
Record ConfigSettings (num : Type) : Type := {
  settings_throttlingMethod : string;
  cpuQuietThresholdMs : option num;
  networkQuietThresholdMs : option num;
  pauseAfterFcpMs : option num;
  pauseAfterLoadMs : option num;
}.
Arguments settings_throttlingMethod {num} _.
Arguments cpuQuietThresholdMs {num} _.
Arguments networkQuietThresholdMs {num} _.
Arguments pauseAfterFcpMs {num} _.
Arguments pauseAfterLoadMs {num} _.

(** [nonSimulatedPassConfigOverrides] of [config/constants.js]: the four
    numbers the module reads of it. *)
Record PassConfigOverrides (num : Type) : Type := {
  overrides_cpuQuietThresholdMs : num;
  overrides_networkQuietThresholdMs : num;
  overrides_pauseAfterFcpMs : num;
  overrides_pauseAfterLoadMs : num;
}.
Arguments overrides_cpuQuietThresholdMs {num} _.
Arguments overrides_networkQuietThresholdMs {num} _.
Arguments overrides_pauseAfterFcpMs {num} _.
Arguments overrides_pauseAfterLoadMs {num} _.

(** [LH.Config.Json], as far as the module reads it; a key the object does
    not have is [None]. *)
Record ConfigJson `{!ConfigHelpers} `{!ConfigTypes} : Type := {
  json_extends : option string;
  json_artifacts : option (list (ArtifactJson GathererJson));
  json_settings : option SettingsJson;
  json_audits : option (list AuditJson);
  json_categories : option Categories;
  json_groups : option Groups;
}.

(** [LH.Config.FRConfig]; [null] is [None]. *)
Record FRConfig (num : Type) `{!ConfigTypes} : Type := {
  config_artifacts : option (list ArtifactDefn);
  config_audits : option (list AuditDefn);
  config_categories : option Categories;
  config_groups : option Groups;
  config_settings : ConfigSettings num;
}.
Arguments config_artifacts {num _} _.
Arguments config_audits {num _} _.
Arguments config_categories {num _} _.
Arguments config_groups {num _} _.
Arguments config_settings {num _} _.

(** [ConfigContext], as far as the module reads it. *)
Record ConfigContext `{!ConfigTypes} : Type := {
  gatherMode : string;
  configPath : option string;
  settingsOverrides : option SettingsJson;
}.

(** What the module imports besides: [path] of Node, [default-config.js],
    [constants.js], and the functions of [config-helpers.js], [validation.js]
    and [filters.js], none of them among the sources.  [{}] as settings is
    [emptySettingsJson].  A function that can throw answers with a
    [Result]; [mergeConfigFragment] writes its first argument, so it answers
    with the merged config and with the first argument as it leaves it; the
    others are taken not to write what they are called with. *)
Class ConfigModules (num : Type) `{!ConfigHelpers} `{!ConfigTypes} : Type := {
  path_isAbsolute : string → bool;
  path_dirname : string → string;
  defaultConfigPath : string;
  defaultConfig : ConfigJson;
  emptySettingsJson : SettingsJson;
  nonSimulatedPassConfigOverrides : PassConfigOverrides num;
  deepCloneConfigJson : ConfigJson → ConfigJson;
  mergeConfigFragment : ConfigJson → ConfigJson → Result (ConfigJson * ConfigJson);
  mergeConfigFragmentArrayByKey :
    option (list (ArtifactJson GathererJson)) → option (list (ArtifactJson GathererJson)) →
    (ArtifactJson GathererJson → string) → Result (option (list (ArtifactJson GathererJson)));
  mergePlugins : ConfigJson → option string → option SettingsJson → Result ConfigJson;
  resolveSettings : SettingsJson → option SettingsJson → Result (ConfigSettings num);
  resolveAuditsToDefns :
    option (list AuditJson) → option string → Result (option (list AuditDefn));
  assertValidConfig : FRConfig num → Result ();
  filterConfigByGatherMode : FRConfig num → string → Result (FRConfig num);
  filterConfigByExplicitFilters : FRConfig num → ConfigSettings num → Result (FRConfig num);
}.

(** What [resolveWorkingCopy] returns. *)
Record WorkingCopy `{!ConfigHelpers} `{!ConfigTypes} : Type := {
  configWorkingCopy : ConfigJson;
  wc_configPath : option string;
  wc_configDir : option string;
}.

(** [s ? f(s) : a] on an optional string: [undefined] and the empty string
    are falsy. *)
Definition if_truthy {A} (s : option string) (f : string → A) (a : A) : A :=
  match s with
  | Some s => if bool_decide (s = EmptyString) then a else f s
  | None => a
  end.

Section ConfigModule.
Context {num : Type} `{!Number num} `{!ConfigHelpers} `{!ConfigTypes} `{!ConfigModules num}.

Definition resolveWorkingCopy (configJSON : option ConfigJson) (context : ConfigContext)
    : Result WorkingCopy :=
  let configPath := configPath context in
  if if_truthy configPath (λ configPath, negb (path_isAbsolute configPath)) false
  then throw (Error "configPath must be an absolute path")
  else
    let '(configJSON, configPath) :=
      match configJSON with
      | None => (defaultConfig, Some defaultConfigPath)
      | Some configJSON => (configJSON, configPath)
      end in
    let configDir := if_truthy configPath (λ configPath, Some (path_dirname configPath)) None in
    ret {| configWorkingCopy := deepCloneConfigJson configJSON;
           wc_configPath := configPath;
           wc_configDir := configDir |}.

Definition resolveExtensions (configJSON : ConfigJson) : Result ConfigJson :=
  if if_truthy (json_extends configJSON) (λ _, false) true then ret configJSON
  else if negb (bool_decide (json_extends configJSON = Some "lighthouse:default"))
  then throw (Error "`lighthouse:default` is the only valid extension method.")
  else
    let artifacts := json_artifacts configJSON in
    let extensionJSON :=
      {| json_extends := json_extends configJSON;
         json_artifacts := None;
         json_settings := json_settings configJSON;
         json_audits := json_audits configJSON;
         json_categories := json_categories configJSON;
         json_groups := json_groups configJSON |} in
    let defaultClone := deepCloneConfigJson defaultConfig in
    do (mergedConfig, defaultClone) <- mergeConfigFragment defaultClone extensionJSON;
    do mergedArtifacts <-
      mergeConfigFragmentArrayByKey (json_artifacts defaultClone) artifacts json_id;
    ret {| json_extends := json_extends mergedConfig;
           json_artifacts := mergedArtifacts;
           json_settings := json_settings mergedConfig;
           json_audits := json_audits mergedConfig;
           json_categories := json_categories mergedConfig;
           json_groups := json_groups mergedConfig |}.

(** The two functions that override settings write the object they are
    given; they return the object as they leave it. *)
Definition overrideSettingsForGatherMode (settings : ConfigSettings num)
    (context : ConfigContext) : ConfigSettings num :=
  if decide (gatherMode context = "timespan") then
    if decide (settings_throttlingMethod settings = "simulate") then
      {| settings_throttlingMethod := "devtools";
         cpuQuietThresholdMs := cpuQuietThresholdMs settings;
         networkQuietThresholdMs := networkQuietThresholdMs settings;
         pauseAfterFcpMs := pauseAfterFcpMs settings;
         pauseAfterLoadMs := pauseAfterLoadMs settings |}
    else settings
  else settings.

Definition overrideSettingsThrottlingWindows (settings : ConfigSettings num)
    : ConfigSettings num :=
  if decide (settings_throttlingMethod settings = "simulate") then settings
  else
    {| settings_throttlingMethod := settings_throttlingMethod settings;
       cpuQuietThresholdMs :=
         Some (Math_max (or_zero (cpuQuietThresholdMs settings))
                 (overrides_cpuQuietThresholdMs nonSimulatedPassConfigOverrides));
       networkQuietThresholdMs :=
         Some (Math_max (or_zero (networkQuietThresholdMs settings))
                 (overrides_networkQuietThresholdMs nonSimulatedPassConfigOverrides));
       pauseAfterFcpMs :=
         Some (Math_max (or_zero (pauseAfterFcpMs settings))
                 (overrides_pauseAfterFcpMs nonSimulatedPassConfigOverrides));
       pauseAfterLoadMs :=
         Some (Math_max (or_zero (pauseAfterLoadMs settings))
                 (overrides_pauseAfterLoadMs nonSimulatedPassConfigOverrides)) |}.

(** [initializeConfig] returns [{config}]; here it returns the config. *)
Definition initializeConfig (configJSON : option ConfigJson) (context : ConfigContext)
    : Result (FRConfig num) :=
  do workingCopy <- resolveWorkingCopy configJSON context;
  let configDir := wc_configDir workingCopy in
  do configWorkingCopy <- resolveExtensions (configWorkingCopy workingCopy);
  do configWorkingCopy <- mergePlugins configWorkingCopy configDir (settingsOverrides context);
  do settings <-
    resolveSettings (default emptySettingsJson (json_settings configWorkingCopy))
      (settingsOverrides context);
  let settings := overrideSettingsForGatherMode settings context in
  do artifacts <- resolveArtifactsToDefns (json_artifacts configWorkingCopy) configDir;
  let settings := overrideSettingsThrottlingWindows settings in
  do audits <- resolveAuditsToDefns (json_audits configWorkingCopy) configDir;
  let config :=
    {| config_artifacts := artifacts;
       config_audits := audits;
       config_categories := json_categories configWorkingCopy;
       config_groups := json_groups configWorkingCopy;
       config_settings := settings |} in
  do _ <- assertValidConfig config;
  do config <- filterConfigByGatherMode config (gatherMode context);
  do config <- filterConfigByExplicitFilters config settings;
  ret config.

End ConfigModule.

(** ** The computed-artifact cache *)

(** Modelled from the spec: a [ComputationKey] is a computation kind with the
    fingerprint of the inputs.  The module that implements the cache
    ([computed-artifact.js]) is not among the sources; only calls of
    [request] are. *)
Abbreviation ComputationKey := (string * string)%type (only parsing).

(** Modelled from the spec: a [CachedComputation] holds either a pending
    handle or a completed result.  The handle names the unit of work that
    [request] started for the key. *)
Inductive CachedComputation (V : Type) : Type :=
  | Pending (work : nat)
  | Completed (work : nat) (result : V).
Arguments Pending {V} _.
Arguments Completed {V} _ _.

(** Modelled from the spec: one cache instance.  [units] holds the unit of
    work of each key requested so far, [executions] lists the keys
    [computeFn] was executed for, in order (the unit of work of an execution
    is its position), and [settled] holds the results of the units of work
    that have completed. *)
Record Cache (V : Type) : Type := {
  units : gmap ComputationKey nat;
  executions : list ComputationKey;
  settled : gmap nat V;
}.
Arguments units {V} _.
Arguments executions {V} _.
Arguments settled {V} _.

(** Modelled from the spec: the cache of a run that has requested nothing. *)
Definition new_cache {V} : Cache V :=
  {| units := ∅; executions := []; settled := ∅ |}.

(** Modelled from the spec: the [CachedComputation] of a key. *)
Definition cached {V} (c : Cache V) (key : ComputationKey) : option (CachedComputation V) :=
  work ← units c !! key;
  Some (match settled c !! work with
        | Some result => Completed work result
        | None => Pending work
        end).

(** Modelled from the spec: what happens to a cache, in the order it happens.
    A requester calls [request] with a kind and inputs, or the unit of work
    of an execution completes with a result; requests and completions
    interleave in any order. *)
Inductive CacheEvent (I V : Type) : Type :=
  | Request (requester : nat) (kind : string) (inputs : I)
  | Complete (work : nat) (result : V).
Arguments Request {I V} _ _ _.
Arguments Complete {I V} _ _.

Section ComputedCache.
Context {I V : Type} (fingerprint : I → string).

(** Modelled from the spec: [request(kind, inputs, computeFn)].  The key is
    the kind with the fingerprint of the inputs.  A key the cache holds is
    answered with its unit of work, pending or completed, and nothing is
    executed; for any other key [computeFn] is executed, and its unit of
    work is recorded as the key's. *)
Definition request (kind : string) (inputs : I) (c : Cache V) : nat * Cache V :=
  let key := (kind, fingerprint inputs) in
  match units c !! key with
  | Some work => (work, c)
  | None =>
      let work := length (executions c) in
      (work,
       {| units := <[key := work]> (units c);
          executions := executions c ++ [key];
          settled := settled c |})
  end.

(** Modelled from the spec: a unit of work that was started and has not
    completed yet completes with a result, once. *)
Definition complete (work : nat) (result : V) (c : Cache V) : Cache V :=
  if decide (work < length (executions c))%nat then
    match settled c !! work with
    | Some _ => c
    | None =>
        {| units := units c; executions := executions c;
           settled := <[work := result]> (settled c) |}
    end
  else c.

(** Modelled from the spec: one event; a request adds what the requester
    observes (the key and the unit of work it was answered with) to the
    observations. *)
Definition cache_step (s : Cache V * list (nat * ComputationKey * nat))
    (ev : CacheEvent I V) : Cache V * list (nat * ComputationKey * nat) :=
  match ev with
  | Request requester kind inputs =>
      let '(work, c) := request kind inputs s.1 in
      (c, s.2 ++ [(requester, (kind, fingerprint inputs), work)])
  | Complete work result => (complete work result s.1, s.2)
  end.

(** Modelled from the spec: the events of a run, from a new cache. *)
Definition cache_run (events : list (CacheEvent I V))
    : Cache V * list (nat * ComputationKey * nat) :=
  foldl cache_step (new_cache, []) events.

End ComputedCache.

(** * The vocabulary of the properties *)

(** ** Clipping: what a run writes, and where *)

(** What clipping never writes: the recorded events and the links. *)
Record Skel (num : Type) : Type := {
  sk_event : TraceEvent num;
  sk_endEvent : option (TraceEvent num);
  sk_parent : option addr;
  sk_children : list addr;
}.
Arguments sk_event {num} _.
Arguments sk_endEvent {num} _.
Arguments sk_parent {num} _.
Arguments sk_children {num} _.

Definition skel {num} (t : TaskNode num) : Skel num :=
  {| sk_event := event t; sk_endEvent := endEvent t;
     sk_parent := parent t; sk_children := children t |}.

Definition skeleton {num} (σ : heap num) : gmap nat (Skel num) := skel <$> σ.

(** The nodes a run from [task] visits: a function of the links alone. *)
Fixpoint visited {num} (depth : nat) (K : gmap nat (Skel num)) (task : addr)
    : option (gset nat) :=
  match depth with
  | O => None
  | S depth =>
      k ← K !! task;
      Vs ← mapM (visited depth K) (sk_children k);
      Some ({[task]} ∪ ⋃ Vs)
  end.

Fixpoint visited_roots {num} (depth : nat) (K : gmap nat (Skel num)) (tasks : list addr)
    : option (gset nat) :=
  match tasks with
  | [] => Some ∅
  | task :: tasks =>
      k ← K !! task;
      match sk_parent k with
      | Some _ => visited_roots depth K tasks
      | None =>
          V ← visited depth K task;
          W ← visited_roots depth K tasks;
          Some (V ∪ W)
      end
  end.

Section ClipSpec.
Context {num : Type} `{!Number num}.

Definition clamp_ms (startTs endTs x : num) : num :=
  num_div (Math_max startTs (Math_min endTs x)) (num_of_Z 1000).

Definition eventEnd (k : Skel num) : num :=
  match sk_endEvent k with
  | Some endEvent => evt_ts endEvent
  | None => num_add (evt_ts (sk_event k)) (or_zero (evt_dur (sk_event k)))
  end.

Definition clip_start (startTs endTs : num) (k : Skel num) : num :=
  clamp_ms startTs endTs (evt_ts (sk_event k)).

Definition clip_end (startTs endTs : num) (k : Skel num) : num :=
  clamp_ms startTs endTs (eventEnd k).

Definition clip_duration (startTs endTs : num) (k : Skel num) : num :=
  num_sub (clip_end startTs endTs k) (clip_start startTs endTs k).

(** The clipped duration of the node at [c]. *)
Definition duration_at (startTs endTs : num) (K : gmap nat (Skel num)) (c : addr) : num :=
  from_option (clip_duration startTs endTs) (num_of_Z 0) (K !! c).

Definition sum_durations (ds : list num) : num :=
  fold_left (λ sum child, num_add sum child) ds (num_of_Z 0).

(** A node as a finished run leaves it. *)
Definition clippedNode (startTs endTs : num) (K : gmap nat (Skel num))
    (t : TaskNode num) : TaskNode num :=
  {| event := event t; endEvent := endEvent t; parent := parent t;
     children := children t;
     startTime := clip_start startTs endTs (skel t);
     endTime := clip_end startTs endTs (skel t);
     duration := clip_duration startTs endTs (skel t);
     selfTime :=
       num_sub (clip_duration startTs endTs (skel t))
         (sum_durations (duration_at startTs endTs K <$> children t)) |}.

(** The heap with the nodes of [V] clipped and the others as they were. *)
Definition clipAll (startTs endTs : num) (V : gset nat) (σ : heap num) : heap num :=
  map_imap
    (λ a t, Some (if decide (a ∈ V) then clippedNode startTs endTs (skeleton σ) t else t)) σ.

End ClipSpec.

(** ** Forests *)

(** The nodes of the forest behind [tasks]: the entries with no parent, and
    the children of a node of the forest. *)
Inductive in_forest {num} (σ : heap num) (tasks : list addr) : addr → Prop :=
  | in_forest_root task t :
      task ∈ tasks → σ !! task = Some t → parent t = None → in_forest σ tasks task
  | in_forest_child a t c :
      in_forest σ tasks a → σ !! a = Some t → c ∈ children t → in_forest σ tasks c.

(** A heap holds a forest when every entry of [tasks] and every child is a
    node of the heap, and [rank] decreases from a node to its children: no
    node is its own descendant. *)
Definition well_formed {num} (rank : addr → nat) (σ : heap num) (tasks : list addr) : Prop :=
  Forall (λ task, is_Some (σ !! task)) tasks ∧
  map_Forall
    (λ a t, Forall (λ c, is_Some (σ !! c) ∧ rank c < rank a)%nat (children t)) σ.

(** The call stack is deep enough for the forest. *)
Definition fits_stack (rank : addr → nat) (depth : nat) (tasks : list addr) : Prop :=
  Forall (λ task, rank task < depth)%nat tasks.

(** ** Windows, rows and items *)

Section Windows.
Context {num : Type} `{!Number num}.

(** The length of a window, in the unit of its bounds. *)
Definition window_length (w : TimeWindow num) : num := num_sub (endTs w) (startTs w).

(** What the loop over the phases fixes of the item of a phase. *)
Definition item_of_phase (item : TableItem num) (entry : string * TimeWindow num) : Prop :=
  item_phase item = str_ (UIStrings entry.1) [] ∧
  item_total item =
    num_div (num_sub (endTs entry.2) (startTs entry.2)) (num_of_Z 1000).

End Windows.

(** Two totals tie when neither is below the other. *)
Definition tie {num} `{!Number num} (v : num) (r : UrlRow num) : bool :=
  negb (num_lt (total r) v) && negb (num_lt v (total r)).

(** Comparisons that order the numbers above [TASK_THRESHOLD], the totals of
    the rows that are kept, and agree there with the sign of a difference:
    what makes [(a, b) => b.total - a.total] a consistent comparator on
    those rows. *)
Class OrderedAboveThreshold (num : Type) `{!Number num} : Prop := {
  above_lt_irrefl : ∀ a : num, num_lt TASK_THRESHOLD a = true → num_lt a a = false;
  above_lt_trans : ∀ a b c : num,
    num_lt TASK_THRESHOLD a = true → num_lt TASK_THRESHOLD b = true →
    num_lt TASK_THRESHOLD c = true →
    num_lt a b = true → num_lt b c = true → num_lt a c = true;
  above_nlt_trans : ∀ a b c : num,
    num_lt TASK_THRESHOLD a = true → num_lt TASK_THRESHOLD b = true →
    num_lt TASK_THRESHOLD c = true →
    num_lt a b = false → num_lt b c = false → num_lt a c = false;
  above_sub_pos : ∀ a b : num,
    num_lt TASK_THRESHOLD a = true → num_lt TASK_THRESHOLD b = true →
    num_lt (num_of_Z 0) (num_sub b a) = num_lt a b;
}.

(** A positive double, as the IEEE 754 specification has it: plus infinity,
    or a positive finite double with a valid mantissa. Every double above
    [1] is one. *)
Inductive positive_double : spec_float → Prop :=
  | positive_infinity : positive_double (S754_infinity false)
  | positive_finite m e :
      bounded prec emax m e = true → positive_double (S754_finite false m e).

(** Rows with equal totals in the order of their origins, for an order [le]
    on origins. *)
Definition ties_broken_by_origin {num} (le : string → string → bool)
    (rows : list (UrlRow num)) : Prop :=
  ∀ i j a b,
    rows !! i = Some a → rows !! j = Some b → (i < j)%nat →
    total a = total b → le (url a) (url b) = true.

Section AuditOutcome.
Context {num : Type} `{!Number num} `{!Tracehouse num} `{!ComputedArtifacts num}.


End AuditOutcome.

(** ** Artifact definitions: what the lookup holds *)

(** The symbol a resolved artifact registers, if any. *)
Definition symbol_of (artifact : ArtifactDefn) : option JsSymbol :=
  instance_meta (defn_gatherer artifact) ≫= meta_symbol.

(** [if (symbol) artifactDefnsBySymbol.set(symbol, artifact)] *)
Definition register (artifactDefnsBySymbol : gmap nat ArtifactDefn) (artifact : ArtifactDefn)
    : gmap nat ArtifactDefn :=
  match symbol_of artifact with
  | Some symbol => <[symbol := artifact]> artifactDefnsBySymbol
  | None => artifactDefnsBySymbol
  end.

(** The last of [artifacts] that registers [symbol]. *)
Definition last_registered (symbol : JsSymbol) (artifacts : list ArtifactDefn)
    : option ArtifactDefn :=
  last (List.filter (λ artifact, bool_decide (symbol_of artifact = Some symbol)) artifacts).

Section Resolution.
Context `{!ConfigHelpers}.

(** An entry of a gatherer's [dependencies] resolves among the artifacts
    defined so far when one of them registers its symbol, and the last to do
    so has a gatherer of a compatible phase. *)
Definition resolves_among (gatherer : GathererDefn) (artifactDefns : list ArtifactDefn)
    (entry : string * JsSymbol) : Prop :=
  ∃ dependency,
    last_registered entry.2 artifactDefns = Some dependency ∧
    isValidArtifactDependency gatherer (defn_gatherer dependency) = true.

End Resolution.

(** An entry of [dependencies] as the artifacts before the declaration
    resolve it: to the id of the last of them that registers the symbol. *)
Definition resolved_to_latest (before : list ArtifactDefn) (entry : string * JsSymbol)
    (resolved : string * string) : Prop :=
  ∃ dependency,
    last_registered entry.2 before = Some dependency ∧
    resolved = (entry.1, defn_id dependency).

(** ** The cache: what every run keeps *)

(** Every key of the cache stands for the execution that was started for it,
    every execution for its key, what was observed is what the cache holds,
    and only started units of work have completed. *)
Definition cache_inv {V} (s : Cache V * list (nat * ComputationKey * nat)) : Prop :=
  (∀ key work, units s.1 !! key = Some work ↔ executions s.1 !! work = Some key) ∧
  (∀ requester key work, (requester, key, work) ∈ s.2 → units s.1 !! key = Some work) ∧
  (∀ work, is_Some (settled s.1 !! work) → (work < length (executions s.1))%nat).

(** ** Clipping: sums below a node, heaps with every child, children in sequence *)

(** The self times of a node and of all the nodes below it, summed as the
    node's own self time plus the sums for its children, in order. *)
Fixpoint subtree_selfTime {num} `{!Number num} (depth : nat) (σ : heap num) (a : addr)
    : option num :=
  match depth with
  | O => None
  | S depth =>
      t ← σ !! a;
      below ← mapM (subtree_selfTime depth σ) (children t);
      Some (num_add (selfTime t) (sum_durations below))
  end.

(** Every node has its children in the heap. *)
Definition closed_heap {num} (σ : heap num) : Prop :=
  map_Forall (λ a t, Forall (λ c, is_Some (σ !! c)) (children t)) σ.

(** The children of a task run one after the other, inside the task: each
    starts no earlier than [lo], where the one before it ended, ends no
    earlier than it starts, and the last ends no later than [hi]. *)
Fixpoint sequential_within (σ : heap Qc) (lo hi : Qc) (children : list addr) : Prop :=
  match children with
  | [] => (lo <= hi)%Qc
  | c :: children =>
      ∃ tc,
        σ !! c = Some tc ∧
        (lo <= evt_ts (event tc))%Qc ∧
        (evt_ts (event tc) <= eventEnd (skel tc))%Qc ∧
        sequential_within σ (eventEnd (skel tc)) hi children
  end.

Definition sequential_children (σ : heap Qc) (t : TaskNode Qc) : Prop :=
  sequential_within σ (evt_ts (event t)) (eventEnd (skel t)) (children t).

(** ** The breakdown: what the loop starts from *)

(** The end of the trace on a thread, as [eventThreadBreakdown] computes it
    from the events of the thread. *)
Definition traceEndTs_of {num} `{!Number num} (threadEvents : list (TraceEvent num)) : num :=
  fold_left
    (λ endTs evt, Math_max (num_add (evt_ts evt) (or_zero (evt_dur evt))) endTs)
    threadEvents (num_of_Z 0).

Section BreakdownInputs.
Context {num : Type} `{!Number num} `{!Tracehouse num}.

(** The events of the interaction's thread, and the tasks built from them
    with the heap that holds them: what [eventThreadBreakdown] has when it
    enters its loop. *)
Definition threadEvents_of (interactionEvent : EventTimingEvent num) (trace : Trace num)
    : list (TraceEvent num) :=
  filteredTraceSort (traceEvents trace)
    (λ evt, bool_decide (evt_pid evt = ie_pid interactionEvent)
            && bool_decide (evt_tid evt = ie_tid interactionEvent)).

Definition threadTasks_of (interactionEvent : EventTimingEvent num) (trace : Trace num)
    (processedTrace : ProcessedTrace num) : list addr * heap num :=
  getMainThreadTasks (threadEvents_of interactionEvent trace) (frames processedTrace)
    (traceEndTs_of (threadEvents_of interactionEvent trace)).

End BreakdownInputs.

(** An interaction whose timestamps are in order. *)
Definition ordered_interaction (data : InteractionData Qc) : Prop :=
  (timeStamp data <= processingStart data)%Qc ∧
  (processingStart data <= processingEnd data)%Qc ∧
  (processingEnd data <= num_add (timeStamp data) (data_duration data))%Qc.

(** The window from the start of the interaction to its end. *)
Definition interaction_window {num} `{!Number num} (interactionEvent : EventTimingEvent num)
    : TimeWindow num :=
  {| startTs := ie_ts interactionEvent;
     endTs := num_add (ie_ts interactionEvent)
                (num_mul (data_duration (args_data interactionEvent)) (num_of_Z 1000)) |}.

(** An instant of a window: at or after its start, and before its end. *)
Definition within (w : TimeWindow Qc) (instant : Qc) : Prop :=
  (startTs w <= instant)%Qc ∧ (instant < endTs w)%Qc.

(** ** Settings: thresholds *)

(** The four thresholds of the settings, and of the overrides. *)
Definition thresholds {num} (settings : ConfigSettings num) : list (option num) :=
  [cpuQuietThresholdMs settings; networkQuietThresholdMs settings;
   pauseAfterFcpMs settings; pauseAfterLoadMs settings].

Definition override_thresholds {num} (overrides : PassConfigOverrides num) : list num :=
  [overrides_cpuQuietThresholdMs overrides; overrides_networkQuietThresholdMs overrides;
   overrides_pauseAfterFcpMs overrides; overrides_pauseAfterLoadMs overrides].

(** A threshold after the override: set, not below the override, not below
    what it was (or [0]), and one of the two. *)
Definition raised_threshold (before : option Qc) (override : Qc) (after : option Qc) : Prop :=
  ∃ v, after = Some v ∧ (override <= v)%Qc ∧ (or_zero before <= v)%Qc ∧
       (v = override ∨ v = or_zero before).


(** * Instances to run the definitions on *)

(** ** The rationals are exact and ordered *)

#[export] Instance Qc_ExactArithmetic : ExactArithmetic Qc.
Proof.
  split; simpl.
  - intros a b. ring.
  - intros a b c. ring.
  - intros a b. ring.
  - intros a b. ring.
Qed.

#[export] Instance Qc_ConsistentOrder : ConsistentOrder Qc.
Proof.
  split; simpl; unfold Qc_ltb.
  - intros a. apply bool_decide_eq_false. intros Hlt.
    by apply Qclt_not_eq in Hlt.
  - intros a b c Hab%bool_decide_eq_true Hbc%bool_decide_eq_true.
    apply bool_decide_eq_true. by apply Qclt_trans with b.
  - intros a b c Hab%bool_decide_eq_false Hbc%bool_decide_eq_false.
    apply bool_decide_eq_false. apply Qcle_not_lt.
    apply Qcle_trans with b; by apply Qcnot_lt_le.
  - intros a b. apply bool_decide_ext.
    rewrite (Qclt_minus_iff a b). unfold Qcminus. reflexivity.
Qed.

(** ** A forest to run the definitions on *)

Definition example_event (ts : Z) (dur : option Z) : TraceEvent Qc :=
  {| evt_pid := 1; evt_tid := 1; evt_ts := num_of_Z ts; evt_dur := num_of_Z <$> dur |}.

Definition example_node (ts : Z) (dur : option Z) (endTs : option Z)
    (parent : option addr) (children : list addr) : TaskNode Qc :=
  {| event := example_event ts dur;
     endEvent := (λ e, example_event e None) <$> endTs;
     parent := parent; children := children;
     startTime := num_of_Z 0; endTime := num_of_Z 0;
     duration := num_of_Z 0; selfTime := num_of_Z 0 |}.

(** A root of 100 ms at address 0 with a child of 40 ms at address 1 and a
    grandchild at address 2, and a second root at address 3 that ends with
    an end event. *)
Definition example_heap : heap Qc :=
  <[0%nat := example_node 0 (Some 100000) None None [1%nat]]>
  (<[1%nat := example_node 20000 (Some 40000) None (Some 0%nat) [2%nat]]>
  (<[2%nat := example_node 30000 (Some 10000) None (Some 1%nat) []]>
  (<[3%nat := example_node 150000 None (Some 170000) None []]> ∅))).

Definition example_tasks : list addr := [0; 1; 2; 3]%nat.

Definition example_rank (a : addr) : nat := (3 - a)%nat.

Definition example_interaction : EventTimingEvent Qc :=
  {| ie_pid := 1; ie_tid := 1; ie_ts := num_of_Z 25000;
     args_data :=
       {| timeStamp := num_of_Z 7; processingStart := num_of_Z 12;
          processingEnd := num_of_Z 53; data_duration := num_of_Z 368;
          data_type := "mousedown" |} |}.

(** An interaction in doubles, at [ts = 2^53] microseconds and of a duration
    of 0.001 ms: [ts + 1] is not a double, and rounds to [ts]. *)
Definition double_interaction : EventTimingEvent float :=
  {| ie_pid := 1; ie_tid := 1; ie_ts := num_of_Z 9007199254740992;
     args_data :=
       {| timeStamp := num_of_Z 0; processingStart := num_of_Z 0;
          processingEnd := num_of_Z 0;
          data_duration := num_div (num_of_Z 1) (num_of_Z 1000);
          data_type := "mousedown" |} |}.

(** An interaction whose processing ends 2 ms after [timeStamp + duration]. *)
Definition overrun_interaction : EventTimingEvent Qc :=
  {| ie_pid := 1; ie_tid := 1; ie_ts := num_of_Z 25000;
     args_data :=
       {| timeStamp := num_of_Z 0; processingStart := num_of_Z 2;
          processingEnd := num_of_Z 10; data_duration := num_of_Z 8;
          data_type := "keydown" |} |}.

(** ** An instance of the tracehouse modules to run the audit on *)

Definition example_url (a : addr) : string :=
  match a with
  | 0%nat => "https://b.example/app.js"
  | 1%nat => "https://a.example/lib.js"
  | 2%nat => "https://c.example/widget.js"
  | _ => "https://d.example/"
  end.

(** One URL per task, each with its self time as script evaluation. *)
Definition example_timings (tasks : list addr) (σ : heap Qc)
    : list (string * list (string * Qc)) :=
  omap (λ a, (λ t, (example_url a, [("scriptEvaluation", selfTime t)])) <$> σ !! a) tasks.

#[export] Instance example_Tracehouse : Tracehouse Qc := {|
  Frame := unit;
  NetworkRequest := unit;
  filteredTraceSort events keep := List.filter keep events;
  getMainThreadTasks _ _ _ := (example_tasks, example_heap);
  getExecutionTimingsByURL tasks σ _ := example_timings tasks σ;
  taskGroups_scriptEvaluation_id := "scriptEvaluation";
  taskGroups_styleLayout_id := "styleLayout";
  taskGroups_styleLayout_label := "Style & Layout";
  taskGroups_paintCompositeRender_id := "paintCompositeRender";
  taskGroups_paintCompositeRender_label := "Rendering";
|}.

Definition example_trace : Trace Qc :=
  {| traceEvents :=
       [example_event 0 (Some 100000); example_event 20000 (Some 40000);
        example_event 30000 (Some 10000); example_event 150000 (Some 20000)] |}.

Definition example_processedTrace : ProcessedTrace Qc := {| frames := [] |}.

(** Three origins with the same total, not listed in the order of their names. *)
Definition tied_row (origin : string) : UrlRow Qc :=
  {| url := origin; total := num_of_Z 5; scripting := num_of_Z 5;
     layout := num_of_Z 0; render := num_of_Z 0 |}.

Definition tied_rows : list (UrlRow Qc) :=
  [tied_row "https://b.example/"; tied_row "https://a.example/"; tied_row "https://c.example/"].

(** ** An instance of the computed artifacts to run the audit on *)

(** A trace with events has the example interaction, any other none; there
    are no network records. *)
#[export] Instance example_ComputedArtifacts : ComputedArtifacts Qc := {|
  DevtoolsLog := list string;
  ComputedCache := unit;
  DEFAULT_PASS := "defaultPass";
  inpThresholds_p10 := num_of_Z 200;
  ComputedResponsivenes_request metricData _ :=
    match metricData.1 with
    | Some trace =>
        ret (match traceEvents trace with [] => None | _ => Some example_interaction end)
    | None => throw (TypeError "Cannot read properties of undefined")
    end;
  NetworkRecords_request _ _ := ret [];
  ProcessedTrace_request _ _ := ret example_processedTrace;
|}.

Definition example_artifacts : Artifacts Qc :=
  {| traces := {["defaultPass" := example_trace]};
     devtoolsLogs := {["defaultPass" := []]} |}.

Definition example_context (method : string) : AuditContext Qc :=
  {| settings := {| throttlingMethod := method |}; computedCache := () |}.

(** ** An instance of the config helpers to run the resolution on *)

Definition example_gatherer (name : string) (symbol : option JsSymbol)
    (dependencies : option (list (string * JsSymbol))) : GathererDefn :=
  {| instance_name := name;
     instance_meta :=
       Some {| meta_supportedModes := ["navigation"; "timespan"; "snapshot"];
               meta_symbol := symbol;
               meta_dependencies := dependencies |} |}.

(** Gatherers come resolved, a gatherer is a Fraggle Rock one when it has a
    [meta], and every dependency is of a compatible phase. *)
#[export] Instance example_ConfigHelpers : ConfigHelpers := {|
  GathererJson := GathererDefn;
  coreGathererList := [];
  resolveGathererToDefn gathererJson _ _ := ret gathererJson;
  isFRGathererDefn gatherer := bool_decide (is_Some (instance_meta gatherer));
  isValidArtifactDependency _ _ := true;
|}.

Definition example_artifact (id : string) (symbol : option JsSymbol)
    (dependencies : option (list (string * JsSymbol))) : ArtifactJson GathererDefn :=
  {| json_id := id; json_gatherer := example_gatherer id symbol dependencies |}.

(** [A] registers symbol 1; [B] depends on symbol 1 and on symbol 2, which
    only the later [C] registers. *)
Definition late_artifacts : list (ArtifactJson GathererDefn) :=
  [example_artifact "A" (Some 1%nat) None;
   example_artifact "B" None (Some [("x", 1%nat); ("y", 2%nat)]);
   example_artifact "C" (Some 2%nat) None].

(** Two declarations register symbol 1, and the first and the last have the
    same id. *)
Definition duplicate_artifacts : list (ArtifactJson GathererDefn) :=
  [example_artifact "DevtoolsLog" (Some 1%nat) None;
   example_artifact "DevtoolsLogCompat" (Some 1%nat) None;
   example_artifact "DevtoolsLog" None (Some [("devtoolsLog", 1%nat)])].

(** What the three declarations resolve to. *)
Definition duplicate_defn (id : string) (symbol : option JsSymbol)
    (dependencies : option (list (string * JsSymbol)))
    (resolved : option (list (string * string))) : ArtifactDefn :=
  {| defn_id := id;
     defn_gatherer := example_gatherer id symbol dependencies;
     defn_dependencies := resolved |}.

Definition duplicate_defns : list ArtifactDefn :=
  [duplicate_defn "DevtoolsLog" (Some 1%nat) None None;
   duplicate_defn "DevtoolsLogCompat" (Some 1%nat) None None;
   duplicate_defn "DevtoolsLog" None (Some [("devtoolsLog", 1%nat)])
     (Some [("devtoolsLog", "DevtoolsLogCompat")])].

(** ** Requests on one cache *)

(** Two requesters ask for the tasks of one trace before the computation
    completes, a third after it, and a fourth asks for something else. *)
Definition example_events : list (CacheEvent string string) :=
  [Request 1 "MainThreadTasks" "trace";
   Request 2 "MainThreadTasks" "trace";
   Complete 0 "tasks";
   Request 3 "MainThreadTasks" "trace";
   Request 4 "NetworkRecords" "devtoolsLog"].

(** ** More to run the definitions on *)

(** A node with itself as its only child. *)
Definition looping_heap : heap Qc :=
  <[0%nat := example_node 0 (Some 100000) None None [0%nat]]> ∅.

(** Timings that list a URL with no group at all. *)
Definition empty_timings_Tracehouse : Tracehouse Qc := {|
  Frame := unit;
  NetworkRequest := unit;
  filteredTraceSort events keep := List.filter keep events;
  getMainThreadTasks _ _ _ := (example_tasks, example_heap);
  getExecutionTimingsByURL tasks σ _ :=
    [("https://a.example/lib.js", [("scriptEvaluation", num_of_Z 5)]);
     ("https://b.example/app.js", [])];
  taskGroups_scriptEvaluation_id := "scriptEvaluation";
  taskGroups_styleLayout_id := "styleLayout";
  taskGroups_styleLayout_label := "Style & Layout";
  taskGroups_paintCompositeRender_id := "paintCompositeRender";
  taskGroups_paintCompositeRender_label := "Rendering";
|}.

(** The forest in doubles, with a grandchild of 19 ms: in the window from
    30 ms to 71 ms the root and its child are left with a self time of 11 ms
    each, and the grandchild with 19 ms. *)
Definition double_event (ts : Z) (dur : option Z) : TraceEvent float :=
  {| evt_pid := 1; evt_tid := 1; evt_ts := num_of_Z ts; evt_dur := num_of_Z <$> dur |}.

Definition double_node (ts : Z) (dur : option Z) (endTs : option Z)
    (parent : option addr) (children : list addr) : TaskNode float :=
  {| event := double_event ts dur;
     endEvent := (λ e, double_event e None) <$> endTs;
     parent := parent; children := children;
     startTime := num_of_Z 0; endTime := num_of_Z 0;
     duration := num_of_Z 0; selfTime := num_of_Z 0 |}.

Definition double_heap : heap float :=
  <[0%nat := double_node 0 (Some 100000) None None [1%nat]]>
  (<[1%nat := double_node 20000 (Some 40000) None (Some 0%nat) [2%nat]]>
  (<[2%nat := double_node 30000 (Some 19000) None (Some 1%nat) []]>
  (<[3%nat := double_node 150000 None (Some 170000) None []]> ∅))).

(** One URL per task, each with its self time as script evaluation, in doubles. *)
Definition double_timings (tasks : list addr) (σ : heap float)
    : list (string * list (string * float)) :=
  omap (λ a, (λ t, (example_url a, [("scriptEvaluation", selfTime t)])) <$> σ !! a) tasks.

Definition double_Tracehouse : Tracehouse float := {|
  Frame := unit;
  NetworkRequest := unit;
  filteredTraceSort events keep := List.filter keep events;
  getMainThreadTasks _ _ _ := (example_tasks, double_heap);
  getExecutionTimingsByURL tasks σ _ := double_timings tasks σ;
  taskGroups_scriptEvaluation_id := "scriptEvaluation";
  taskGroups_styleLayout_id := "styleLayout";
  taskGroups_styleLayout_label := "Style & Layout";
  taskGroups_paintCompositeRender_id := "paintCompositeRender";
  taskGroups_paintCompositeRender_label := "Rendering";
|}.

(** Gatherers that come resolved, as in [example_ConfigHelpers], but with a
    phase check: a dependency has to support every mode its dependent does. *)
Definition phased_ConfigHelpers : ConfigHelpers := {|
  GathererJson := GathererDefn;
  coreGathererList := [];
  resolveGathererToDefn gathererJson _ _ := ret gathererJson;
  isFRGathererDefn gatherer := bool_decide (is_Some (instance_meta gatherer));
  isValidArtifactDependency dependent dependency :=
    bool_decide
      (default [] (meta_supportedModes <$> instance_meta dependent)
         ⊆ default [] (meta_supportedModes <$> instance_meta dependency));
|}.

Definition phased_artifact (id : string) (modes : list string) (symbol : option JsSymbol)
    (dependencies : option (list (string * JsSymbol))) : ArtifactJson GathererDefn :=
  {| json_id := id;
     json_gatherer :=
       {| instance_name := id;
          instance_meta :=
            Some {| meta_supportedModes := modes; meta_symbol := symbol;
                    meta_dependencies := dependencies |} |} |}.

(** A declaration with a gatherer of the legacy kind, which has no [meta]. *)
Definition legacy_artifact (id : string) : ArtifactJson GathererDefn :=
  {| json_id := id; json_gatherer := {| instance_name := id; instance_meta := None |} |}.

Definition example_settings (method : string) (cpu : option Z) : ConfigSettings Qc :=
  {| settings_throttlingMethod := method;
     cpuQuietThresholdMs := num_of_Z <$> cpu;
     networkQuietThresholdMs := Some (num_of_Z 6000);
     pauseAfterFcpMs := Some (num_of_Z 0);
     pauseAfterLoadMs := None |}.

#[export] Instance example_ConfigTypes : ConfigTypes := {|
  SettingsJson := ConfigSettings Qc;
  AuditJson := string;
  AuditDefn := string;
  Categories := unit;
  Groups := unit;
|}.

Definition example_config (extends : option string)
    (artifacts : option (list (ArtifactJson GathererDefn))) : ConfigJson :=
  {| json_extends := extends; json_artifacts := artifacts;
     json_settings := Some (example_settings "simulate" (Some 1000));
     json_audits := Some ["work-during-interaction"];
     json_categories := None; json_groups := None |}.

(** Paths are absolute when they start with a slash, configs are cloned as
    they are, settings come resolved, and nothing is merged or filtered. *)
#[export] Instance example_ConfigModules : ConfigModules Qc := {|
  path_isAbsolute path := String.prefix "/" path;
  path_dirname path := path +:+ "/..";
  defaultConfigPath := "/lighthouse-core/fraggle-rock/config/default-config.js";
  defaultConfig := example_config None (Some [example_artifact "A" (Some 1%nat) None]);
  emptySettingsJson := example_settings "devtools" None;
  nonSimulatedPassConfigOverrides :=
    {| overrides_cpuQuietThresholdMs := num_of_Z 5250;
       overrides_networkQuietThresholdMs := num_of_Z 5250;
       overrides_pauseAfterFcpMs := num_of_Z 5250;
       overrides_pauseAfterLoadMs := num_of_Z 5250 |};
  deepCloneConfigJson configJSON := configJSON;
  mergeConfigFragment base extension := ret (base, base);
  mergeConfigFragmentArrayByKey base extension _ := ret base;
  mergePlugins configJSON _ _ := ret configJSON;
  resolveSettings settingsJson _ := ret settingsJson;
  resolveAuditsToDefns audits _ := ret audits;
  assertValidConfig _ := ret ();
  filterConfigByGatherMode config _ := ret config;
  filterConfigByExplicitFilters config _ := ret config;
|}.

Definition example_configContext (mode : string) (path : option string) : ConfigContext :=
  {| gatherMode := mode; configPath := path; settingsOverrides := None |}.

(** * Properties *)

(** ** Clipping: what a run writes *)

Section ClipFacts.
Context {num : Type} `{!Number num}.

Lemma lookup_clipAll s e V (σ : heap num) a :
  clipAll s e V σ !! a =
  (λ t, if decide (a ∈ V) then clippedNode s e (skeleton σ) t else t) <$> σ !! a.
Proof.
  unfold clipAll. rewrite map_lookup_imap. by destruct (σ !! a).
Qed.

Lemma lookup_skeleton (σ : heap num) a : skeleton σ !! a = skel <$> σ !! a.
Proof. apply lookup_fmap. Qed.

Lemma skeleton_clipAll s e V (σ : heap num) : skeleton (clipAll s e V σ) = skeleton σ.
Proof.
  apply map_eq. intros a. unfold skeleton.
  rewrite !lookup_fmap, lookup_clipAll.
  destruct (σ !! a) as [t|]; simpl; [|done].
  by case_decide.
Qed.

Lemma skeleton_insert (σ : heap num) a t t' :
  σ !! a = Some t → skel t' = skel t → skeleton (<[a := t']> σ) = skeleton σ.
Proof.
  intros Ha Hs. unfold skeleton. rewrite fmap_insert, Hs.
  apply insert_id. by rewrite lookup_fmap, Ha.
Qed.

Lemma clipAll_empty s e (σ : heap num) : clipAll s e ∅ σ = σ.
Proof.
  apply map_eq. intros a. rewrite lookup_clipAll.
  destruct (σ !! a); simpl; [|done]. by rewrite decide_False by apply not_elem_of_empty.
Qed.

Lemma clipAll_union s e V W (σ : heap num) :
  clipAll s e W (clipAll s e V σ) = clipAll s e (V ∪ W) σ.
Proof.
  apply map_eq. intros a. rewrite !lookup_clipAll, skeleton_clipAll.
  destruct (σ !! a) as [t|]; simpl; [|done]. f_equal.
  repeat case_decide; try done; exfalso; rewrite elem_of_union in *; tauto.
Qed.

(** Clipping again, by whatever window, overwrites what the first run wrote. *)
Lemma clipAll_again s e s' e' V (σ : heap num) :
  clipAll s e V (clipAll s' e' V σ) = clipAll s e V σ.
Proof.
  apply map_eq. intros a. rewrite !lookup_clipAll, skeleton_clipAll.
  destruct (σ !! a) as [t|]; simpl; [|done]. f_equal.
  by case_decide.
Qed.

(** The run over the children, given what a run from each child does. *)
Lemma Array_map_st_clip (f : addr → heap num → Result (num * heap num))
    (d : nat) (s e : num) :
  (∀ c (σ : heap num) V,
     visited d (skeleton σ) c = Some V →
     f c σ = inr (duration_at s e (skeleton σ) c, clipAll s e V σ)) →
  ∀ cs (σ : heap num) Vs,
    mapM (visited d (skeleton σ)) cs = Some Vs →
    Array_map_st f cs σ =
    inr (duration_at s e (skeleton σ) <$> cs, clipAll s e (⋃ Vs) σ).
Proof.
  intros Hf cs. induction cs as [|c cs IH]; intros σ Vs HVs; simpl in *.
  - injection HVs as <-. simpl. by rewrite clipAll_empty.
  - apply bind_Some in HVs as (V & HV & HVs).
    apply bind_Some in HVs as (Ws & HWs & [= <-]).
    rewrite (Hf _ _ _ HV). simpl.
    rewrite (IH (clipAll s e V σ) Ws) by by rewrite skeleton_clipAll.
    simpl. by rewrite skeleton_clipAll, clipAll_union.
Qed.

Lemma recursivelyClipTasks_visited depth task p s e (σ : heap num) V :
  visited depth (skeleton σ) task = Some V →
  recursivelyClipTasks depth task p s e σ =
  inr (duration_at s e (skeleton σ) task, clipAll s e V σ).
Proof.
  revert task p σ V. induction depth as [|depth IH]; intros task p σ V HV; [done|].
  simpl in HV.
  apply bind_Some in HV as (k & Hk & HV).
  apply bind_Some in HV as (Vs & HVs & [= <-]).
  rewrite lookup_skeleton in Hk.
  destruct (σ !! task) as [t|] eqn:Ht; simplify_eq/=.
  unfold deref at 1. rewrite Ht. simpl.
  set (t1 := set_times _ _ _ t).
  assert (skeleton (<[task := t1]> σ) = skeleton σ) as Hsk1
    by by apply (skeleton_insert _ _ t).
  erewrite (Array_map_st_clip _ depth s e); last first.
  { rewrite Hsk1. done. }
  { intros c σ' V' HV'. by apply IH. }
  simpl. rewrite Hsk1.
  set (σ2 := clipAll s e (⋃ Vs) (<[task := t1]> σ)).
  assert (σ2 !! task =
          Some (if decide (task ∈ ⋃ Vs) then clippedNode s e (skeleton σ) t1 else t1))
    as Ht2.
  { unfold σ2. by rewrite lookup_clipAll, lookup_insert_eq, Hsk1. }
  unfold deref at 1. rewrite Ht2. simpl.
  unfold deref. rewrite lookup_insert_eq. simpl.
  f_equal. f_equal.
  - unfold duration_at. rewrite lookup_skeleton, Ht. simpl.
    by case_decide.
  - apply map_eq. intros a. rewrite lookup_clipAll.
    destruct (decide (a = task)) as [->|Hne].
    + rewrite lookup_insert_eq, Ht. simpl.
      destruct (decide (task ∈ {[task]} ∪ ⋃ Vs)) as [_|Hn];
        [|by rewrite elem_of_union, elem_of_singleton in Hn; tauto].
      f_equal.
      by case_decide.
    + rewrite lookup_insert_ne by done. unfold σ2.
      rewrite lookup_clipAll, lookup_insert_ne, Hsk1 by done.
      destruct (σ !! a) as [ta|]; simpl; [|done]. f_equal.
      repeat case_decide; try done; exfalso;
        rewrite elem_of_union, elem_of_singleton in *; tauto.
Qed.

Lemma clipTasksByTs_visited depth tasks s e (σ : heap num) V :
  visited_roots depth (skeleton σ) tasks = Some V →
  clipTasksByTs depth tasks s e σ = inr (clipAll s e V σ).
Proof.
  revert σ V. induction tasks as [|task tasks IH]; intros σ V HV; simpl in *.
  - injection HV as <-. by rewrite clipAll_empty.
  - apply bind_Some in HV as (k & Hk & HV).
    rewrite lookup_skeleton in Hk.
    destruct (σ !! task) as [t|] eqn:Ht; simplify_eq/=.
    unfold deref. rewrite Ht. simpl.
    destruct (parent t) as [p|]; [by apply IH|].
    apply bind_Some in HV as (V1 & HV1 & HV).
    apply bind_Some in HV as (V2 & HV2 & [= <-]).
    rewrite (recursivelyClipTasks_visited _ _ _ _ _ _ _ HV1). simpl.
    rewrite (IH (clipAll s e V1 σ) V2) by by rewrite skeleton_clipAll.
    by rewrite clipAll_union.
Qed.

End ClipFacts.

(** ** Forests the stack can hold *)

Section Forest.
Context {num : Type} `{!Number num}.

Lemma visited_Some rank (σ : heap num) depth task :
  map_Forall
    (λ a t, Forall (λ c, is_Some (σ !! c) ∧ rank c < rank a)%nat (children t)) σ →
  is_Some (σ !! task) → (rank task < depth)%nat →
  is_Some (visited depth (skeleton σ) task).
Proof.
  intros Hwf. revert task.
  induction depth as [|depth IH]; intros task [t Ht] Hlt; [lia|].
  simpl. rewrite lookup_skeleton, Ht. simpl.
  assert (is_Some (mapM (visited depth (skeleton σ)) (children t))) as [Vs ->]; [|by eexists].
  specialize (Hwf _ _ Ht). simpl in Hwf.
  induction Hwf as [|c cs [Hc Hr] _ IHcs]; [by eexists|].
  simpl. destruct (IH c Hc) as [V ->]; [lia|].
  destruct IHcs as [Vs ->]. by eexists.
Qed.

Lemma visited_roots_Some rank (σ : heap num) depth tasks :
  well_formed rank σ tasks → fits_stack rank depth tasks →
  is_Some (visited_roots depth (skeleton σ) tasks).
Proof.
  intros [Htasks Hwf] Hfit.
  induction Htasks as [|task tasks [t Ht] _ IH]; [by eexists|].
  apply Forall_cons in Hfit as [Hlt Hfit].
  simpl. rewrite lookup_skeleton, Ht. simpl.
  destruct (IH Hfit) as [W HW].
  destruct (parent t); [by eexists|].
  destruct (visited_Some rank σ depth task Hwf) as [V ->]; [by eexists|done|].
  simpl. rewrite HW. by eexists.
Qed.

(** A run visits the node it starts from and, with a node, its children. *)
Lemma visited_closed depth (K : gmap nat (Skel num)) task V :
  visited depth K task = Some V →
  task ∈ V ∧ ∀ a k c, a ∈ V → K !! a = Some k → c ∈ sk_children k → c ∈ V.
Proof.
  revert task V. induction depth as [|depth IH]; intros task V HV; [done|].
  simpl in HV.
  apply bind_Some in HV as (k & Hk & HV).
  apply bind_Some in HV as (Vs & HVs & [= <-]).
  apply mapM_Some in HVs.
  split; [apply elem_of_union_l; by apply elem_of_singleton|].
  intros a ka c Ha Hka Hc.
  apply elem_of_union_r, elem_of_union_list.
  apply elem_of_union in Ha as [Ha|Ha].
  - apply elem_of_singleton in Ha as ->. simplify_eq.
    apply list_elem_of_lookup in Hc as [i Hi].
    destruct (Forall2_lookup_l _ _ _ _ _ HVs Hi) as (Vc & HVc & Hv).
    exists Vc. split; [by eapply list_elem_of_lookup_2|].
    by apply (IH c).
  - apply elem_of_union_list in Ha as (Vc & HVc & Ha).
    apply list_elem_of_lookup in HVc as [i Hi].
    destruct (Forall2_lookup_r _ _ _ _ _ HVs Hi) as (c' & Hc' & Hv).
    exists Vc. split; [by eapply list_elem_of_lookup_2|].
    by apply (IH c' Vc Hv) with a ka.
Qed.

Lemma visited_roots_closed depth (K : gmap nat (Skel num)) tasks V :
  visited_roots depth K tasks = Some V →
  (∀ task k, task ∈ tasks → K !! task = Some k → sk_parent k = None → task ∈ V) ∧
  (∀ a k c, a ∈ V → K !! a = Some k → c ∈ sk_children k → c ∈ V).
Proof.
  revert V. induction tasks as [|task tasks IH]; intros V HV; simpl in HV.
  - injection HV as <-. split; [by intros ?? ?%elem_of_nil|by intros ??? ?%not_elem_of_empty].
  - apply bind_Some in HV as (k & Hk & HV).
    destruct (sk_parent k) as [p|] eqn:Hp.
    + destruct (IH V HV) as [Hroots Hclosed]. split; [|done].
      intros task' k' [->|Hin]%elem_of_cons Hk' Hp'; [congruence|eauto].
    + apply bind_Some in HV as (V1 & HV1 & HV).
      apply bind_Some in HV as (V2 & HV2 & [= <-]).
      destruct (IH V2 HV2) as [Hroots Hclosed].
      destruct (visited_closed _ _ _ _ HV1) as [Htask Hclosed1].
      split.
      * intros task' k' [->|Hin]%elem_of_cons Hk' Hp';
          [by apply elem_of_union_l|apply elem_of_union_r; eauto].
      * intros a ka c [Ha|Ha]%elem_of_union Hka Hc;
          [apply elem_of_union_l|apply elem_of_union_r]; eauto.
Qed.

Lemma in_forest_visited depth (σ : heap num) tasks V a :
  visited_roots depth (skeleton σ) tasks = Some V → in_forest σ tasks a → a ∈ V.
Proof.
  intros [Hroots Hclosed]%visited_roots_closed Ha.
  induction Ha as [task t Hin Ht Hp|a t c _ IH Ht Hc].
  - apply (Hroots task (skel t)); [done| |done].
    by rewrite lookup_skeleton, Ht.
  - apply (Hclosed a (skel t) c); [done| |done].
    by rewrite lookup_skeleton, Ht.
Qed.

End Forest.

Lemma example_well_formed : well_formed example_rank example_heap example_tasks.
Proof.
  split.
  - repeat constructor; by eexists.
  - unfold example_heap.
    repeat (apply map_Forall_insert_2; [repeat constructor; by eexists|]).
    apply map_Forall_empty.
Qed.

Lemma example_fits_stack : fits_stack example_rank 4 example_tasks.
Proof. repeat constructor. Qed.

(** ** Clipping: a window applied to a forest *)

Section Clipping.
Context {num : Type} `{!Number num}.

(** A window applied to a forest the stack can hold: the run returns, and it
    leaves the visited nodes clipped and the others as they were. *)
Lemma clipTasksByTs_returns rank depth tasks s e (σ : heap num) :
  well_formed rank σ tasks → fits_stack rank depth tasks →
  ∃ V, visited_roots depth (skeleton σ) tasks = Some V ∧
       clipTasksByTs depth tasks s e σ = inr (clipAll s e V σ).
Proof.
  intros Hwf Hfit.
  destruct (visited_roots_Some rank σ depth tasks Hwf Hfit) as [V HV].
  exists V. split; [done|]. by apply clipTasksByTs_visited.
Qed.

(** C1. Clipping starts from the recorded events every time: on a forest the
    stack can hold, [clipTasksByTs] with window A and then with window B
    leaves the heap, hence every node's [startTime], [endTime], [duration]
    and [selfTime], as [clipTasksByTs] with window B alone does on the
    forest as it was built. What it leaves in a node of the forest is
    computed from the recorded event of the node as it was built (its [ts],
    and its end event's [ts] or else [ts + (dur || 0)]), cut to window B,
    and from the durations so computed for its children: nothing of window
    A is left. *)
Theorem clipTasksByTs_twice rank depth tasks sA eA sB eB (σ : heap num) :
  well_formed rank σ tasks → fits_stack rank depth tasks →
  ∃ σA σB,
    clipTasksByTs depth tasks sA eA σ = inr σA ∧
    clipTasksByTs depth tasks sB eB σA = inr σB ∧
    clipTasksByTs depth tasks sB eB σ = inr σB ∧
    ∀ a t, in_forest σ tasks a → σ !! a = Some t →
      ∃ tB childDurations,
        σB !! a = Some tB ∧
        let taskEventStart := evt_ts (event t) in
        let taskEventEnd :=
          match endEvent t with
          | Some endEvent => evt_ts endEvent
          | None => num_add (evt_ts (event t)) (or_zero (evt_dur (event t)))
          end in
        startTime tB =
          num_div (Math_max sB (Math_min eB taskEventStart)) (num_of_Z 1000) ∧
        endTime tB =
          num_div (Math_max sB (Math_min eB taskEventEnd)) (num_of_Z 1000) ∧
        duration tB = num_sub (endTime tB) (startTime tB) ∧
        mapM (λ c, duration <$> σB !! c) (children t) = Some childDurations ∧
        selfTime tB =
          num_sub (duration tB)
            (fold_left (λ sum child, num_add sum child) childDurations (num_of_Z 0)).
Proof.
  intros Hwf Hfit.
  destruct (visited_roots_Some rank σ depth tasks Hwf Hfit) as [V HV].
  exists (clipAll sA eA V σ), (clipAll sB eB V σ).
  split; [by apply clipTasksByTs_visited|].
  split.
  { rewrite (clipTasksByTs_visited depth tasks sB eB (clipAll sA eA V σ) V)
      by by rewrite skeleton_clipAll.
    by rewrite clipAll_again. }
  split; [by apply clipTasksByTs_visited|].
  intros a t Ha Ht.
  pose proof (in_forest_visited _ _ _ _ _ HV Ha) as HaV.
  exists (clippedNode sB eB (skeleton σ) t), (duration_at sB eB (skeleton σ) <$> children t).
  split; [by rewrite lookup_clipAll, Ht; simpl; rewrite decide_True|].
  cbv zeta. do 3 (split; [done|]). split; [|done].
  apply mapM_Some, Forall2_fmap_r, Forall_Forall2_diag, Forall_forall.
  intros c Hc. simpl.
  assert (in_forest σ tasks c) as Hcf by by eapply in_forest_child.
  pose proof (in_forest_visited _ _ _ _ _ HV Hcf) as HcV.
  destruct Hwf as [_ Hwf]. specialize (Hwf _ _ Ht). simpl in Hwf.
  rewrite Forall_forall in Hwf. destruct (Hwf c Hc) as [[tc Htc] _].
  rewrite lookup_clipAll, Htc. simpl. rewrite decide_True by done. simpl.
  unfold duration_at. by rewrite lookup_skeleton, Htc.
Qed.

(** C2. After [clipTasksByTs] with any window, every node of the forest has
    [selfTime] equal to its [duration] minus the sum of the (clipped)
    [duration]s of its children, summed in order from [0]. *)
Theorem clipTasksByTs_selfTime rank depth tasks s e (σ : heap num) :
  well_formed rank σ tasks → fits_stack rank depth tasks →
  ∃ σ',
    clipTasksByTs depth tasks s e σ = inr σ' ∧
    ∀ a, in_forest σ tasks a →
      ∃ t ds,
        σ' !! a = Some t ∧
        mapM (λ c, duration <$> σ' !! c) (children t) = Some ds ∧
        selfTime t =
          num_sub (duration t) (fold_left (λ sum child, num_add sum child) ds (num_of_Z 0)).
Proof.
  intros Hwf Hfit.
  destruct (clipTasksByTs_returns rank depth tasks s e σ Hwf Hfit) as (V & HV & Hrun).
  exists (clipAll s e V σ). split; [done|].
  intros a Ha.
  assert (is_Some (σ !! a)) as [t Ht].
  { destruct Ha as [task t _ Ht _|a t c _ Ht Hc]; [by eexists|].
    destruct Hwf as [_ Hwf]. specialize (Hwf _ _ Ht). simpl in Hwf.
    rewrite Forall_forall in Hwf. by apply Hwf. }
  pose proof (in_forest_visited _ _ _ _ _ HV Ha) as HaV.
  exists (clippedNode s e (skeleton σ) t), (duration_at s e (skeleton σ) <$> children t).
  split; [by rewrite lookup_clipAll, Ht; simpl; rewrite decide_True|].
  split; [|done].
  apply mapM_Some, Forall2_fmap_r, Forall_Forall2_diag, Forall_forall.
  intros c Hc. simpl.
  assert (in_forest σ tasks c) as Hcf by by eapply in_forest_child.
  pose proof (in_forest_visited _ _ _ _ _ HV Hcf) as HcV.
  destruct Hwf as [_ Hwf]. specialize (Hwf _ _ Ht). simpl in Hwf.
  rewrite Forall_forall in Hwf. destruct (Hwf c Hc) as [[tc Htc] _].
  rewrite lookup_clipAll, Htc. simpl. rewrite decide_True by done. simpl.
  unfold duration_at. by rewrite lookup_skeleton, Htc.
Qed.

(** C7. [clipTasksByTs] writes the derived timings and nothing else: the run
    returns a heap with the same nodes, each with the [event], [endEvent],
    [children] and [parent] it had. *)
Theorem clipTasksByTs_frame rank depth tasks s e (σ : heap num) :
  well_formed rank σ tasks → fits_stack rank depth tasks →
  ∃ σ',
    clipTasksByTs depth tasks s e σ = inr σ' ∧
    ∀ a,
      match σ !! a, σ' !! a with
      | Some t, Some t' =>
          event t' = event t ∧ endEvent t' = endEvent t ∧
          children t' = children t ∧ parent t' = parent t
      | None, None => True
      | _, _ => False
      end.
Proof.
  intros Hwf Hfit.
  destruct (clipTasksByTs_returns rank depth tasks s e σ Hwf Hfit) as (V & HV & Hrun).
  exists (clipAll s e V σ). split; [done|].
  intros a. rewrite lookup_clipAll.
  destruct (σ !! a) as [t|]; simpl; [|done].
  by case_decide.
Qed.

End Clipping.

Lemma clipTasksByTs_twice_example :
  ∃ σA σB,
    clipTasksByTs 4 example_tasks (num_of_Z 0) (num_of_Z 25000) example_heap = inr σA ∧
    clipTasksByTs 4 example_tasks (num_of_Z 25000) (num_of_Z 160000) σA = inr σB ∧
    clipTasksByTs 4 example_tasks (num_of_Z 25000) (num_of_Z 160000) example_heap = inr σB ∧
    ∀ a t, in_forest example_heap example_tasks a → example_heap !! a = Some t →
      ∃ tB childDurations,
        σB !! a = Some tB ∧
        let taskEventStart := evt_ts (event t) in
        let taskEventEnd :=
          match endEvent t with
          | Some endEvent => evt_ts endEvent
          | None => num_add (evt_ts (event t)) (or_zero (evt_dur (event t)))
          end in
        startTime tB =
          num_div (Math_max (num_of_Z 25000) (Math_min (num_of_Z 160000) taskEventStart))
            (num_of_Z 1000) ∧
        endTime tB =
          num_div (Math_max (num_of_Z 25000) (Math_min (num_of_Z 160000) taskEventEnd))
            (num_of_Z 1000) ∧
        duration tB = num_sub (endTime tB) (startTime tB) ∧
        mapM (λ c, duration <$> σB !! c) (children t) = Some childDurations ∧
        selfTime tB =
          num_sub (duration tB)
            (fold_left (λ sum child, num_add sum child) childDurations (num_of_Z 0)).
Proof.
  exact (clipTasksByTs_twice example_rank 4 example_tasks _ _ _ _ example_heap
           example_well_formed example_fits_stack).
Defined.

Lemma clipTasksByTs_selfTime_example :
  ∃ σ',
    clipTasksByTs 4 example_tasks (num_of_Z 25000) (num_of_Z 160000) example_heap = inr σ' ∧
    ∀ a, in_forest example_heap example_tasks a →
      ∃ t ds,
        σ' !! a = Some t ∧
        mapM (λ c, duration <$> σ' !! c) (children t) = Some ds ∧
        selfTime t =
          num_sub (duration t) (fold_left (λ sum child, num_add sum child) ds (num_of_Z 0)).
Proof.
  exact (clipTasksByTs_selfTime example_rank 4 example_tasks _ _ example_heap
           example_well_formed example_fits_stack).
Defined.

Lemma clipTasksByTs_frame_example :
  ∃ σ',
    clipTasksByTs 4 example_tasks (num_of_Z 25000) (num_of_Z 160000) example_heap = inr σ' ∧
    ∀ a,
      match example_heap !! a, σ' !! a with
      | Some t, Some t' =>
          event t' = event t ∧ endEvent t' = endEvent t ∧
          children t' = children t ∧ parent t' = parent t
      | None, None => True
      | _, _ => False
      end.
Proof.
  exact (clipTasksByTs_frame example_rank 4 example_tasks _ _ example_heap
           example_well_formed example_fits_stack).
Defined.

(** ** Clipping: the forest and nothing but the forest *)

Section ForestOnly.
Context {num : Type} `{!Number num}.

Lemma deref_Some (σ : heap num) a t : σ !! a = Some t → deref a σ = ret t.
Proof. intros Ha. unfold deref. by rewrite Ha. Qed.

(** A run visits nodes of the forest only. *)
Lemma visited_in_forest depth (σ : heap num) tasks task V :
  visited depth (skeleton σ) task = Some V →
  in_forest σ tasks task → ∀ a, a ∈ V → in_forest σ tasks a.
Proof.
  revert task V. induction depth as [|depth IH]; intros task V HV Htask a Ha; [done|].
  simpl in HV. apply bind_Some in HV as (k & Hk & HV).
  apply bind_Some in HV as (Vs & HVs & [= <-]).
  rewrite lookup_skeleton in Hk. destruct (σ !! task) as [t|] eqn:Ht; simplify_eq/=.
  apply elem_of_union in Ha as [Ha|Ha]; [by apply elem_of_singleton in Ha as ->|].
  apply elem_of_union_list in Ha as (Vc & HVc & Ha).
  apply mapM_Some in HVs.
  apply list_elem_of_lookup in HVc as [i Hi].
  destruct (Forall2_lookup_r _ _ _ _ _ HVs Hi) as (c & Hc & Hv).
  apply (IH c Vc Hv); [|done].
  eapply in_forest_child; [exact Htask|exact Ht|]. by eapply list_elem_of_lookup_2.
Qed.

Lemma visited_roots_in_forest depth (σ : heap num) tasks0 tasks V :
  tasks ⊆ tasks0 →
  visited_roots depth (skeleton σ) tasks = Some V →
  ∀ a, a ∈ V → in_forest σ tasks0 a.
Proof.
  revert V. induction tasks as [|task tasks IH]; intros V Hsub HV a Ha; simpl in HV.
  - injection HV as <-. by apply not_elem_of_empty in Ha.
  - apply bind_Some in HV as (k & Hk & HV).
    rewrite lookup_skeleton in Hk. destruct (σ !! task) as [t|] eqn:Ht; simplify_eq/=.
    assert (tasks ⊆ tasks0) as Hsub' by (intros x Hx; apply Hsub; by right).
    destruct (parent t) as [p|] eqn:Hp; [by apply (IH V)|].
    apply bind_Some in HV as (V1 & HV1 & HV).
    apply bind_Some in HV as (V2 & HV2 & [= <-]).
    apply elem_of_union in Ha as [Ha|Ha]; [|by apply (IH V2)].
    apply (visited_in_forest depth σ tasks0 task V1 HV1); [|done].
    apply in_forest_root with t; [apply Hsub; by left|done|done].
Qed.

(** A window applied to a forest the stack can hold, node by node: the nodes
    of the forest are left clipped, the others as they were. *)
Lemma clipTasksByTs_lookup rank depth tasks s e (σ : heap num) :
  well_formed rank σ tasks → fits_stack rank depth tasks →
  ∃ σ',
    clipTasksByTs depth tasks s e σ = inr σ' ∧
    (∀ a t, in_forest σ tasks a → σ !! a = Some t →
       σ' !! a = Some (clippedNode s e (skeleton σ) t)) ∧
    (∀ a, ¬ in_forest σ tasks a → σ' !! a = σ !! a).
Proof.
  intros Hwf Hfit.
  destruct (clipTasksByTs_returns rank depth tasks s e σ Hwf Hfit) as (V & HV & Hrun).
  exists (clipAll s e V σ). split; [done|]. split.
  - intros a t Ha Ht. rewrite lookup_clipAll, Ht. simpl.
    by rewrite decide_True by by eapply in_forest_visited.
  - intros a Ha. rewrite lookup_clipAll.
    destruct (σ !! a) as [t|]; simpl; [|done].
    rewrite decide_False; [done|].
    intros HaV. apply Ha. by eapply visited_roots_in_forest.
Qed.

(** Every node of a forest is a node of the heap, and the stack that can
    hold the forest can hold the node. *)
Lemma in_forest_is_Some rank (σ : heap num) tasks a :
  well_formed rank σ tasks → in_forest σ tasks a → is_Some (σ !! a).
Proof.
  intros [_ Hwf] [task t _ Ht _|b t c _ Ht Hc]; [by eexists|].
  specialize (Hwf _ _ Ht). simpl in Hwf. rewrite Forall_forall in Hwf. by apply Hwf.
Qed.

Lemma in_forest_rank rank depth (σ : heap num) tasks a :
  well_formed rank σ tasks → fits_stack rank depth tasks →
  in_forest σ tasks a → (rank a < depth)%nat.
Proof.
  intros [_ Hwf] Hfit. induction 1 as [task t Hin Ht Hp|b t c _ IH Ht Hc].
  - unfold fits_stack in Hfit. rewrite Forall_forall in Hfit. by apply Hfit.
  - specialize (Hwf _ _ Ht). simpl in Hwf. rewrite Forall_forall in Hwf.
    destruct (Hwf c Hc) as [_ Hlt]. lia.
Qed.

(** X1. The three timings of a node of the forest are those of its own
    recorded event, cut to the window: the event's [ts], and the end
    event's [ts] or, without an end event, [ts + (dur || 0)]; the duration
    is the difference of the two. *)
Theorem clipTasksByTs_times rank depth tasks startTs endTs (σ : heap num) :
  well_formed rank σ tasks → fits_stack rank depth tasks →
  ∃ σ',
    clipTasksByTs depth tasks startTs endTs σ = inr σ' ∧
    ∀ a t, in_forest σ tasks a → σ !! a = Some t →
      ∃ t',
        σ' !! a = Some t' ∧
        let taskEventStart := evt_ts (event t) in
        let taskEventEnd :=
          match endEvent t with
          | Some endEvent => evt_ts endEvent
          | None => num_add (evt_ts (event t)) (or_zero (evt_dur (event t)))
          end in
        startTime t' =
          num_div (Math_max startTs (Math_min endTs taskEventStart)) (num_of_Z 1000) ∧
        endTime t' =
          num_div (Math_max startTs (Math_min endTs taskEventEnd)) (num_of_Z 1000) ∧
        duration t' = num_sub (endTime t') (startTime t').
Proof.
  intros Hwf Hfit.
  destruct (clipTasksByTs_lookup rank depth tasks startTs endTs σ Hwf Hfit)
    as (σ' & Hrun & Hin & _).
  exists σ'. split; [done|]. intros a t Ha Ht.
  exists (clippedNode startTs endTs (skeleton σ) t). split; [by apply Hin|].
  done.
Qed.

(** X2. What is not in the forest is not written: a node that no chain of
    [children] links to an entry of [tasks] without a parent keeps every
    field, the derived timings included. *)
Theorem clipTasksByTs_outside rank depth tasks startTs endTs (σ : heap num) :
  well_formed rank σ tasks → fits_stack rank depth tasks →
  ∃ σ',
    clipTasksByTs depth tasks startTs endTs σ = inr σ' ∧
    ∀ a, ¬ in_forest σ tasks a → σ' !! a = σ !! a.
Proof.
  intros Hwf Hfit.
  destruct (clipTasksByTs_lookup rank depth tasks startTs endTs σ Hwf Hfit)
    as (σ' & Hrun & _ & Hout).
  by exists σ'.
Qed.

(** X3. On a tree the stack can hold, [recursivelyClipTasks] returns the
    duration it leaves in the task it is called with, and neither that
    number nor the heap it leaves depends on the [parent] it is passed. *)
Theorem recursivelyClipTasks_returns rank depth task parent parent' startTs endTs
    (σ : heap num) :
  well_formed rank σ [task] → (rank task < depth)%nat →
  ∃ d σ' t',
    recursivelyClipTasks depth task parent startTs endTs σ = inr (d, σ') ∧
    recursivelyClipTasks depth task parent' startTs endTs σ = inr (d, σ') ∧
    σ' !! task = Some t' ∧
    d = duration t'.
Proof.
  intros [Htask Hwf] Hlt. apply Forall_cons in Htask as [[t Ht] _].
  destruct (visited_Some rank σ depth task Hwf) as [V HV]; [by eexists|done|].
  exists (duration_at startTs endTs (skeleton σ) task), (clipAll startTs endTs V σ),
    (clippedNode startTs endTs (skeleton σ) t).
  split; [by apply recursivelyClipTasks_visited|].
  split; [by apply recursivelyClipTasks_visited|].
  destruct (visited_closed _ _ _ _ HV) as [HtaskV _].
  split; [by rewrite lookup_clipAll, Ht; simpl; rewrite decide_True|].
  unfold duration_at. by rewrite lookup_skeleton, Ht.
Qed.

(** A run on a heap with every child returns, or it runs out of stack. *)
Lemma recursivelyClipTasks_closed (K : gmap nat (Skel num)) depth :
  (∀ a k, K !! a = Some k → Forall (λ c, is_Some (K !! c)) (sk_children k)) →
  ∀ task p s e (σ : heap num),
    skeleton σ = K → is_Some (K !! task) →
    (∃ d σ', recursivelyClipTasks depth task p s e σ = inr (d, σ') ∧ skeleton σ' = K) ∨
    recursivelyClipTasks depth task p s e σ
      = inl (RangeError "Maximum call stack size exceeded").
Proof.
  intros Hclosed. induction depth as [|depth IH]; intros task p s e σ HK [k Hk]; [by right|].
  simpl. subst K. rewrite lookup_skeleton in Hk.
  destruct (σ !! task) as [t|] eqn:Ht; simplify_eq/=.
  rewrite !(deref_Some σ task t Ht). cbn [bind ret].
  set (t1 := set_times _ _ _ t).
  assert (skeleton (<[task := t1]> σ) = skeleton σ) as Hsk1
    by by apply (skeleton_insert _ _ t).
  assert (Forall (λ c, is_Some (skeleton σ !! c)) (children t)) as Hcs.
  { apply (Hclosed task (skel t)). by rewrite lookup_skeleton, Ht. }
  assert (∀ cs (σ1 : heap num),
            skeleton σ1 = skeleton σ → Forall (λ c, is_Some (skeleton σ !! c)) cs →
            (∃ ds σ', Array_map_st
                        (λ child, recursivelyClipTasks depth child (Some task) s e) cs σ1
                      = inr (ds, σ') ∧ skeleton σ' = skeleton σ) ∨
            Array_map_st (λ child, recursivelyClipTasks depth child (Some task) s e) cs σ1
              = inl (RangeError "Maximum call stack size exceeded")) as Hmap.
  { induction cs as [|c cs IHcs]; intros σ1 Hσ1 Hall.
    - left. by exists [], σ1.
    - apply Forall_cons in Hall as [Hc Hall]. cbn [Array_map_st].
      destruct (IH c (Some task) s e σ1 Hσ1 Hc) as [(d & σ2 & -> & Hσ2)| ->]; [|by right].
      cbn [bind].
      destruct (IHcs σ2 Hσ2 Hall) as [(ds & σ3 & -> & Hσ3)| ->]; [|by right].
      left. by exists (d :: ds), σ3. }
  destruct (Hmap (children t) (<[task := t1]> σ) Hsk1 Hcs) as [(ds & σ' & -> & Hσ')| ->];
    [|by right].
  cbn [bind]. left.
  assert (is_Some (σ' !! task)) as [t' Ht'].
  { apply (f_equal (λ K, K !! task)) in Hσ'. rewrite !lookup_skeleton, Ht in Hσ'.
    destruct (σ' !! task); [by eexists|done]. }
  unfold deref. rewrite Ht'. cbn [bind ret]. rewrite lookup_insert_eq. cbn [bind ret].
  eexists _, _. split; [done|].
  rewrite <-Hσ'. apply (skeleton_insert _ _ t'); [done|done].
Qed.

(** X4. Links that never end exhaust the stack: on a heap with every child,
    a run from a node from which [children] can be followed for ever throws
    the [RangeError] of the engine, however deep the stack is. *)
Theorem recursivelyClipTasks_endless (endless : addr → Prop) depth task parent startTs endTs
    (σ : heap num) :
  closed_heap σ →
  (∀ a, endless a → ∃ t c, σ !! a = Some t ∧ c ∈ children t ∧ endless c) →
  endless task →
  recursivelyClipTasks depth task parent startTs endTs σ
    = inl (RangeError "Maximum call stack size exceeded").
Proof.
  intros Hclosed Hendless.
  assert (∀ a k, skeleton σ !! a = Some k →
            Forall (λ c, is_Some (skeleton σ !! c)) (sk_children k)) as HclosedK.
  { intros a k Hk. rewrite lookup_skeleton in Hk.
    destruct (σ !! a) as [t|] eqn:Ht; simplify_eq/=.
    specialize (Hclosed _ _ Ht). simpl in Hclosed.
    eapply Forall_impl; [exact Hclosed|]. intros c [tc Htc].
    rewrite lookup_skeleton, Htc. by eexists. }
  assert (∀ a, endless a →
            ∃ k c, skeleton σ !! a = Some k ∧ c ∈ sk_children k ∧ endless c) as HendlessK.
  { intros a (t & c & Ht & Hc & Hec)%Hendless. exists (skel t), c.
    by rewrite lookup_skeleton, Ht. }
  clear Hclosed Hendless. remember (skeleton σ) as K eqn:HK.
  revert task parent σ HK. induction depth as [|depth IH]; intros task p σ HK Htask; [done|].
  destruct (HendlessK task Htask) as (k & c & Hk & Hc & Hec).
  simpl. subst K. rewrite lookup_skeleton in Hk.
  destruct (σ !! task) as [t|] eqn:Ht; simplify_eq/=.
  unfold deref at 1. rewrite Ht. cbn [bind ret].
  set (t1 := set_times _ _ _ t).
  assert (skeleton (<[task := t1]> σ) = skeleton σ) as Hsk1
    by by apply (skeleton_insert _ _ t).
  assert (Forall (λ c, is_Some (skeleton σ !! c)) (children t)) as Hcs.
  { apply (HclosedK task (skel t)). by rewrite lookup_skeleton, Ht. }
  assert (∀ cs (σ1 : heap num),
            skeleton σ1 = skeleton σ → Forall (λ c, is_Some (skeleton σ !! c)) cs →
            c ∈ cs →
            Array_map_st
              (λ child, recursivelyClipTasks depth child (Some task) startTs endTs) cs σ1
              = inl (RangeError "Maximum call stack size exceeded")) as Hmap.
  { induction cs as [|c' cs IHcs]; intros σ1 Hσ1 Hall Hin; [by apply elem_of_nil in Hin|].
    apply Forall_cons in Hall as [Hc' Hall]. cbn [Array_map_st].
    destruct (recursivelyClipTasks_closed (skeleton σ) depth HclosedK c' (Some task)
                startTs endTs σ1 Hσ1 Hc') as [(d & σ2 & Hrun & Hσ2)| ->]; [|done].
    apply elem_of_cons in Hin as [<-|Hin].
    - by rewrite (IH c (Some task) σ1 (eq_sym Hσ1) Hec) in Hrun.
    - rewrite Hrun. cbn [bind]. by rewrite (IHcs σ2 Hσ2 Hall Hin). }
  by rewrite (Hmap (children t) (<[task := t1]> σ) Hsk1 Hcs Hc).
Qed.

(** X5. Where sums are exact, no time is counted twice and none is lost:
    after [clipTasksByTs], the self times of a node of the forest and of the
    nodes below it add up to the node's duration. *)
Theorem clipTasksByTs_selfTime_total `{!ExactArithmetic num}
    rank depth tasks startTs endTs (σ : heap num) :
  well_formed rank σ tasks → fits_stack rank depth tasks →
  ∃ σ',
    clipTasksByTs depth tasks startTs endTs σ = inr σ' ∧
    ∀ a, in_forest σ tasks a →
      ∃ t', σ' !! a = Some t' ∧ subtree_selfTime depth σ' a = Some (duration t').
Proof.
  intros Hwf Hfit.
  destruct (clipTasksByTs_lookup rank depth tasks startTs endTs σ Hwf Hfit)
    as (σ' & Hrun & Hin & _).
  exists σ'. split; [done|].
  assert (∀ d a t, in_forest σ tasks a → σ !! a = Some t → (rank a < d)%nat →
            subtree_selfTime d σ' a = Some (clip_duration startTs endTs (skel t))) as Hsum.
  { induction d as [|d IH]; intros a t Ha Ht Hlt; [lia|].
    simpl. rewrite (Hin a t Ha Ht). simpl.
    assert (mapM (subtree_selfTime d σ') (children t)
            = Some (duration_at startTs endTs (skeleton σ) <$> children t)) as ->.
    { apply mapM_Some, Forall2_fmap_r, Forall_Forall2_diag, Forall_forall.
      intros c Hc.
      assert (in_forest σ tasks c) as Hcf by by eapply in_forest_child.
      destruct (in_forest_is_Some rank σ tasks c Hwf Hcf) as [tc Htc].
      destruct Hwf as [_ Hwf]. specialize (Hwf _ _ Ht). simpl in Hwf.
      rewrite Forall_forall in Hwf. destruct (Hwf c Hc) as [_ Hr].
      rewrite (IH c tc Hcf Htc) by lia.
      unfold duration_at, compose. by rewrite lookup_skeleton, Htc. }
    simpl. f_equal. apply num_sub_add. }
  intros a Ha.
  destruct (in_forest_is_Some rank σ tasks a Hwf Ha) as [t Ht].
  exists (clippedNode startTs endTs (skeleton σ) t). split; [by apply Hin|].
  apply Hsum; [done|done|]. by eapply in_forest_rank.
Qed.

End ForestOnly.

Lemma clipTasksByTs_times_example :
  ∃ σ',
    clipTasksByTs 4 example_tasks (num_of_Z 25000) (num_of_Z 160000) example_heap = inr σ' ∧
    ∀ a t, in_forest example_heap example_tasks a → example_heap !! a = Some t →
      ∃ t',
        σ' !! a = Some t' ∧
        let taskEventStart := evt_ts (event t) in
        let taskEventEnd :=
          match endEvent t with
          | Some endEvent => evt_ts endEvent
          | None => num_add (evt_ts (event t)) (or_zero (evt_dur (event t)))
          end in
        startTime t' =
          num_div (Math_max (num_of_Z 25000) (Math_min (num_of_Z 160000) taskEventStart))
            (num_of_Z 1000) ∧
        endTime t' =
          num_div (Math_max (num_of_Z 25000) (Math_min (num_of_Z 160000) taskEventEnd))
            (num_of_Z 1000) ∧
        duration t' = num_sub (endTime t') (startTime t').
Proof.
  exact (clipTasksByTs_times example_rank 4 example_tasks _ _ example_heap
           example_well_formed example_fits_stack).
Defined.

(** A list of the two tasks that have a parent: no entry starts a run, and
    no node is written. *)
Lemma clipTasksByTs_outside_example :
  ∃ σ',
    clipTasksByTs 4 [1; 2]%nat (num_of_Z 25000) (num_of_Z 160000) example_heap = inr σ' ∧
    ∀ a, ¬ in_forest example_heap [1; 2]%nat a → σ' !! a = example_heap !! a.
Proof.
  apply (clipTasksByTs_outside example_rank 4 [1; 2]%nat).
  - split; [repeat constructor; by eexists|exact (proj2 example_well_formed)].
  - repeat constructor.
Defined.

(** The child at address 1, clipped on its own. *)
Lemma recursivelyClipTasks_returns_example :
  ∃ d σ' t',
    recursivelyClipTasks 4 1%nat (Some 0%nat) (num_of_Z 25000) (num_of_Z 160000) example_heap
      = inr (d, σ') ∧
    recursivelyClipTasks 4 1%nat None (num_of_Z 25000) (num_of_Z 160000) example_heap
      = inr (d, σ') ∧
    σ' !! 1%nat = Some t' ∧
    d = duration t'.
Proof.
  apply (recursivelyClipTasks_returns example_rank 4 1%nat).
  - split; [repeat constructor; by eexists|exact (proj2 example_well_formed)].
  - unfold example_rank. lia.
Defined.

Lemma recursivelyClipTasks_endless_example :
  recursivelyClipTasks 1000 0%nat None (num_of_Z 0) (num_of_Z 1000) looping_heap
    = inl (RangeError "Maximum call stack size exceeded").
Proof.
  apply (recursivelyClipTasks_endless (λ a, a = 0%nat)); [| |done].
  - apply map_Forall_insert_2; [|apply map_Forall_empty].
    repeat constructor. by eexists.
  - intros a ->. eexists _, 0%nat. split; [apply lookup_insert_eq|]. split; [by left|done].
Defined.

Lemma clipTasksByTs_selfTime_total_example :
  ∃ σ',
    clipTasksByTs 4 example_tasks (num_of_Z 25000) (num_of_Z 160000) example_heap = inr σ' ∧
    ∀ a, in_forest example_heap example_tasks a →
      ∃ t', σ' !! a = Some t' ∧ subtree_selfTime 4 σ' a = Some (duration t').
Proof.
  exact (clipTasksByTs_selfTime_total example_rank 4 example_tasks _ _ example_heap
           example_well_formed example_fits_stack).
Defined.

(** ** Clipping in exact arithmetic *)

(** [Math.max] and [Math.min] on the rationals. *)
Lemma Qc_Math_max_cases (a b : Qc) :
  (a < b)%Qc ∧ Math_max a b = b ∨ (b <= a)%Qc ∧ Math_max a b = a.
Proof.
  simpl. unfold Qc_ltb. case_bool_decide as Hlt; [by left|right].
  split; [by apply Qcnot_lt_le|done].
Qed.

Lemma Qc_Math_min_cases (a b : Qc) :
  (b < a)%Qc ∧ Math_min a b = b ∨ (a <= b)%Qc ∧ Math_min a b = a.
Proof.
  simpl. unfold Qc_ltb. case_bool_decide as Hlt; [by left|right].
  split; [by apply Qcnot_lt_le|done].
Qed.

(** [Math.max(startTs, Math.min(endTs, x))] keeps [x] where it is inside the
    window, and takes it to the nearer bound where it is not. *)
Lemma Qc_clamp_cases (s e x : Qc) :
  (s <= e)%Qc →
  (x <= s)%Qc ∧ Math_max s (Math_min e x) = s ∨
  (s <= x)%Qc ∧ (x <= e)%Qc ∧ Math_max s (Math_min e x) = x ∨
  (e <= x)%Qc ∧ Math_max s (Math_min e x) = e.
Proof.
  intros Hse.
  destruct (Qc_Math_min_cases e x) as [[Hlt ->]|[Hle ->]].
  - destruct (Qc_Math_max_cases s x) as [[Hsx ->]|[Hxs ->]].
    + right. left. split; [by apply Qclt_le_weak|]. split; [by apply Qclt_le_weak|done].
    + by left.
  - destruct (Qc_Math_max_cases s e) as [[_ ->]|[Hes ->]].
    + right. by right.
    + assert (s = e) as <- by by apply Qcle_antisym.
      right. by right.
Qed.

(** A window that ends where it starts, or before, takes every [x] to its start. *)
Lemma Qc_clamp_empty (s e x : Qc) : (e <= s)%Qc → Math_max s (Math_min e x) = s.
Proof.
  intros Hes.
  destruct (Qc_Math_max_cases s (Math_min e x)) as [[Hlt _]|[_ ->]]; [|done].
  exfalso. apply (Qclt_not_le _ _ Hlt).
  destruct (Qc_Math_min_cases e x) as [[Hxe ->]|[_ ->]]; [|done].
  apply Qcle_trans with e; [by apply Qclt_le_weak|done].
Qed.

Lemma Qc_div_1000_le (a b : Qc) :
  (a <= b)%Qc → (num_div a (num_of_Z 1000) <= num_div b (num_of_Z 1000))%Qc.
Proof.
  intros Hab. simpl. unfold Qcdiv. apply Qcmult_le_compat_r; [done|].
  apply Qclt_le_weak, Qcinv_pos. done.
Qed.

Lemma Qc_clamp_mono (s e x y : Qc) :
  (s <= e)%Qc → (x <= y)%Qc →
  (Math_max s (Math_min e x) <= Math_max s (Math_min e y))%Qc.
Proof.
  intros Hse Hxy.
  destruct (Qc_clamp_cases s e x Hse) as [[Hx ->]|[(Hsx & Hxe & ->)|[Hx ->]]],
           (Qc_clamp_cases s e y Hse) as [[Hy ->]|[(Hsy & Hye & ->)|[Hy ->]]];
    try done; try apply Qcle_refl;
    eauto using Qcle_trans.
Qed.

Lemma Qc_sub_nonneg (a b : Qc) : (a <= b)%Qc → (num_of_Z 0 <= num_sub b a)%Qc.
Proof. intros Hab. simpl. unfold Qcminus. by apply Qcle_minus_iff in Hab. Qed.

Lemma Qc_sub_le (a b c d : Qc) :
  (a <= b)%Qc → (c <= d)%Qc → (num_sub a d <= num_sub b c)%Qc.
Proof.
  intros Hab Hcd. simpl. unfold Qcminus.
  apply Qcplus_le_compat; [done|]. by apply Qcopp_le_compat.
Qed.

Lemma Qc_div_1000_sub (a b : Qc) :
  num_sub (num_div a (num_of_Z 1000)) (num_div b (num_of_Z 1000))
  = num_div (num_sub a b) (num_of_Z 1000).
Proof. simpl. field. done. Qed.

Lemma Qc_sub_diag (a : Qc) : num_sub a a = num_of_Z 0.
Proof. simpl. unfold Qcminus. apply Qcplus_opp_r. Qed.

(** X6. In exact arithmetic, with a window that does not end before it starts:
    the start and the end of a clipped node lie in the window (in
    milliseconds), its duration is at most the length of the window, and it
    is not negative when the recorded event does not end before it starts. *)
Theorem clipTasksByTs_within_window rank depth tasks (startTs endTs : Qc) (σ : heap Qc) :
  well_formed rank σ tasks → fits_stack rank depth tasks → (startTs <= endTs)%Qc →
  ∃ σ',
    clipTasksByTs depth tasks startTs endTs σ = inr σ' ∧
    ∀ a t, in_forest σ tasks a → σ !! a = Some t →
      ∃ t',
        σ' !! a = Some t' ∧
        let lower := num_div startTs (num_of_Z 1000) in
        let upper := num_div endTs (num_of_Z 1000) in
        (lower <= startTime t')%Qc ∧ (startTime t' <= upper)%Qc ∧
        (lower <= endTime t')%Qc ∧ (endTime t' <= upper)%Qc ∧
        (duration t' <= num_sub upper lower)%Qc ∧
        ((evt_ts (event t) <= eventEnd (skel t))%Qc → (num_of_Z 0 <= duration t')%Qc).
Proof.
  intros Hwf Hfit Hse.
  destruct (clipTasksByTs_lookup rank depth tasks startTs endTs σ Hwf Hfit)
    as (σ' & Hrun & Hin & _).
  exists σ'. split; [done|]. intros a t Ha Ht.
  exists (clippedNode startTs endTs (skeleton σ) t). split; [by apply Hin|].
  cbv zeta. cbn [startTime endTime duration clippedNode].
  unfold clip_duration, clip_start, clip_end, clamp_ms.
  assert (∀ x, (startTs <= Math_max startTs (Math_min endTs x))%Qc ∧
               (Math_max startTs (Math_min endTs x) <= endTs)%Qc) as Hclamp.
  { intros x.
    destruct (Qc_clamp_cases startTs endTs x Hse) as [[? ->]|[(? & ? & ->)|[? ->]]];
      split; try done; apply Qcle_refl. }
  destruct (Hclamp (evt_ts (sk_event (skel t)))) as [Hs1 Hs2].
  destruct (Hclamp (eventEnd (skel t))) as [He1 He2].
  repeat split; try by apply Qc_div_1000_le.
  - by apply Qc_sub_le; apply Qc_div_1000_le.
  - intros Horder. apply Qc_sub_nonneg, Qc_div_1000_le. by apply Qc_clamp_mono.
Qed.

(** X7. In exact arithmetic, a node whose recorded event lies before the window,
    or after it, is left with the duration [0]. *)
Theorem clipTasksByTs_out_of_bounds rank depth tasks (startTs endTs : Qc) (σ : heap Qc) :
  well_formed rank σ tasks → fits_stack rank depth tasks → (startTs <= endTs)%Qc →
  ∃ σ',
    clipTasksByTs depth tasks startTs endTs σ = inr σ' ∧
    ∀ a t, in_forest σ tasks a → σ !! a = Some t →
      (evt_ts (event t) <= startTs)%Qc ∧ (eventEnd (skel t) <= startTs)%Qc ∨
      (endTs <= evt_ts (event t))%Qc ∧ (endTs <= eventEnd (skel t))%Qc →
      ∃ t', σ' !! a = Some t' ∧ duration t' = num_of_Z 0.
Proof.
  intros Hwf Hfit Hse.
  destruct (clipTasksByTs_lookup rank depth tasks startTs endTs σ Hwf Hfit)
    as (σ' & Hrun & Hin & _).
  exists σ'. split; [done|]. intros a t Ha Ht Hout.
  exists (clippedNode startTs endTs (skeleton σ) t). split; [by apply Hin|].
  cbn [duration clippedNode].
  unfold clip_duration, clip_start, clip_end, clamp_ms.
  assert (Math_max startTs (Math_min endTs (eventEnd (skel t)))
          = Math_max startTs (Math_min endTs (evt_ts (sk_event (skel t))))) as ->.
  { assert (∀ x, (x <= startTs)%Qc → Math_max startTs (Math_min endTs x) = startTs) as Hlow.
    { intros x Hx.
      destruct (Qc_clamp_cases startTs endTs x Hse) as [[? ->]|[(? & ? & ->)|[? ->]]];
        [done|by apply Qcle_antisym|].
      apply Qcle_antisym; [|done]. by apply Qcle_trans with x. }
    assert (∀ x, (endTs <= x)%Qc → Math_max startTs (Math_min endTs x) = endTs) as Hhigh.
    { intros x Hx.
      destruct (Qc_clamp_cases startTs endTs x Hse) as [[? ->]|[(? & ? & ->)|[? ->]]];
        [|by apply Qcle_antisym|done].
      apply Qcle_antisym; [done|]. by apply Qcle_trans with x. }
    destruct Hout as [[H1 H2]|[H1 H2]].
    - by rewrite !Hlow.
    - by rewrite !Hhigh. }
  apply Qc_sub_diag.
Qed.

(** X8. In exact arithmetic, a node whose recorded event lies inside the window
    keeps its times, in milliseconds. *)
Theorem clipTasksByTs_inside rank depth tasks (startTs endTs : Qc) (σ : heap Qc) :
  well_formed rank σ tasks → fits_stack rank depth tasks →
  ∃ σ',
    clipTasksByTs depth tasks startTs endTs σ = inr σ' ∧
    ∀ a t, in_forest σ tasks a → σ !! a = Some t →
      (startTs <= evt_ts (event t))%Qc → (evt_ts (event t) <= eventEnd (skel t))%Qc →
      (eventEnd (skel t) <= endTs)%Qc →
      ∃ t',
        σ' !! a = Some t' ∧
        startTime t' = num_div (evt_ts (event t)) (num_of_Z 1000) ∧
        endTime t' = num_div (eventEnd (skel t)) (num_of_Z 1000) ∧
        duration t' =
          num_div (num_sub (eventEnd (skel t)) (evt_ts (event t))) (num_of_Z 1000).
Proof.
  intros Hwf Hfit.
  destruct (clipTasksByTs_lookup rank depth tasks startTs endTs σ Hwf Hfit)
    as (σ' & Hrun & Hin & _).
  exists σ'. split; [done|]. intros a t Ha Ht Hs Hd He.
  exists (clippedNode startTs endTs (skeleton σ) t). split; [by apply Hin|].
  cbn [startTime endTime duration clippedNode].
  unfold clip_duration, clip_start, clip_end, clamp_ms.
  assert (startTs <= endTs)%Qc as Hse.
  { apply Qcle_trans with (evt_ts (event t)); [done|].
    by apply Qcle_trans with (eventEnd (skel t)). }
  assert (∀ x, (startTs <= x)%Qc → (x <= endTs)%Qc →
               Math_max startTs (Math_min endTs x) = x) as Hmid.
  { intros x Hsx Hxe.
    destruct (Qc_clamp_cases startTs endTs x Hse) as [[? ->]|[(? & ? & ->)|[? ->]]];
      [|done|]; by apply Qcle_antisym. }
  rewrite !Hmid; [by rewrite Qc_div_1000_sub| | | |]; try done.
  - by apply Qcle_trans with (evt_ts (event t)).
  - by apply Qcle_trans with (eventEnd (skel t)).
Qed.


(** The sum of the children's durations, when these are sums themselves. *)
Lemma Qc_sum_durations_add {A} (f g h : A → Qc) (l : list A) :
  (∀ x, h x = num_add (f x) (g x)) →
  sum_durations (h <$> l) = num_add (sum_durations (f <$> l)) (sum_durations (g <$> l)).
Proof.
  intros Hh. unfold sum_durations.
  assert (∀ a b : Qc,
            fold_left (λ sum child, num_add sum child) (h <$> l) (num_add a b) =
            num_add (fold_left (λ sum child, num_add sum child) (f <$> l) a)
                    (fold_left (λ sum child, num_add sum child) (g <$> l) b)) as Hfold.
  { induction l as [|x l IH]; intros a b; [done|].
    simpl fmap. simpl fold_left. rewrite <-IH. f_equal. rewrite Hh. simpl. ring. }
  rewrite <-Hfold. by f_equal.
Qed.

Lemma Qc_sum_durations_zero {A} (f : A → Qc) (l : list A) :
  (∀ x, f x = num_of_Z 0) → sum_durations (f <$> l) = num_of_Z 0.
Proof.
  intros Hf. unfold sum_durations.
  induction l as [|x l IH]; [done|].
  simpl fmap. simpl fold_left. rewrite Hf. exact IH.
Qed.

(** Cutting [x] to a window is cutting it to the window's two halves. *)
Lemma Qc_clamp_split (s m e x : Qc) :
  (s <= m)%Qc → (m <= e)%Qc →
  num_add (Math_max s (Math_min m x)) (Math_max m (Math_min e x))
  = num_add (Math_max s (Math_min e x)) m.
Proof.
  intros Hsm Hme.
  assert (s <= e)%Qc as Hse by by apply Qcle_trans with m.
  destruct (Qclt_le_dec x m) as [Hxm%Qclt_le_weak|Hmx].
  - assert (Math_max m (Math_min e x) = m) as ->.
    { destruct (Qc_clamp_cases m e x Hme) as [[? ->]|[(? & ? & ->)|[? ->]]];
        [done|by apply Qcle_antisym|].
      apply Qcle_antisym; [|done]. by apply Qcle_trans with x. }
    f_equal.
    destruct (Qc_clamp_cases s m x Hsm) as [[? ->]|[(? & ? & ->)|[? ->]]],
             (Qc_clamp_cases s e x Hse) as [[? ->]|[(? & ? & ->)|[? ->]]];
      try done; apply Qcle_antisym; eauto using Qcle_trans.
  - assert (Math_max s (Math_min m x) = m) as ->.
    { destruct (Qc_clamp_cases s m x Hsm) as [[? ->]|[(? & ? & ->)|[? ->]]];
        [|by apply Qcle_antisym|done].
      apply Qcle_antisym; [done|]. by apply Qcle_trans with x. }
    transitivity (num_add (Math_max m (Math_min e x)) m); [apply Qcplus_comm|f_equal].
    destruct (Qc_clamp_cases m e x Hme) as [[? ->]|[(? & ? & ->)|[? ->]]],
             (Qc_clamp_cases s e x Hse) as [[? ->]|[(? & ? & ->)|[? ->]]];
      try done; apply Qcle_antisym; eauto using Qcle_trans.
Qed.

Lemma Qc_clip_duration_split (s m e : Qc) (k : Skel Qc) :
  (s <= m)%Qc → (m <= e)%Qc →
  clip_duration s e k = num_add (clip_duration s m k) (clip_duration m e k).
Proof.
  intros Hsm Hme. unfold clip_duration, clip_start, clip_end, clamp_ms.
  rewrite !Qc_div_1000_sub.
  pose proof (Qc_clamp_split s m e (eventEnd k) Hsm Hme) as Hend.
  pose proof (Qc_clamp_split s m e (evt_ts (sk_event k)) Hsm Hme) as Hstart.
  set (a := Math_max s (Math_min m (eventEnd k))) in *.
  set (b := Math_max m (Math_min e (eventEnd k))) in *.
  set (c := Math_max s (Math_min e (eventEnd k))) in *.
  set (a' := Math_max s (Math_min m (evt_ts (sk_event k)))) in *.
  set (b' := Math_max m (Math_min e (evt_ts (sk_event k)))) in *.
  set (c' := Math_max s (Math_min e (evt_ts (sk_event k)))) in *.
  assert (c = a + b - m)%Qc as -> by (simpl in Hend; rewrite Hend; ring).
  assert (c' = a' + b' - m)%Qc as -> by (simpl in Hstart; rewrite Hstart; ring).
  simpl. field. done.
Qed.

(** A node clipped to a window, and to the two windows a point divides it into. *)
Lemma clippedNode_additive (s m e : Qc) (K : gmap nat (Skel Qc)) (t : TaskNode Qc) :
  (s <= m)%Qc → (m <= e)%Qc →
  duration (clippedNode s e K t)
    = num_add (duration (clippedNode s m K t)) (duration (clippedNode m e K t)) ∧
  selfTime (clippedNode s e K t)
    = num_add (selfTime (clippedNode s m K t)) (selfTime (clippedNode m e K t)).
Proof.
  intros Hsm Hme. cbn [duration selfTime clippedNode].
  split; [by apply Qc_clip_duration_split|].
  rewrite (Qc_clip_duration_split s m e) by done.
  rewrite (Qc_sum_durations_add (duration_at s m K) (duration_at m e K)).
  - simpl. ring.
  - intros c. unfold duration_at. destruct (K !! c); simpl; [|done].
    by apply Qc_clip_duration_split.
Qed.

(** X9. In exact arithmetic, a window that ends where it starts, or before,
    leaves every node of the forest with the duration [0] and the self time
    [0], whatever its recorded event. *)
Theorem clipTasksByTs_empty_window rank depth tasks (startTs endTs : Qc) (σ : heap Qc) :
  well_formed rank σ tasks → fits_stack rank depth tasks → (endTs <= startTs)%Qc →
  ∃ σ',
    clipTasksByTs depth tasks startTs endTs σ = inr σ' ∧
    ∀ a, in_forest σ tasks a →
      ∃ t',
        σ' !! a = Some t' ∧
        startTime t' = num_div startTs (num_of_Z 1000) ∧
        endTime t' = num_div startTs (num_of_Z 1000) ∧
        duration t' = num_of_Z 0 ∧
        selfTime t' = num_of_Z 0.
Proof.
  intros Hwf Hfit Hes.
  destruct (clipTasksByTs_lookup rank depth tasks startTs endTs σ Hwf Hfit)
    as (σ' & Hrun & Hin & _).
  exists σ'. split; [done|]. intros a Ha.
  destruct (in_forest_is_Some rank σ tasks a Hwf Ha) as [t Ht].
  exists (clippedNode startTs endTs (skeleton σ) t). split; [by apply Hin|].
  assert (∀ k : Skel Qc, clip_duration startTs endTs k = num_of_Z 0) as Hzero.
  { intros k. unfold clip_duration, clip_start, clip_end, clamp_ms.
    rewrite !Qc_clamp_empty by done. apply Qc_sub_diag. }
  cbn [startTime endTime duration selfTime clippedNode].
  unfold clip_start, clip_end, clamp_ms. rewrite !Qc_clamp_empty by done.
  split; [done|]. split; [done|]. split; [by apply Hzero|].
  rewrite Hzero, Qc_sum_durations_zero; [apply Qc_sub_diag|].
  intros c. unfold duration_at. destruct (skeleton σ !! c); simpl; [apply Hzero|done].
Qed.

(** X10. In exact arithmetic, clipping is additive over windows that meet: the
    duration and the self time a node gets from a window are the sums of
    those it gets from the two windows a point in between divides it into. *)
Theorem clipTasksByTs_additive rank depth tasks (startTs midTs endTs : Qc) (σ : heap Qc) :
  well_formed rank σ tasks → fits_stack rank depth tasks →
  (startTs <= midTs)%Qc → (midTs <= endTs)%Qc →
  ∃ σ1 σ2 σ',
    clipTasksByTs depth tasks startTs midTs σ = inr σ1 ∧
    clipTasksByTs depth tasks midTs endTs σ = inr σ2 ∧
    clipTasksByTs depth tasks startTs endTs σ = inr σ' ∧
    ∀ a, in_forest σ tasks a →
      ∃ t1 t2 t',
        σ1 !! a = Some t1 ∧ σ2 !! a = Some t2 ∧ σ' !! a = Some t' ∧
        duration t' = num_add (duration t1) (duration t2) ∧
        selfTime t' = num_add (selfTime t1) (selfTime t2).
Proof.
  intros Hwf Hfit Hsm Hme.
  destruct (clipTasksByTs_lookup rank depth tasks startTs midTs σ Hwf Hfit)
    as (σ1 & Hrun1 & Hin1 & _).
  destruct (clipTasksByTs_lookup rank depth tasks midTs endTs σ Hwf Hfit)
    as (σ2 & Hrun2 & Hin2 & _).
  destruct (clipTasksByTs_lookup rank depth tasks startTs endTs σ Hwf Hfit)
    as (σ' & Hrun & Hin & _).
  exists σ1, σ2, σ'. split; [done|]. split; [done|]. split; [done|].
  intros a Ha.
  destruct (in_forest_is_Some rank σ tasks a Hwf Ha) as [t Ht].
  eexists _, _, _.
  split; [by apply Hin1|]. split; [by apply Hin2|]. split; [by apply Hin|].
  by apply clippedNode_additive.
Qed.


(** The clipped durations of children that run one after the other between
    [lo] and [hi] add up to no more than the clipped span from [lo] to [hi]. *)
Lemma Qc_sum_durations_sequential (s e : Qc) (σ : heap Qc) (lo hi : Qc) (cs : list addr)
    (acc : Qc) :
  (s <= e)%Qc → sequential_within σ lo hi cs →
  (num_add
     (fold_left (λ sum child, num_add sum child) (duration_at s e (skeleton σ) <$> cs) acc)
     (clamp_ms s e lo)
   <= num_add acc (clamp_ms s e hi))%Qc.
Proof.
  intros Hse. revert lo acc. induction cs as [|c cs IH]; intros lo acc Hseq; simpl in Hseq.
  - cbn [fmap list_fmap fold_left]. simpl. apply Qcplus_le_compat; [apply Qcle_refl|].
    unfold clamp_ms. apply Qc_div_1000_le. by apply Qc_clamp_mono.
  - destruct Hseq as (tc & Htc & Hlo & Hspan & Hrest).
    rewrite fmap_cons. cbn [fold_left].
    specialize (IH (eventEnd (skel tc)) (num_add acc (duration_at s e (skeleton σ) c)) Hrest).
    unfold duration_at in *. rewrite lookup_skeleton, Htc in *. cbn [from_option fmap option_fmap option_map] in *.
    unfold clip_duration, clip_end, clip_start in *.
    assert (clamp_ms s e lo <= clamp_ms s e (evt_ts (sk_event (skel tc))))%Qc as Hmono.
    { unfold clamp_ms. apply Qc_div_1000_le. by apply Qc_clamp_mono. }
    set (F := fold_left _ _ _) in *.
    set (a := clamp_ms s e (evt_ts (sk_event (skel tc)))) in *.
    set (b := clamp_ms s e (eventEnd (skel tc))) in *.
    set (l := clamp_ms s e lo) in *. set (h := clamp_ms s e hi) in *.
    simpl in *.
    apply Qcle_trans with (F + a)%Qc; [by apply Qcplus_le_compat; [apply Qcle_refl|]|].
    apply (Qcplus_le_mono_r _ _ (b - a)%Qc).
    replace (F + a + (b - a))%Qc with (F + b)%Qc by ring.
    replace (acc + h + (b - a))%Qc with (acc + (b - a) + h)%Qc by ring.
    done.
Qed.

(** X11. In exact arithmetic, with a window that does not end before it
    starts: a task whose children run one after the other inside it is left
    with a self time that is not negative. *)
Theorem clipTasksByTs_selfTime_nonneg rank depth tasks (startTs endTs : Qc) (σ : heap Qc) :
  well_formed rank σ tasks → fits_stack rank depth tasks → (startTs <= endTs)%Qc →
  ∃ σ',
    clipTasksByTs depth tasks startTs endTs σ = inr σ' ∧
    ∀ a t, in_forest σ tasks a → σ !! a = Some t → sequential_children σ t →
      ∃ t', σ' !! a = Some t' ∧ (num_of_Z 0 <= selfTime t')%Qc.
Proof.
  intros Hwf Hfit Hse.
  destruct (clipTasksByTs_lookup rank depth tasks startTs endTs σ Hwf Hfit)
    as (σ' & Hrun & Hin & _).
  exists σ'. split; [done|]. intros a t Ha Ht Hseq.
  exists (clippedNode startTs endTs (skeleton σ) t). split; [by apply Hin|].
  cbn [selfTime clippedNode]. apply Qc_sub_nonneg.
  pose proof (Qc_sum_durations_sequential startTs endTs σ _ _ _ (num_of_Z 0) Hse Hseq) as Hsum.
  unfold sum_durations, clip_duration, clip_end, clip_start.
  set (F := fold_left _ _ _) in *.
  change (clamp_ms startTs endTs (evt_ts (event t))) with
    (clamp_ms startTs endTs (evt_ts (sk_event (skel t)))) in Hsum.
  set (lo := clamp_ms startTs endTs (evt_ts (sk_event (skel t)))) in *.
  set (hi := clamp_ms startTs endTs (eventEnd (skel t))) in *.
  simpl in *.
  apply (Qcplus_le_mono_r _ _ lo).
  replace (hi - lo + lo)%Qc with (Q2Qc 0 + hi)%Qc by ring. done.
Qed.

Lemma clipTasksByTs_within_window_example :
  ∃ σ',
    clipTasksByTs 4 example_tasks (num_of_Z 25000) (num_of_Z 160000) example_heap = inr σ' ∧
    ∀ a t, in_forest example_heap example_tasks a → example_heap !! a = Some t →
      ∃ t',
        σ' !! a = Some t' ∧
        let lower := num_div (num_of_Z 25000) (num_of_Z 1000) in
        let upper := num_div (num_of_Z 160000) (num_of_Z 1000) in
        (lower <= startTime t')%Qc ∧ (startTime t' <= upper)%Qc ∧
        (lower <= endTime t')%Qc ∧ (endTime t' <= upper)%Qc ∧
        (duration t' <= num_sub upper lower)%Qc ∧
        ((evt_ts (event t) <= eventEnd (skel t))%Qc → (num_of_Z 0 <= duration t')%Qc).
Proof.
  apply (clipTasksByTs_within_window example_rank 4 example_tasks
           (num_of_Z 25000) (num_of_Z 160000) example_heap
           example_well_formed example_fits_stack); vm_compute; discriminate.
Defined.

Lemma clipTasksByTs_out_of_bounds_example :
  ∃ σ' before after,
    clipTasksByTs 4 example_tasks (num_of_Z 110000) (num_of_Z 140000) example_heap = inr σ' ∧
    σ' !! 1%nat = Some before ∧ duration before = num_of_Z 0 ∧
    σ' !! 3%nat = Some after ∧ duration after = num_of_Z 0.
Proof.
  destruct (clipTasksByTs_out_of_bounds example_rank 4 example_tasks
              (num_of_Z 110000) (num_of_Z 140000) example_heap
              example_well_formed example_fits_stack)
    as (σ' & Hrun & Hout); [vm_compute; discriminate|].
  assert (in_forest example_heap example_tasks 0%nat) as Hroot.
  { eapply in_forest_root; [|reflexivity|reflexivity]. by left. }
  destruct (Hout 1%nat (example_node 20000 (Some 40000) None (Some 0%nat) [2%nat]))
    as (before & Hbefore & Hzero).
  { eapply in_forest_child; [exact Hroot|reflexivity|]. by left. }
  { reflexivity. }
  { left. split; vm_compute; discriminate. }
  destruct (Hout 3%nat (example_node 150000 None (Some 170000) None []))
    as (after & Hafter & Hzero').
  { eapply in_forest_root; [|reflexivity|reflexivity]. do 3 right. by left. }
  { reflexivity. }
  { right. split; vm_compute; discriminate. }
  exists σ', before, after.
  exact (conj Hrun (conj Hbefore (conj Hzero (conj Hafter Hzero')))).
Defined.

Lemma clipTasksByTs_inside_example :
  ∃ σ',
    clipTasksByTs 4 example_tasks (num_of_Z 25000) (num_of_Z 160000) example_heap = inr σ' ∧
    ∀ a t, in_forest example_heap example_tasks a → example_heap !! a = Some t →
      (num_of_Z 25000 <= evt_ts (event t))%Qc → (evt_ts (event t) <= eventEnd (skel t))%Qc →
      (eventEnd (skel t) <= num_of_Z 160000)%Qc →
      ∃ t',
        σ' !! a = Some t' ∧
        startTime t' = num_div (evt_ts (event t)) (num_of_Z 1000) ∧
        endTime t' = num_div (eventEnd (skel t)) (num_of_Z 1000) ∧
        duration t' =
          num_div (num_sub (eventEnd (skel t)) (evt_ts (event t))) (num_of_Z 1000).
Proof.
  exact (clipTasksByTs_inside example_rank 4 example_tasks _ _ example_heap
           example_well_formed example_fits_stack).
Defined.

(** A window that ends before it starts. *)
Lemma clipTasksByTs_empty_window_example :
  ∃ σ',
    clipTasksByTs 4 example_tasks (num_of_Z 37000) (num_of_Z 30000) example_heap = inr σ' ∧
    ∀ a, in_forest example_heap example_tasks a →
      ∃ t',
        σ' !! a = Some t' ∧
        startTime t' = num_div (num_of_Z 37000) (num_of_Z 1000) ∧
        endTime t' = num_div (num_of_Z 37000) (num_of_Z 1000) ∧
        duration t' = num_of_Z 0 ∧
        selfTime t' = num_of_Z 0.
Proof.
  apply (clipTasksByTs_empty_window example_rank 4 example_tasks
           (num_of_Z 37000) (num_of_Z 30000) example_heap
           example_well_formed example_fits_stack); vm_compute; discriminate.
Defined.

Lemma clipTasksByTs_additive_example :
  ∃ σ1 σ2 σ',
    clipTasksByTs 4 example_tasks (num_of_Z 0) (num_of_Z 25000) example_heap = inr σ1 ∧
    clipTasksByTs 4 example_tasks (num_of_Z 25000) (num_of_Z 160000) example_heap = inr σ2 ∧
    clipTasksByTs 4 example_tasks (num_of_Z 0) (num_of_Z 160000) example_heap = inr σ' ∧
    ∀ a, in_forest example_heap example_tasks a →
      ∃ t1 t2 t',
        σ1 !! a = Some t1 ∧ σ2 !! a = Some t2 ∧ σ' !! a = Some t' ∧
        duration t' = num_add (duration t1) (duration t2) ∧
        selfTime t' = num_add (selfTime t1) (selfTime t2).
Proof.
  apply (clipTasksByTs_additive example_rank 4 example_tasks
           (num_of_Z 0) (num_of_Z 25000) (num_of_Z 160000) example_heap
           example_well_formed example_fits_stack); vm_compute; discriminate.
Defined.

Lemma clipTasksByTs_selfTime_nonneg_example :
  ∃ σ',
    clipTasksByTs 4 example_tasks (num_of_Z 25000) (num_of_Z 160000) example_heap = inr σ' ∧
    ∀ a t, in_forest example_heap example_tasks a → example_heap !! a = Some t →
      sequential_children example_heap t →
      ∃ t', σ' !! a = Some t' ∧ (num_of_Z 0 <= selfTime t')%Qc.
Proof.
  apply (clipTasksByTs_selfTime_nonneg example_rank 4 example_tasks
           (num_of_Z 25000) (num_of_Z 160000) example_heap
           example_well_formed example_fits_stack); vm_compute; discriminate.
Defined.

(** ** The phases of an interaction *)

Section Phases.
Context {num : Type} `{!Number num}.

(** The windows of [getPhaseTimes] meet, the first starts at the [ts] of the
    interaction and the last ends at [ts + duration * 1000], whatever the
    arithmetic. *)
Lemma getPhaseTimes_contiguous (interactionEvent : EventTimingEvent num) :
  let phases := getPhaseTimes interactionEvent in
  let ts := ie_ts interactionEvent in
  let total := num_mul (data_duration (args_data interactionEvent)) (num_of_Z 1000) in
  startTs (inputDelay phases) = ts ∧
  endTs (inputDelay phases) = startTs (processingDelay phases) ∧
  endTs (processingDelay phases) = startTs (presentationDelay phases) ∧
  endTs (presentationDelay phases) = num_add ts total.
Proof. done. Qed.

(** Without rounding, the lengths of the three windows add up to
    [duration * 1000]. *)
Lemma getPhaseTimes_lengths_sum `{!ExactArithmetic num}
    (interactionEvent : EventTimingEvent num) :
  let phases := getPhaseTimes interactionEvent in
  num_add
    (num_add (window_length (inputDelay phases)) (window_length (processingDelay phases)))
    (window_length (presentationDelay phases))
  = num_mul (data_duration (args_data interactionEvent)) (num_of_Z 1000).
Proof.
  unfold window_length. simpl.
  assert (∀ a b c : num, num_add (num_sub b a) (num_sub c b) = num_sub c a) as Htel.
  { intros a b c.
    by rewrite (num_add_comm (num_sub b a)), num_add_sub_assoc, num_sub_add. }
  rewrite !Htel, (num_add_comm (ie_ts interactionEvent)). apply num_add_sub.
Qed.

End Phases.

(** In doubles the lengths can miss the duration: here the duration is one
    microsecond, the last window ends where the first starts, and the
    lengths sum to zero. *)
Lemma getPhaseTimes_lengths_rounded :
  let phases := getPhaseTimes double_interaction in
  let total := num_mul (data_duration (args_data double_interaction)) (num_of_Z 1000) in
  let lengths :=
    num_add
      (num_add (window_length (inputDelay phases)) (window_length (processingDelay phases)))
      (window_length (presentationDelay phases)) in
  total = num_of_Z 1 ∧
  endTs (presentationDelay phases) = startTs (inputDelay phases) ∧
  lengths = num_of_Z 0 ∧
  lengths ≠ total.
Proof.
  cbv zeta. split; [by vm_compute|]. split; [by vm_compute|]. split; [by vm_compute|].
  intros Heq. apply (f_equal PrimFloat.is_zero) in Heq. by vm_compute in Heq.
Qed.

(** ** Phases in exact arithmetic *)

(** A window of a length of [(b - a) * 1000] ends no earlier than it starts
    exactly when [a <= b]. *)
Lemma Qc_window_order (s e a b : Qc) :
  num_sub e s = num_mul (num_sub b a) (num_of_Z 1000) → (s <= e)%Qc ↔ (a <= b)%Qc.
Proof.
  simpl. intros Hlen. rewrite (Qcle_minus_iff s e), (Qcle_minus_iff a b).
  change (e + - s)%Qc with (e - s)%Qc. change (b + - a)%Qc with (b - a)%Qc.
  rewrite Hlen. rewrite (Qcmult_le_mono_pos_r (Q2Qc 0) (b - a) (Q2Qc 1000)) by done.
  by replace (Q2Qc 0 * Q2Qc 1000)%Qc with (Q2Qc 0) by ring.
Qed.

(** X12. In exact arithmetic the length of each phase is a difference of the
    interaction's own timestamps, in microseconds, whatever the [ts] of the
    trace event; and a phase's window ends no earlier than it starts exactly
    when the two timestamps are in order. *)
Theorem getPhaseTimes_lengths (interactionEvent : EventTimingEvent Qc) :
  let phases := getPhaseTimes interactionEvent in
  let data := args_data interactionEvent in
  (window_length (inputDelay phases)
     = num_mul (num_sub (processingStart data) (timeStamp data)) (num_of_Z 1000) ∧
   window_length (processingDelay phases)
     = num_mul (num_sub (processingEnd data) (processingStart data)) (num_of_Z 1000) ∧
   window_length (presentationDelay phases)
     = num_mul (num_sub (num_add (timeStamp data) (data_duration data)) (processingEnd data))
         (num_of_Z 1000)) ∧
  ((startTs (inputDelay phases) <= endTs (inputDelay phases))%Qc
     ↔ (timeStamp data <= processingStart data)%Qc) ∧
  ((startTs (processingDelay phases) <= endTs (processingDelay phases))%Qc
     ↔ (processingStart data <= processingEnd data)%Qc) ∧
  ((startTs (presentationDelay phases) <= endTs (presentationDelay phases))%Qc
     ↔ (processingEnd data <= num_add (timeStamp data) (data_duration data))%Qc).
Proof.
  cbv zeta. unfold window_length. cbn [getPhaseTimes inputDelay processingDelay
    presentationDelay startTs endTs].
  destruct interactionEvent as [pid tid ts [tS pS pE dur type]].
  cbn [args_data ie_ts timeStamp processingStart processingEnd data_duration].
  split; [split; [|split]; simpl; ring|].
  split; [|split]; apply Qc_window_order; simpl; ring.
Qed.

(** The windows of an interaction whose timestamps are in order. *)
Lemma getPhaseTimes_windows_ordered (interactionEvent : EventTimingEvent Qc) :
  ordered_interaction (args_data interactionEvent) →
  let phases := getPhaseTimes interactionEvent in
  (startTs (inputDelay phases) <= endTs (inputDelay phases))%Qc ∧
  (startTs (processingDelay phases) <= endTs (processingDelay phases))%Qc ∧
  (startTs (presentationDelay phases) <= endTs (presentationDelay phases))%Qc.
Proof.
  intros (H1 & H2 & H3). cbv zeta.
  cbn [getPhaseTimes inputDelay processingDelay presentationDelay startTs endTs].
  destruct interactionEvent as [pid tid ts [tS pS pE dur type]].
  cbn [args_data ie_ts timeStamp processingStart processingEnd data_duration] in *.
  split; [|split].
  - apply (Qc_window_order _ _ tS pS); [simpl; ring|done].
  - apply (Qc_window_order _ _ pS pE); [simpl; ring|done].
  - apply (Qc_window_order _ _ pE (tS + dur)%Qc); [simpl; ring|done].
Qed.

(** Three windows that meet, none of which ends before it starts, share out
    the instants from the start of the first to the end of the last. *)
Lemma within_chain (w1 w2 w3 : TimeWindow Qc) (instant : Qc) :
  endTs w1 = startTs w2 → endTs w2 = startTs w3 →
  (startTs w1 <= endTs w1)%Qc → (startTs w2 <= endTs w2)%Qc → (startTs w3 <= endTs w3)%Qc →
  ((startTs w1 <= instant)%Qc ∧ (instant < endTs w3)%Qc
     ↔ within w1 instant ∨ within w2 instant ∨ within w3 instant) ∧
  ¬ (within w1 instant ∧ within w2 instant) ∧
  ¬ (within w1 instant ∧ within w3 instant) ∧
  ¬ (within w2 instant ∧ within w3 instant).
Proof.
  unfold within. intros <- <- H1 H2 H3.
  set (s0 := startTs w1) in *. set (s1 := endTs w1) in *.
  set (s2 := endTs w2) in *. set (s3 := endTs w3) in *.
  split; [split|].
  - intros [Hs He].
    destruct (Qclt_le_dec instant s1) as [Hlt1|Hle1]; [by left|].
    destruct (Qclt_le_dec instant s2) as [Hlt2|Hle2]; [by right; left|].
    by right; right.
  - intros [[Hs He]|[[Hs He]|[Hs He]]].
    + split; [done|]. apply Qclt_le_trans with s1; [done|]. by apply Qcle_trans with s2.
    + split; [by apply Qcle_trans with s1|]. by apply Qclt_le_trans with s2.
    + split; [|done]. apply Qcle_trans with s2; [|done]. by apply Qcle_trans with s1.
  - split; [|split].
    + intros [[_ Hlt] [Hle _]]. by apply (Qclt_not_le _ _ Hlt).
    + intros [[_ Hlt] [Hle _]]. apply (Qclt_not_le _ _ Hlt). by apply Qcle_trans with s2.
    + intros [[_ Hlt] [Hle _]]. by apply (Qclt_not_le _ _ Hlt).
Qed.

(** C3, as the code has it. The three windows of [getPhaseTimes] are
    contiguous, the first starts at the interaction's [ts] and the last ends
    at [ts] plus the duration (in the unit of [ts], that is times 1000),
    whatever the arithmetic; in arithmetic without rounding their lengths
    sum to that duration. In exact arithmetic, for an interaction whose
    timestamps are in order ([timeStamp <= processingStart <= processingEnd
    <= timeStamp + duration]), no window ends before it starts, and the
    three partition the interval from [ts] to [ts] plus the duration: an
    instant is in the interval exactly when it is in one of the windows,
    and no instant is in two of them. *)
Theorem getPhaseTimes_partition :
  (∀ (num : Type) `(!Number num) (interactionEvent : EventTimingEvent num),
     let phases := getPhaseTimes interactionEvent in
     let ts := ie_ts interactionEvent in
     let total := num_mul (data_duration (args_data interactionEvent)) (num_of_Z 1000) in
     startTs (inputDelay phases) = ts ∧
     endTs (inputDelay phases) = startTs (processingDelay phases) ∧
     endTs (processingDelay phases) = startTs (presentationDelay phases) ∧
     endTs (presentationDelay phases) = num_add ts total ∧
     (ExactArithmetic num →
      num_add
        (num_add (window_length (inputDelay phases))
           (window_length (processingDelay phases)))
        (window_length (presentationDelay phases)) = total)) ∧
  (∀ interactionEvent : EventTimingEvent Qc,
     let phases := getPhaseTimes interactionEvent in
     let ts := ie_ts interactionEvent in
     let total := num_mul (data_duration (args_data interactionEvent)) (num_of_Z 1000) in
     ordered_interaction (args_data interactionEvent) →
     ((startTs (inputDelay phases) <= endTs (inputDelay phases))%Qc ∧
      (startTs (processingDelay phases) <= endTs (processingDelay phases))%Qc ∧
      (startTs (presentationDelay phases) <= endTs (presentationDelay phases))%Qc) ∧
     ∀ instant : Qc,
       ((ts <= instant)%Qc ∧ (instant < num_add ts total)%Qc
          ↔ within (inputDelay phases) instant ∨
            within (processingDelay phases) instant ∨
            within (presentationDelay phases) instant) ∧
       ¬ (within (inputDelay phases) instant ∧ within (processingDelay phases) instant) ∧
       ¬ (within (inputDelay phases) instant ∧ within (presentationDelay phases) instant) ∧
       ¬ (within (processingDelay phases) instant ∧
          within (presentationDelay phases) instant)).
Proof.
  split.
  - intros num ? interactionEvent. cbv zeta.
    destruct (getPhaseTimes_contiguous interactionEvent) as (H1 & H2 & H3 & H4).
    do 4 (split; [done|]). intros Hexact. apply getPhaseTimes_lengths_sum.
  - intros interactionEvent. cbv zeta. intros Horder.
    destruct (getPhaseTimes_windows_ordered interactionEvent Horder) as (H1 & H2 & H3).
    split; [done|]. intros instant.
    by apply (within_chain (inputDelay (getPhaseTimes interactionEvent))
                (processingDelay (getPhaseTimes interactionEvent))
                (presentationDelay (getPhaseTimes interactionEvent)) instant).
Qed.

Lemma getPhaseTimes_partition_example :
  let phases := getPhaseTimes example_interaction in
  let ts := ie_ts example_interaction in
  let total := num_mul (data_duration (args_data example_interaction)) (num_of_Z 1000) in
  (startTs (inputDelay phases) = ts ∧
   endTs (inputDelay phases) = startTs (processingDelay phases) ∧
   endTs (processingDelay phases) = startTs (presentationDelay phases) ∧
   endTs (presentationDelay phases) = num_add ts total ∧
   num_add
     (num_add (window_length (inputDelay phases)) (window_length (processingDelay phases)))
     (window_length (presentationDelay phases)) = total) ∧
  ((startTs (inputDelay phases) <= endTs (inputDelay phases))%Qc ∧
   (startTs (processingDelay phases) <= endTs (processingDelay phases))%Qc ∧
   (startTs (presentationDelay phases) <= endTs (presentationDelay phases))%Qc) ∧
  ∀ instant : Qc,
    ((ts <= instant)%Qc ∧ (instant < num_add ts total)%Qc
       ↔ within (inputDelay phases) instant ∨
         within (processingDelay phases) instant ∨
         within (presentationDelay phases) instant) ∧
    ¬ (within (inputDelay phases) instant ∧ within (processingDelay phases) instant) ∧
    ¬ (within (inputDelay phases) instant ∧ within (presentationDelay phases) instant) ∧
    ¬ (within (processingDelay phases) instant ∧ within (presentationDelay phases) instant).
Proof.
  destruct getPhaseTimes_partition as [Hany Hexact].
  destruct (Hany Qc _ example_interaction) as (H1 & H2 & H3 & H4 & H5).
  split; [exact (conj H1 (conj H2 (conj H3 (conj H4 (H5 Qc_ExactArithmetic)))))|].
  apply (Hexact example_interaction).
  repeat split; vm_compute; discriminate.
Defined.

(** C3, as the specification has it, fails twice over. In doubles the
    duration is one microsecond, the last window ends where the first starts,
    and the lengths sum to zero. In exact arithmetic, with a processing that
    ends after [timeStamp + duration], the last window ends before it
    starts, and the instant at 9 ms is in the window of the processing but
    not in the interval from [ts] to [ts] plus the duration. *)
Lemma getPhaseTimes_partition_fails :
  (let phases := getPhaseTimes double_interaction in
   let total := num_mul (data_duration (args_data double_interaction)) (num_of_Z 1000) in
   let lengths :=
     num_add
       (num_add (window_length (inputDelay phases)) (window_length (processingDelay phases)))
       (window_length (presentationDelay phases)) in
   total = num_of_Z 1 ∧
   endTs (presentationDelay phases) = startTs (inputDelay phases) ∧
   lengths = num_of_Z 0 ∧
   lengths ≠ total) ∧
  (let phases := getPhaseTimes overrun_interaction in
   let ts := ie_ts overrun_interaction in
   let total := num_mul (data_duration (args_data overrun_interaction)) (num_of_Z 1000) in
   let instant := num_add ts (num_of_Z 9000) in
   (endTs (presentationDelay phases) < startTs (presentationDelay phases))%Qc ∧
   within (processingDelay phases) instant ∧
   ¬ ((ts <= instant)%Qc ∧ (instant < num_add ts total)%Qc)).
Proof.
  split.
  - exact getPhaseTimes_lengths_rounded.
  - cbv zeta. split; [by vm_compute|]. split; [split; vm_compute; [discriminate|done]|].
    intros [_ Hlt]. by vm_compute in Hlt.
Qed.

(** X13. In exact arithmetic, for an interaction whose timestamps are in order,
    the three phases share out the work of the interaction: the durations
    a node gets from the three windows of [getPhaseTimes] add up to the
    duration it gets from the window of the whole interaction, and so do the
    self times. *)
Theorem getPhaseTimes_share_out rank depth tasks (interactionEvent : EventTimingEvent Qc)
    (σ : heap Qc) :
  well_formed rank σ tasks → fits_stack rank depth tasks →
  ordered_interaction (args_data interactionEvent) →
  let phases := getPhaseTimes interactionEvent in
  let clip (w : TimeWindow Qc) := clipTasksByTs depth tasks (startTs w) (endTs w) σ in
  ∃ σ1 σ2 σ3 σ',
    clip (inputDelay phases) = inr σ1 ∧
    clip (processingDelay phases) = inr σ2 ∧
    clip (presentationDelay phases) = inr σ3 ∧
    clip (interaction_window interactionEvent) = inr σ' ∧
    ∀ a, in_forest σ tasks a →
      ∃ t1 t2 t3 t',
        σ1 !! a = Some t1 ∧ σ2 !! a = Some t2 ∧ σ3 !! a = Some t3 ∧ σ' !! a = Some t' ∧
        duration t' = num_add (num_add (duration t1) (duration t2)) (duration t3) ∧
        selfTime t' = num_add (num_add (selfTime t1) (selfTime t2)) (selfTime t3).
Proof.
  intros Hwf Hfit Horder. cbv zeta.
  destruct (getPhaseTimes_windows_ordered interactionEvent Horder) as (H1 & H2 & H3).
  set (phases := getPhaseTimes interactionEvent) in *.
  destruct (clipTasksByTs_lookup rank depth tasks (startTs (inputDelay phases))
              (endTs (inputDelay phases)) σ Hwf Hfit) as (σ1 & Hrun1 & Hin1 & _).
  destruct (clipTasksByTs_lookup rank depth tasks (startTs (processingDelay phases))
              (endTs (processingDelay phases)) σ Hwf Hfit) as (σ2 & Hrun2 & Hin2 & _).
  destruct (clipTasksByTs_lookup rank depth tasks (startTs (presentationDelay phases))
              (endTs (presentationDelay phases)) σ Hwf Hfit) as (σ3 & Hrun3 & Hin3 & _).
  destruct (clipTasksByTs_lookup rank depth tasks
              (startTs (interaction_window interactionEvent))
              (endTs (interaction_window interactionEvent)) σ Hwf Hfit)
    as (σ' & Hrun & Hin & _).
  exists σ1, σ2, σ3, σ'. do 4 (split; [done|]).
  intros a Ha.
  destruct (in_forest_is_Some rank σ tasks a Hwf Ha) as [t Ht].
  eexists _, _, _, _.
  split; [by apply Hin1|]. split; [by apply Hin2|]. split; [by apply Hin3|].
  split; [by apply Hin|].
  set (K := skeleton σ).
  set (s := ie_ts interactionEvent) in *.
  set (m1 := endTs (inputDelay phases)) in *.
  set (m2 := endTs (processingDelay phases)) in *.
  set (e := endTs (presentationDelay phases)) in *.
  change (startTs (inputDelay phases)) with s in *.
  change (startTs (processingDelay phases)) with m1 in *.
  change (startTs (presentationDelay phases)) with m2 in *.
  change (startTs (interaction_window interactionEvent)) with s.
  change (endTs (interaction_window interactionEvent)) with e.
  assert (s <= m2)%Qc as Hsm2 by by apply Qcle_trans with m1.
  destruct (clippedNode_additive s m2 e K t Hsm2 H3) as [-> ->].
  by destruct (clippedNode_additive s m1 m2 K t H1 H2) as [-> ->].
Qed.


Lemma getPhaseTimes_share_out_example :
  let phases := getPhaseTimes example_interaction in
  let clip (w : TimeWindow Qc) :=
    clipTasksByTs 4 example_tasks (startTs w) (endTs w) example_heap in
  ∃ σ1 σ2 σ3 σ',
    clip (inputDelay phases) = inr σ1 ∧
    clip (processingDelay phases) = inr σ2 ∧
    clip (presentationDelay phases) = inr σ3 ∧
    clip (interaction_window example_interaction) = inr σ' ∧
    ∀ a, in_forest example_heap example_tasks a →
      ∃ t1 t2 t3 t',
        σ1 !! a = Some t1 ∧ σ2 !! a = Some t2 ∧ σ3 !! a = Some t3 ∧ σ' !! a = Some t' ∧
        duration t' = num_add (num_add (duration t1) (duration t2)) (duration t3) ∧
        selfTime t' = num_add (num_add (selfTime t1) (selfTime t2)) (selfTime t3).
Proof.
  apply (getPhaseTimes_share_out example_rank 4 example_tasks example_interaction example_heap
           example_well_formed example_fits_stack).
  by repeat split.
Defined.

(** ** The end of the trace *)

(** X14. In exact arithmetic, the end of the trace that [eventThreadBreakdown]
    hands to [getMainThreadTasks] is not negative and not before the end
    ([ts + (dur || 0)]) of any event of the thread, and it is [0] or the end
    of one of them. *)
Theorem traceEndTs_of_bounds (threadEvents : list (TraceEvent Qc)) :
  let traceEndTs := traceEndTs_of threadEvents in
  let eventEnd (evt : TraceEvent Qc) := num_add (evt_ts evt) (or_zero (evt_dur evt)) in
  (num_of_Z 0 <= traceEndTs)%Qc ∧
  Forall (λ evt, (eventEnd evt <= traceEndTs)%Qc) threadEvents ∧
  (traceEndTs = num_of_Z 0 ∨ ∃ evt, evt ∈ threadEvents ∧ traceEndTs = eventEnd evt).
Proof.
  cbv zeta. unfold traceEndTs_of. generalize (num_of_Z 0 : Qc). intros init.
  revert init. induction threadEvents as [|evt threadEvents IH]; intros init; cbn [fold_left].
  - split; [apply Qcle_refl|]. split; [constructor|by left].
  - destruct (IH (Math_max (num_add (evt_ts evt) (or_zero (evt_dur evt))) init))
      as (Hinit & Hall & Hwhich).
    destruct (Qc_Math_max_cases (num_add (evt_ts evt) (or_zero (evt_dur evt))) init)
      as [[Hlt Hmax]|[Hle Hmax]]; rewrite Hmax in *.
    + split; [done|]. split; [|destruct Hwhich as [?|(evt' & ? & ?)]].
      * constructor; [|done].
        apply Qcle_trans with init; [by apply Qclt_le_weak|done].
      * by left.
      * right. exists evt'. split; [by right|done].
    + split; [by apply Qcle_trans with (num_add (evt_ts evt) (or_zero (evt_dur evt)))|].
      split; [by constructor|]. right.
      destruct Hwhich as [->|(evt' & ? & ?)]; [exists evt; split; [by left|done]|].
      exists evt'. split; [by right|done].
Qed.

(** ** The rows under a phase *)

(** Sorting rearranges, whatever the comparator answers. *)
Lemma sort_insert_perm {num A} `{!Number num} (comparefn : A → A → num) x (l : list A) :
  sort_insert comparefn x l ≡ₚ x :: l.
Proof.
  induction l as [|y l IH]; [done|].
  simpl. destruct (num_lt _ _); [|done].
  by rewrite IH, Permutation_swap.
Qed.

Lemma Array_sort_perm {num A} `{!Number num} (comparefn : A → A → num) (l : list A) :
  Array_sort comparefn l ≡ₚ l.
Proof.
  induction l as [|x l IH]; [done|].
  unfold Array_sort in *. simpl. by rewrite sort_insert_perm, IH.
Qed.

(** *** Doubles above the threshold *)

(** The digits of a mantissa. *)
Lemma digits2_pos_bounds (m : positive) :
  2 ^ (Zpos (digits2_pos m) - 1) <= Zpos m < 2 ^ Zpos (digits2_pos m).
Proof.
  induction m as [m IH|m IH|]; cbn [digits2_pos]; [| |done].
  - rewrite Pos2Z.inj_succ.
    replace (Z.succ (Zpos (digits2_pos m)) - 1) with (Z.succ (Zpos (digits2_pos m) - 1)) by lia.
    rewrite !Z.pow_succ_r by lia. lia.
  - rewrite Pos2Z.inj_succ.
    replace (Z.succ (Zpos (digits2_pos m)) - 1) with (Z.succ (Zpos (digits2_pos m) - 1)) by lia.
    rewrite !Z.pow_succ_r by lia. lia.
Qed.

(** A mantissa shifted right by fewer digits than it has stays positive. *)
Lemma shr_1_lower (mrs : shr_record) (k : Z) :
  0 <= k → 2 ^ (1 + k) <= shr_m mrs → 2 ^ k <= shr_m (shr_1 mrs).
Proof.
  intros Hk. rewrite Z.pow_add_r by lia. change (2 ^ 1) with 2.
  assert (0 < 2 ^ k) by (apply Z.pow_pos_nonneg; lia).
  destruct mrs as [[|[p|p|]|p] r s]; cbn [shr_m shr_1]; lia.
Qed.

Lemma iter_pos_shr_1_lower (n : positive) (mrs : shr_record) (k : Z) :
  0 <= k → 2 ^ (Zpos n + k) <= shr_m mrs → 2 ^ k <= shr_m (SpecFloat.iter_pos shr_1 n mrs).
Proof.
  revert mrs k. induction n as [n IH|n IH|]; intros mrs k Hk Hm; cbn [SpecFloat.iter_pos].
  - apply IH; [done|]. apply IH; [lia|]. apply shr_1_lower; [lia|].
    by replace (1 + (Zpos n + (Zpos n + k))) with (Zpos n~1 + k) by lia.
  - apply IH; [done|]. apply IH; [lia|].
    by replace (Zpos n + (Zpos n + k)) with (Zpos n~0 + k) by lia.
  - by apply shr_1_lower.
Qed.

(** Rounding a positive mantissa at an exponent from [emin] on leaves a
    positive mantissa, at such an exponent. *)
Lemma shr_fexp_pos (m : positive) (e : Z) (l : location) :
  SpecFloat.emin prec emax <= e →
  0 < shr_m (shr_fexp prec emax (Zpos m) e l).1 ∧
  SpecFloat.emin prec emax <= (shr_fexp prec emax (Zpos m) e l).2.
Proof.
  intros He. unfold shr_fexp, shr, SpecFloat.fexp. cbn [Zdigits2].
  destruct (Z.max (Zpos (digits2_pos m) + e - prec) (SpecFloat.emin prec emax) - e)
    as [|n|n] eqn:Hn; cbn [fst snd].
  - by destruct l as [|[]].
  - split; [|lia].
    apply Z.lt_le_trans with (2 ^ 0); [done|].
    apply iter_pos_shr_1_lower; [done|].
    apply Z.le_trans with (2 ^ (Zpos (digits2_pos m) - 1)).
    + apply Z.pow_le_mono_r; [done|]. unfold prec in *. lia.
    + destruct (digits2_pos_bounds m) as [Hlow _]. by destruct l as [|[]].
  - by destruct l as [|[]].
Qed.

Lemma round_nearest_even_pos (m : Z) (l : location) : 0 < m → 0 < round_nearest_even m l.
Proof.
  intros Hm. destruct l as [|[]]; cbn [round_nearest_even]; try lia.
  destruct (Z.even m); lia.
Qed.

(** A positive mantissa rounds to a double above zero. *)
Lemma binary_round_aux_pos (m : positive) (e : Z) (l : location) :
  SpecFloat.emin prec emax <= e →
  SFltb (S754_zero false) (binary_round_aux prec emax false (Zpos m) e l) = true.
Proof.
  intros He. unfold binary_round_aux.
  destruct (shr_fexp_pos m e l He) as [Hm He'].
  destruct (shr_fexp prec emax (Zpos m) e l) as [mrs' e']. cbn [fst snd] in *.
  pose proof (round_nearest_even_pos _ (loc_of_shr_record mrs') Hm) as Hr.
  destruct (round_nearest_even (shr_m mrs') (loc_of_shr_record mrs')) as [|m1|m1]; [lia| |lia].
  destruct (shr_fexp_pos m1 e' loc_Exact He') as [Hm' _].
  destruct (shr_fexp prec emax (Zpos m1) e' loc_Exact) as [mrs'' e'']. cbn [fst snd] in *.
  destruct (shr_m mrs'') as [|m2|m2]; [lia| |lia].
  by destruct (e'' <=? emax - prec).
Qed.

Lemma binary_round_pos (m : positive) (e : Z) :
  SpecFloat.emin prec emax <= e →
  SFltb (S754_zero false) (binary_round prec emax false m e) = true.
Proof.
  intros He. unfold binary_round, shl_align.
  destruct (SpecFloat.fexp prec emax (Zpos (digits2_pos m) + e) - e) as [|d|d] eqn:Hd;
    apply binary_round_aux_pos; try done.
  unfold SpecFloat.fexp. lia.
Qed.

(** A negative mantissa rounds to no double above zero. *)
Lemma binary_round_neg (m : positive) (e : Z) :
  SFltb (S754_zero false) (binary_round prec emax true m e) = false.
Proof.
  unfold binary_round. destruct (shl_align _ _ _) as [mz ez].
  unfold binary_round_aux.
  destruct (shr_fexp prec emax (Zpos mz) ez loc_Exact) as [mrs' e'].
  destruct (shr_fexp prec emax _ e' loc_Exact) as [mrs'' e''].
  destruct (shr_m mrs'') as [|m2|m2]; [done| |done].
  by destruct (e'' <=? emax - prec).
Qed.

Lemma shl_align_spec (m : positive) (e e' : Z) :
  e' <= e → Zpos (shl_align m e e').1 = Zpos m * 2 ^ (e - e').
Proof.
  intros He. unfold shl_align.
  destruct (e' - e) as [|d|d] eqn:Hd; cbn [fst]; [|lia|].
  - replace (e - e') with 0 by lia. lia.
  - replace (e - e') with (Zpos d) by lia.
    clear. induction d as [|d IH] using Pos.peano_ind.
    + simpl. lia.
    + rewrite Pos.iter_succ, Pos2Z.inj_succ, Z.pow_succ_r by lia.
      rewrite Pos2Z.inj_xO, IH. lia.
Qed.

(** A valid mantissa has at most [prec] digits, and [prec] of them above the
    least exponent. *)
Lemma bounded_digits (m : positive) (e : Z) :
  bounded prec emax m e = true →
  SpecFloat.emin prec emax <= e ∧ Zpos m < 2 ^ prec ∧
  (SpecFloat.emin prec emax < e → 2 ^ (prec - 1) <= Zpos m).
Proof.
  unfold bounded, canonical_mantissa, SpecFloat.fexp.
  intros [Hc _]%andb_prop. apply Z.eqb_eq in Hc.
  destruct (digits2_pos_bounds m) as [Hlow Hhigh].
  split; [lia|]. split.
  - apply Z.lt_le_trans with (2 ^ Zpos (digits2_pos m)); [done|].
    apply Z.pow_le_mono_r; lia.
  - intros He. by replace (prec - 1) with (Zpos (digits2_pos m) - 1) by lia.
Qed.

(** The difference of two positive doubles is above zero exactly when the
    first is above the second. *)
Lemma SF64sub_pos (ma mb : positive) (ea eb : Z) :
  bounded prec emax ma ea = true → bounded prec emax mb eb = true →
  SFltb (S754_zero false) (SF64sub (S754_finite false mb eb) (S754_finite false ma ea))
  = SFltb (S754_finite false ma ea) (S754_finite false mb eb).
Proof.
  intros (Hea & Hma & Hna)%bounded_digits (Heb & Hmb & Hnb)%bounded_digits.
  unfold SF64sub, SFsub, SFltb, SFcompare. cbn [cond_Zopp].
  fold (SFltb (S754_zero false)
          (binary_normalize prec emax
             (Zpos (shl_align mb eb (Z.min eb ea)).1 - Zpos (shl_align ma ea (Z.min eb ea)).1)
             (Z.min eb ea) false)).
  rewrite !shl_align_spec by lia.
  assert (0 < 2 ^ (prec - 1)) as Hhalf by done.
  assert (2 ^ prec = 2 * 2 ^ (prec - 1)) as Hprec by done.
  destruct (Z.compare_spec ea eb) as [->|Hlt|Hgt].
  - rewrite Z.min_id, Z.sub_diag, !Z.mul_1_r.
    change (Pos.compare_cont Eq ma mb) with (ma ?= mb)%positive.
    destruct (Pos.compare_spec ma mb) as [->|Hlt|Hgt].
    + by rewrite Z.sub_diag.
    + destruct (Zpos mb - Zpos ma) as [|d|d] eqn:Hd; [lia| |lia].
      by apply binary_round_pos.
    + destruct (Zpos mb - Zpos ma) as [|d|d] eqn:Hd; [lia|lia|].
      apply binary_round_neg.
  - rewrite Z.min_r by lia. rewrite Z.sub_diag, Z.mul_1_r.
    assert (2 <= 2 ^ (eb - ea)) as Hpow.
    { change 2 with (2 ^ 1) at 1. apply Z.pow_le_mono_r; lia. }
    destruct (Zpos mb * 2 ^ (eb - ea) - Zpos ma) as [|d|d] eqn:Hd; [nia| |nia].
    by apply binary_round_pos.
  - rewrite Z.min_l by lia. rewrite Z.sub_diag, Z.mul_1_r.
    assert (2 <= 2 ^ (ea - eb)) as Hpow.
    { change 2 with (2 ^ 1) at 1. apply Z.pow_le_mono_r; lia. }
    destruct (Zpos mb - Zpos ma * 2 ^ (ea - eb)) as [|d|d] eqn:Hd; [nia|nia|].
    apply binary_round_neg.
Qed.

Lemma ltb_one_positive (a : float) :
  PrimFloat.ltb (float_of_Z 1) a = true → positive_double (Prim2SF a).
Proof.
  rewrite FloatAxioms.ltb_spec.
  assert (Prim2SF (float_of_Z 1) = S754_finite false 4503599627370496 (-52)) as ->
    by by vm_compute.
  pose proof (Prim2SF_valid a) as Hvalid.
  destruct (Prim2SF a) as [[]|[]| |[] m e]; try done; by constructor.
Qed.

Lemma SFltb_finite (ma mb : positive) (ea eb : Z) :
  SFltb (S754_finite false ma ea) (S754_finite false mb eb) = true
  ↔ ea < eb ∨ ea = eb ∧ (ma < mb)%positive.
Proof.
  unfold SFltb, SFcompare.
  change (Pos.compare_cont Eq ma mb) with (ma ?= mb)%positive.
  destruct (Z.compare_spec ea eb) as [->|Hlt|Hgt];
    [destruct (Pos.compare_spec ma mb) as [->|Hlt|Hgt]|..]; split; try done; lia.
Qed.

(** The doubles above the threshold are ordered: none of them is [NaN]. *)
#[export] Instance float_OrderedAboveThreshold : OrderedAboveThreshold float.
Proof.
  split; cbn [num_lt num_sub num_of_Z float_Number]; unfold TASK_THRESHOLD;
    cbn [num_of_Z float_Number].
  - intros a Ha%ltb_one_positive. rewrite FloatAxioms.ltb_spec.
    destruct Ha as [|m e _]; [done|].
    apply not_true_is_false. rewrite SFltb_finite. lia.
  - intros a b c Ha%ltb_one_positive Hb%ltb_one_positive Hc%ltb_one_positive.
    rewrite !FloatAxioms.ltb_spec.
    destruct Ha as [|ma ea _], Hb as [|mb eb _], Hc as [|mc ec _]; try done.
    rewrite !SFltb_finite. lia.
  - intros a b c Ha%ltb_one_positive Hb%ltb_one_positive Hc%ltb_one_positive.
    rewrite !FloatAxioms.ltb_spec.
    destruct Ha as [|ma ea _], Hb as [|mb eb _], Hc as [|mc ec _]; try done.
    rewrite <-!not_true_iff_false, !SFltb_finite. lia.
  - intros a b Ha%ltb_one_positive Hb%ltb_one_positive.
    rewrite !FloatAxioms.ltb_spec, FloatAxioms.sub_spec.
    change (Prim2SF (float_of_Z 0)) with (S754_zero false).
    destruct Ha as [|ma ea Ha], Hb as [|mb eb Hb]; try done.
    by apply SF64sub_pos.
Qed.

(** Comparisons that order all the numbers order those above the threshold. *)
#[export] Instance ConsistentOrder_above {num : Type} `{!Number num}
    `{!ConsistentOrder num} : OrderedAboveThreshold num.
Proof.
  split.
  - intros a _. apply num_lt_irrefl.
  - intros a b c _ _ _. apply num_lt_trans.
  - intros a b c _ _ _. apply num_nlt_trans.
  - intros a b _ _. apply num_sub_pos.
Qed.

Section Rows.
Context {num : Type} `{!Number num} `{!OrderedAboveThreshold num}.

Abbreviation by_total := (λ a b : UrlRow num, num_sub (total b) (total a)) (only parsing).

(** No row is below a row that follows it. *)
Abbreviation descending :=
  (StronglySorted (λ a b : UrlRow num, num_lt (total a) (total b) = false)) (only parsing).

(** A row that the filter keeps. *)
Abbreviation kept_row :=
  (λ r : UrlRow num, num_lt TASK_THRESHOLD (total r) = true) (only parsing).

Lemma num_lt_asym (a b : num) :
  num_lt TASK_THRESHOLD a = true → num_lt TASK_THRESHOLD b = true →
  num_lt a b = true → num_lt b a = false.
Proof.
  intros Ha Hb Hab. destruct (num_lt b a) eqn:Hba; [|done].
  by rewrite <-(above_lt_irrefl a Ha), (above_lt_trans a b a).
Qed.

Lemma sort_insert_by_total x y (l : list (UrlRow num)) :
  kept_row x → kept_row y →
  sort_insert by_total x (y :: l) =
  if num_lt (total x) (total y) then y :: sort_insert by_total x l else x :: y :: l.
Proof. intros Hx Hy. simpl. by rewrite above_sub_pos. Qed.

Lemma sort_insert_descending x (l : list (UrlRow num)) :
  kept_row x → Forall kept_row l → descending l → descending (sort_insert by_total x l).
Proof.
  intros Hx Hl Hd. induction Hd as [|y l Hd IH Hy]; [by repeat constructor|].
  apply Forall_cons in Hl as [Hky Hl].
  rewrite sort_insert_by_total by done. destruct (num_lt (total x) (total y)) eqn:Hxy.
  - constructor; [by apply IH|].
    rewrite sort_insert_perm. constructor; [by apply num_lt_asym|done].
  - constructor; [by constructor|].
    constructor; [done|].
    rewrite Forall_forall in Hy, Hl |- *. intros z Hz.
    apply above_nlt_trans with (total y); auto.
Qed.

Lemma Array_sort_descending (l : list (UrlRow num)) :
  Forall kept_row l → descending (Array_sort by_total l).
Proof.
  induction 1 as [|x l Hx Hl IH]; [constructor|].
  unfold Array_sort in *. simpl. apply sort_insert_descending; [done| |done].
  change (foldr _ [] l) with (Array_sort by_total l). by rewrite Array_sort_perm.
Qed.

(** Insertion moves a row past rows strictly above it only, so it keeps the
    order among the rows that tie with any given total. *)
Lemma sort_insert_stable v x (l : list (UrlRow num)) :
  num_lt TASK_THRESHOLD v = true → kept_row x → Forall kept_row l →
  List.filter (tie v) (sort_insert by_total x l) = List.filter (tie v) (x :: l).
Proof.
  intros Hv Hx Hl. induction Hl as [|y l Hy Hl IH]; [done|].
  rewrite sort_insert_by_total by done.
  destruct (num_lt (total x) (total y)) eqn:Hxy; [|done].
  simpl in *. rewrite IH.
  destruct (tie v x) eqn:Htx, (tie v y) eqn:Hty; try done.
  unfold tie in *.
  apply andb_true_iff in Htx as [Hxv _], Hty as [_ Hvy].
  apply negb_true_iff in Hxv, Hvy.
  by rewrite (above_nlt_trans _ _ _ Hx Hv Hy Hxv Hvy) in Hxy.
Qed.

Lemma Array_sort_stable v (l : list (UrlRow num)) :
  num_lt TASK_THRESHOLD v = true → Forall kept_row l →
  List.filter (tie v) (Array_sort by_total l) = List.filter (tie v) l.
Proof.
  intros Hv. induction 1 as [|x l Hx Hl IH]; [done|].
  unfold Array_sort in *. simpl foldr. rewrite sort_insert_stable; [|done..|].
  - simpl. by rewrite IH.
  - change (foldr _ [] l) with (Array_sort by_total l). by rewrite Array_sort_perm.
Qed.

End Rows.

Section PhaseItems.
Context {num : Type} `{!Number num} `{!Tracehouse num}.

Lemma well_formed_clipAll rank s e V (σ : heap num) tasks :
  well_formed rank σ tasks → well_formed rank (clipAll s e V σ) tasks.
Proof.
  assert (∀ a, is_Some (σ !! a) → is_Some (clipAll s e V σ !! a)) as Hsome.
  { intros a [t Ht]. rewrite lookup_clipAll, Ht. by eexists. }
  intros [Htasks Hwf]. split.
  - eapply Forall_impl; [exact Htasks|]. intros a. apply Hsome.
  - intros a t' Ht'. rewrite lookup_clipAll in Ht'.
    destruct (σ !! a) as [t|] eqn:Ht; simplify_eq/=.
    specialize (Hwf _ _ Ht). simpl in Hwf.
    assert (children (if decide (a ∈ V) then clippedNode s e (skeleton σ) t else t)
            = children t) as -> by by case_decide.
    eapply Forall_impl; [exact Hwf|]. intros c [Hc Hr]. split; [by apply Hsome|done].
Qed.

(** A URL with a timing for at least one group has a row. *)
Lemma urlResult_returns (entry : string * list (string * num)) :
  entry.2 ≠ [] → ∃ row, urlResult entry = inr row.
Proof.
  destruct entry as [url [|[group timespanMs] timingByGroupId]]; [done|].
  intros _. by eexists.
Qed.

Lemma Result_mapM_urlResult_returns (executionTimings : list (string * list (string * num))) :
  Forall (λ entry, entry.2 ≠ []) executionTimings →
  ∃ results, Result_mapM urlResult executionTimings = inr results.
Proof.
  induction 1 as [|entry executionTimings Hentry _ [results IH]]; [by eexists|].
  destruct (urlResult_returns entry Hentry) as [row Hrow].
  exists (row :: results). simpl. by rewrite Hrow, IH.
Qed.

(** The item of a phase and the heap the phase leaves, for a forest the
    stack can hold and timings that name at least one group per URL. *)
Lemma phaseItem_returns rank depth threadTasks networkRecords phaseName phaseTimes
    (σ : heap num) :
  well_formed rank σ threadTasks → fits_stack rank depth threadTasks →
  (∀ σ' : heap num,
     Forall (λ entry, entry.2 ≠ []) (getExecutionTimingsByURL threadTasks σ' networkRecords)) →
  ∃ V results,
    visited_roots depth (skeleton σ) threadTasks = Some V ∧
    let σ' := clipAll (startTs phaseTimes) (endTs phaseTimes) V σ in
    Result_mapM urlResult (getExecutionTimingsByURL threadTasks σ' networkRecords)
      = inr results ∧
    phaseItem depth threadTasks networkRecords (phaseName, phaseTimes) σ =
    inr ({| item_phase := str_ (UIStrings phaseName) [];
            item_total :=
              num_div (num_sub (endTs phaseTimes) (startTs phaseTimes)) (num_of_Z 1000);
            item_subItems :=
              {| subitems_type := "subitems";
                 subitems_items := filteredResults results |} |}, σ').
Proof.
  intros Hwf Hfit Htimings.
  destruct (clipTasksByTs_returns rank depth threadTasks
              (startTs phaseTimes) (endTs phaseTimes) σ Hwf Hfit) as (V & HV & Hrun).
  destruct (Result_mapM_urlResult_returns _
              (Htimings (clipAll (startTs phaseTimes) (endTs phaseTimes) V σ)))
    as [results Hresults].
  exists V, results. split; [done|]. split; [done|].
  unfold phaseItem. rewrite Hrun. simpl. by rewrite Hresults.
Qed.

(** C6, as the code has it. For every forest the stack can hold, every window
    and all network records, the rows under the phase are the rows whose
    total is above [TASK_THRESHOLD]. Where the comparisons order the numbers
    above the threshold, as they do in doubles and in exact arithmetic, the
    rows are in descending order of total, and rows whose totals tie keep
    the order in which [getExecutionTimingsByURL] lists their URLs. *)
Theorem phaseItem_rows rank depth threadTasks networkRecords
    phaseName phaseTimes (σ : heap num) :
  well_formed rank σ threadTasks → fits_stack rank depth threadTasks →
  (∀ σ' : heap num,
     Forall (λ entry, entry.2 ≠ []) (getExecutionTimingsByURL threadTasks σ' networkRecords)) →
  ∃ item σ' results,
    phaseItem depth threadTasks networkRecords (phaseName, phaseTimes) σ = inr (item, σ') ∧
    Result_mapM urlResult (getExecutionTimingsByURL threadTasks σ' networkRecords)
      = inr results ∧
    let kept := List.filter (λ result, num_lt TASK_THRESHOLD (total result)) results in
    let rows := subitems_items (item_subItems item) in
    rows ≡ₚ kept ∧
    (OrderedAboveThreshold num →
     StronglySorted (λ a b, num_lt (total a) (total b) = false) rows ∧
     ∀ v, num_lt TASK_THRESHOLD v = true →
       List.filter (tie v) rows = List.filter (tie v) kept).
Proof.
  intros Hwf Hfit Htimings.
  destruct (phaseItem_returns rank depth threadTasks networkRecords phaseName phaseTimes
              σ Hwf Hfit Htimings) as (V & results & _ & Hresults & Hitem).
  eexists _, _, results. split; [exact Hitem|]. split; [exact Hresults|].
  simpl. unfold filteredResults.
  split; [apply Array_sort_perm|].
  intros Horder.
  assert (Forall (λ r : UrlRow num, num_lt TASK_THRESHOLD (total r) = true)
            (List.filter (λ result, num_lt TASK_THRESHOLD (total result)) results)) as Hkept.
  { apply Forall_forall. intros r Hr%list_elem_of_In. by apply List.filter_In in Hr as [_ Hr]. }
  split; [by apply Array_sort_descending|].
  intros v Hv. by apply Array_sort_stable.
Qed.

End PhaseItems.

Section Breakdown.
Context {num : Type} `{!Number num} `{!Tracehouse num}.

Lemma Array_map_st_phaseItem rank depth threadTasks networkRecords
    (entries : list (string * TimeWindow num)) (σ : heap num) :
  well_formed rank σ threadTasks → fits_stack rank depth threadTasks →
  (∀ σ' : heap num,
     Forall (λ entry, entry.2 ≠ []) (getExecutionTimingsByURL threadTasks σ' networkRecords)) →
  ∃ items σ',
    Array_map_st (phaseItem depth threadTasks networkRecords) entries σ = inr (items, σ') ∧
    Forall2 item_of_phase items entries.
Proof.
  intros Hwf Hfit Htimings. revert σ Hwf.
  induction entries as [|[phaseName phaseTimes] entries IH]; intros σ Hwf.
  - exists [], σ. by split.
  - destruct (phaseItem_returns rank depth threadTasks networkRecords phaseName phaseTimes
                σ Hwf Hfit Htimings) as (V & results & _ & _ & Hitem).
    destruct (IH (clipAll (startTs phaseTimes) (endTs phaseTimes) V σ)) as (items & σ' & Hrun & Hitems);
      [by apply well_formed_clipAll|].
    eexists (_ :: items), σ'. cbn [Array_map_st]. rewrite Hitem. cbn [bind].
    rewrite Hrun. split; [done|]. by constructor.
Qed.

(** C10. In the table of [eventThreadBreakdown] there is one item per phase,
    in the order of the phases, and the [total] of each is the length of the
    phase's window divided by 1000: whatever [getExecutionTimingsByURL]
    answers, hence whatever the totals of the rows under the phase are. The
    breakdown returns when the tasks that [getMainThreadTasks] builds for
    the thread of the interaction are a forest the stack can hold, and the
    timings name at least one group per URL. *)
Theorem eventThreadBreakdown_totals rank depth (interactionEvent : EventTimingEvent num)
    (trace : Trace num) (processedTrace : ProcessedTrace num)
    (networkRecords : list NetworkRequest) :
  let tasks := threadTasks_of interactionEvent trace processedTrace in
  well_formed rank tasks.2 tasks.1 → fits_stack rank depth tasks.1 →
  (∀ σ' : heap num,
     Forall (λ entry, entry.2 ≠ []) (getExecutionTimingsByURL tasks.1 σ' networkRecords)) →
  ∃ table,
    eventThreadBreakdown depth interactionEvent trace processedTrace networkRecords
      = inr (table, getPhaseTimes interactionEvent) ∧
    Forall2
      (λ (item : TableItem num) (entry : string * TimeWindow num),
         item_phase item = str_ (UIStrings entry.1) [] ∧
         item_total item =
           num_div (num_sub (endTs entry.2) (startTs entry.2)) (num_of_Z 1000))
      (tbl_items table) (Object_entries (getPhaseTimes interactionEvent)).
Proof.
  cbv zeta. intros Hwf Hfit Htimings.
  unfold eventThreadBreakdown.
  change (getMainThreadTasks _ _ _)
    with (threadTasks_of interactionEvent trace processedTrace).
  destruct (threadTasks_of interactionEvent trace processedTrace) as [tasks σ].
  cbn [fst snd] in *.
  destruct (Array_map_st_phaseItem rank depth tasks networkRecords
              (Object_entries (getPhaseTimes interactionEvent)) σ Hwf Hfit Htimings)
    as (items & σ' & Hrun & Hitems).
  rewrite Hrun. cbn [bind ret]. by eexists.
Qed.

End Breakdown.

Lemma example_timings_nonempty tasks (σ : heap Qc) networkRecords :
  Forall (λ entry, entry.2 ≠ []) (getExecutionTimingsByURL tasks σ networkRecords).
Proof.
  change (Forall (λ entry, entry.2 ≠ []) (example_timings tasks σ)).
  apply Forall_forall. intros entry (a & _ & Ha)%list_elem_of_omap.
  by destruct (σ !! a); simplify_eq/=.
Qed.

Lemma double_well_formed : well_formed example_rank double_heap example_tasks.
Proof.
  split.
  - repeat constructor; by eexists.
  - unfold double_heap.
    repeat (apply map_Forall_insert_2; [repeat constructor; by eexists|]).
    apply map_Forall_empty.
Qed.

Lemma double_timings_nonempty tasks (σ : heap float) :
  Forall (λ entry, entry.2 ≠ []) (double_timings tasks σ).
Proof.
  apply Forall_forall. intros entry (a & _ & Ha)%list_elem_of_omap.
  by destruct (σ !! a); simplify_eq/=.
Qed.

(** In doubles, in the window from 30 ms to 71 ms: the fourth URL, with a
    total of 0, is dropped; the third, with 19 ms, comes first; the first
    two tie at 11 ms and stay in the order in which they were listed, which
    is not the order of their names. *)
Lemma phaseItem_rows_example :
  ∃ item σ' results,
    @phaseItem float _ double_Tracehouse 4 example_tasks []
      ("processingDelay", {| startTs := num_of_Z 30000; endTs := num_of_Z 71000 |})
      double_heap = inr (item, σ') ∧
    Result_mapM (@urlResult float _ double_Tracehouse)
      (@getExecutionTimingsByURL float double_Tracehouse example_tasks σ' [])
      = inr results ∧
    let kept := List.filter (λ result, num_lt TASK_THRESHOLD (total result)) results in
    let rows := subitems_items (item_subItems item) in
    rows ≡ₚ kept ∧
    StronglySorted (λ a b, num_lt (total a) (total b) = false) rows ∧
    (∀ v, num_lt TASK_THRESHOLD v = true →
       List.filter (tie v) rows = List.filter (tie v) kept) ∧
    (λ r, (url r, total r)) <$> results =
      [("https://b.example/app.js", num_of_Z 11); ("https://a.example/lib.js", num_of_Z 11);
       ("https://c.example/widget.js", num_of_Z 19); ("https://d.example/", num_of_Z 0)] ∧
    (λ r, (url r, total r)) <$> rows =
      [("https://c.example/widget.js", num_of_Z 19); ("https://b.example/app.js", num_of_Z 11);
       ("https://a.example/lib.js", num_of_Z 11)].
Proof.
  destruct (@phaseItem_rows float _ double_Tracehouse example_rank 4 example_tasks []
              "processingDelay" {| startTs := num_of_Z 30000; endTs := num_of_Z 71000 |}
              double_heap double_well_formed example_fits_stack
              (λ σ', double_timings_nonempty example_tasks σ'))
    as (item & σ' & results & Hitem & Hresults & Hperm & Hsorted).
  destruct (Hsorted float_OrderedAboveThreshold) as [Hdescending Hstable].
  exists item, σ', results.
  split; [exact Hitem|]. split; [exact Hresults|]. split; [exact Hperm|].
  split; [exact Hdescending|]. split; [exact Hstable|].
  vm_compute in Hitem. injection Hitem as <- <-.
  vm_compute in Hresults. injection Hresults as <-.
  split; vm_compute; reflexivity.
Defined.

Lemma eventThreadBreakdown_totals_example :
  ∃ table,
    eventThreadBreakdown 4 example_interaction example_trace example_processedTrace []
      = inr (table, getPhaseTimes example_interaction) ∧
    Forall2
      (λ (item : TableItem Qc) (entry : string * TimeWindow Qc),
         item_phase item = str_ (UIStrings entry.1) [] ∧
         item_total item =
           num_div (num_sub (endTs entry.2) (startTs entry.2)) (num_of_Z 1000))
      (tbl_items table) (Object_entries (getPhaseTimes example_interaction)).
Proof.
  apply (eventThreadBreakdown_totals example_rank 4).
  - exact example_well_formed.
  - exact example_fits_stack.
  - intros σ'. exact (example_timings_nonempty example_tasks σ' []).
Defined.

(** C6, as the specification has it, fails: rows with equal totals come out in the
    order they came in, which is the order of the origins neither upwards
    nor downwards. *)
Lemma filteredResults_ties_not_by_origin :
  filteredResults tied_rows = tied_rows ∧
  ¬ ties_broken_by_origin String.leb (filteredResults tied_rows) ∧
  ¬ ties_broken_by_origin (λ a b, String.leb b a) (filteredResults tied_rows).
Proof.
  assert (filteredResults tied_rows = tied_rows) as -> by by vm_compute.
  split; [done|]. split.
  - intros Hle.
    specialize (Hle 0%nat 1%nat _ _ eq_refl eq_refl ltac:(lia) eq_refl).
    by vm_compute in Hle.
  - intros Hge.
    specialize (Hge 1%nat 2%nat _ _ eq_refl eq_refl ltac:(lia) eq_refl).
    by vm_compute in Hge.
Qed.

(** ** The breakdown: phase by phase *)

Lemma Result_mapM_urlResult_empty {num} `{!Number num} `{!Tracehouse num}
    (executionTimings : list (string * list (string * num))) url :
  (url, []) ∈ executionTimings →
  Result_mapM urlResult executionTimings
    = inl (TypeError "Reduce of empty array with no initial value").
Proof.
  induction executionTimings as [|[url' timingByGroupId] executionTimings IH];
    intros Hin; [by apply elem_of_nil in Hin|].
  apply elem_of_cons in Hin as [[= <- <-]|Hin]; [done|].
  cbn [Result_mapM]. destruct timingByGroupId as [|[group timespanMs] timingByGroupId]; [done|].
  cbn [urlResult Array_reduce1 bind ret fmap list_fmap]. by rewrite (IH Hin).
Qed.

Section PhaseByPhase.
Context {num : Type} `{!Number num} `{!Tracehouse num}.

(** What a phase does to a heap on which the forest is visited. *)
Lemma phaseItem_visited depth threadTasks networkRecords phaseName phaseTimes
    (σ : heap num) V :
  visited_roots depth (skeleton σ) threadTasks = Some V →
  phaseItem depth threadTasks networkRecords (phaseName, phaseTimes) σ =
  let σ' := clipAll (startTs phaseTimes) (endTs phaseTimes) V σ in
  do results <- Result_mapM urlResult (getExecutionTimingsByURL threadTasks σ' networkRecords);
  ret ({| item_phase := str_ (UIStrings phaseName) [];
          item_total :=
            num_div (num_sub (endTs phaseTimes) (startTs phaseTimes)) (num_of_Z 1000);
          item_subItems :=
            {| subitems_type := "subitems";
               subitems_items := filteredResults results |} |}, σ').
Proof.
  intros HV. unfold phaseItem.
  by rewrite (clipTasksByTs_visited depth threadTasks _ _ σ V HV).
Qed.

(** X15. A URL that [getExecutionTimingsByURL] lists with no timing at all makes
    the phase throw, with the [TypeError] of a [reduce] of an empty array:
    the sum over the groups has no initial value. *)
Theorem phaseItem_empty_timings rank depth threadTasks networkRecords
    phaseName phaseTimes (σ : heap num) :
  well_formed rank σ threadTasks → fits_stack rank depth threadTasks →
  ∃ σ',
    clipTasksByTs depth threadTasks (startTs phaseTimes) (endTs phaseTimes) σ = inr σ' ∧
    ∀ url,
      (url, []) ∈ getExecutionTimingsByURL threadTasks σ' networkRecords →
      phaseItem depth threadTasks networkRecords (phaseName, phaseTimes) σ
        = inl (TypeError "Reduce of empty array with no initial value").
Proof.
  intros Hwf Hfit.
  destruct (clipTasksByTs_returns rank depth threadTasks
              (startTs phaseTimes) (endTs phaseTimes) σ Hwf Hfit) as (V & HV & Hrun).
  eexists. split; [exact Hrun|]. intros url Hin.
  rewrite (phaseItem_visited _ _ _ _ _ _ V HV). cbv zeta.
  by rewrite (Result_mapM_urlResult_empty _ url Hin).
Qed.

(** A heap that went through phases is, for the next phase, as good as new. *)
Lemma Array_map_st_phaseItem_fresh depth threadTasks networkRecords
    (entries : list (string * TimeWindow num)) (σ0 σ σ' : heap num) V items :
  visited_roots depth (skeleton σ0) threadTasks = Some V →
  skeleton σ = skeleton σ0 →
  (∀ s e, clipAll s e V σ = clipAll s e V σ0) →
  Array_map_st (phaseItem depth threadTasks networkRecords) entries σ = inr (items, σ') →
  Forall2
    (λ item entry,
       ∃ σ'', phaseItem depth threadTasks networkRecords entry σ0 = inr (item, σ''))
    items entries.
Proof.
  intros HV. revert σ items. induction entries as [|[phaseName phaseTimes] entries IH];
    intros σ items Hsk Hclip Hrun; cbn [Array_map_st] in Hrun.
  - injection Hrun as <- <-. constructor.
  - rewrite (phaseItem_visited _ _ _ _ _ σ V) in Hrun by by rewrite Hsk.
    cbv zeta in Hrun. rewrite Hclip in Hrun.
    destruct (Result_mapM _ _) as [?|results] eqn:Hresults; cbn [bind ret] in Hrun; [done|].
    destruct (Array_map_st _ entries _) as [?|[rest σ2]] eqn:Hrest; cbn [bind ret] in Hrun;
      [done|].
    injection Hrun as <- <-. constructor.
    + eexists. rewrite (phaseItem_visited _ _ _ _ _ σ0 V HV). cbv zeta.
      by rewrite Hresults.
    + apply (IH (clipAll (startTs phaseTimes) (endTs phaseTimes) V σ0) rest);
        [apply skeleton_clipAll| |exact Hrest].
      intros s e. apply clipAll_again.
Qed.

(** X16. The phases do not leak into one another: although the loop of
    [eventThreadBreakdown] clips the same task objects phase after phase,
    the item of each phase is the item the phase gets from the tasks as
    [getMainThreadTasks] built them. *)
Theorem eventThreadBreakdown_phase_by_phase rank depth
    (interactionEvent : EventTimingEvent num) (trace : Trace num)
    (processedTrace : ProcessedTrace num) (networkRecords : list NetworkRequest) :
  let tasks := threadTasks_of interactionEvent trace processedTrace in
  well_formed rank tasks.2 tasks.1 → fits_stack rank depth tasks.1 →
  (∀ σ' : heap num,
     Forall (λ entry, entry.2 ≠ []) (getExecutionTimingsByURL tasks.1 σ' networkRecords)) →
  ∃ table,
    eventThreadBreakdown depth interactionEvent trace processedTrace networkRecords
      = inr (table, getPhaseTimes interactionEvent) ∧
    Forall2
      (λ item entry,
         ∃ σ', phaseItem depth tasks.1 networkRecords entry tasks.2 = inr (item, σ'))
      (tbl_items table) (Object_entries (getPhaseTimes interactionEvent)).
Proof.
  cbv zeta. intros Hwf Hfit Htimings.
  unfold eventThreadBreakdown.
  change (getMainThreadTasks _ _ _)
    with (threadTasks_of interactionEvent trace processedTrace).
  destruct (threadTasks_of interactionEvent trace processedTrace) as [tasks σ].
  cbn [fst snd] in *.
  destruct (Array_map_st_phaseItem rank depth tasks networkRecords
              (Object_entries (getPhaseTimes interactionEvent)) σ Hwf Hfit Htimings)
    as (items & σ' & Hrun & _).
  rewrite Hrun. cbn [bind ret]. eexists. split; [done|]. cbn [tbl_items].
  destruct (visited_roots_Some rank σ depth tasks Hwf Hfit) as [V HV].
  by apply (Array_map_st_phaseItem_fresh depth tasks networkRecords _ σ σ σ' V).
Qed.

(** Whatever [eventThreadBreakdown] returns, it returns the phases of the
    interaction, the five headings, and an item for each phase. *)
Lemma eventThreadBreakdown_inr depth (interactionEvent : EventTimingEvent num)
    (trace : Trace num) (processedTrace : ProcessedTrace num)
    (networkRecords : list NetworkRequest) table phases :
  eventThreadBreakdown depth interactionEvent trace processedTrace networkRecords
    = inr (table, phases) →
  phases = getPhaseTimes interactionEvent ∧
  tbl_headings table = headings ∧
  Forall2 item_of_phase (tbl_items table) (Object_entries phases).
Proof.
  unfold eventThreadBreakdown. destruct (getMainThreadTasks _ _ _) as [tasks σ].
  destruct (Array_map_st _ _ σ) as [?|[items σ']] eqn:Hrun; cbn [bind ret]; [done|].
  intros [= <- <-]. split; [done|]. split; [done|]. cbn [tbl_items].
  revert σ items Hrun.
  generalize (Object_entries (getPhaseTimes interactionEvent)).
  induction l as [|[phaseName phaseTimes] entries IH]; intros σ items Hrun;
    cbn [Array_map_st] in Hrun.
  - injection Hrun as <- <-. constructor.
  - unfold phaseItem at 1 in Hrun.
    destruct (clipTasksByTs _ _ _ _ _) as [?|σ1]; cbn [bind ret] in Hrun; [done|].
    destruct (Result_mapM _ _) as [?|results]; cbn [bind ret] in Hrun; [done|].
    destruct (Array_map_st _ entries _) as [?|[rest σ2]] eqn:Hrest; cbn [bind ret] in Hrun;
      [done|].
    injection Hrun as <- <-. constructor; [done|]. by eapply IH.
Qed.

End PhaseByPhase.

Section Totals.
Context `{!Tracehouse Qc}.

(** X17. In exact arithmetic, the totals of the three items of the table that
    [eventThreadBreakdown] returns add up to the duration of the
    interaction, in milliseconds. *)
Theorem eventThreadBreakdown_totals_sum depth (interactionEvent : EventTimingEvent Qc)
    (trace : Trace Qc) (processedTrace : ProcessedTrace Qc)
    (networkRecords : list NetworkRequest) table phases :
  eventThreadBreakdown depth interactionEvent trace processedTrace networkRecords
    = inr (table, phases) →
  ∃ input processing presentation,
    tbl_items table = [input; processing; presentation] ∧
    num_add (num_add (item_total input) (item_total processing)) (item_total presentation)
    = data_duration (args_data interactionEvent).
Proof.
  intros (-> & _ & Hitems)%eventThreadBreakdown_inr.
  unfold Object_entries in Hitems.
  apply Forall2_cons_inv_r in Hitems as (input & items & [_ Hinput] & Hitems & ->).
  apply Forall2_cons_inv_r in Hitems as (processing & items' & [_ Hprocessing] & Hitems & ->).
  apply Forall2_cons_inv_r in Hitems as (presentation & items'' & [_ Hpres] & Hitems & ->).
  apply Forall2_nil_inv_r in Hitems as ->.
  exists input, processing, presentation. split; [done|].
  rewrite Hinput, Hprocessing, Hpres.
  destruct interactionEvent as [pid tid ts [tS pS pE dur type]]. simpl. field. done.
Qed.

End Totals.

Lemma phaseItem_empty_timings_example :
  @phaseItem Qc _ empty_timings_Tracehouse 4 example_tasks []
    ("inputDelay", inputDelay (getPhaseTimes example_interaction)) example_heap
  = inl (TypeError "Reduce of empty array with no initial value").
Proof.
  destruct (@phaseItem_empty_timings Qc _ empty_timings_Tracehouse example_rank 4
              example_tasks [] "inputDelay" (inputDelay (getPhaseTimes example_interaction))
              example_heap example_well_formed example_fits_stack) as (σ' & _ & Hthrow).
  apply (Hthrow "https://b.example/app.js"). right. left.
Defined.

Lemma eventThreadBreakdown_phase_by_phase_example :
  let tasks := threadTasks_of example_interaction example_trace example_processedTrace in
  ∃ table,
    eventThreadBreakdown 4 example_interaction example_trace example_processedTrace []
      = inr (table, getPhaseTimes example_interaction) ∧
    Forall2
      (λ item entry, ∃ σ', phaseItem 4 tasks.1 [] entry tasks.2 = inr (item, σ'))
      (tbl_items table) (Object_entries (getPhaseTimes example_interaction)).
Proof.
  apply (eventThreadBreakdown_phase_by_phase example_rank 4).
  - exact example_well_formed.
  - exact example_fits_stack.
  - intros σ'. exact (example_timings_nonempty example_tasks σ' []).
Defined.

(** ** The audit: not applicable, or scored *)

Section AuditOutcome.
Context {num : Type} `{!Number num} `{!Tracehouse num} `{!ComputedArtifacts num}.


End AuditOutcome.

Lemma example_breakdown_returns :
  ∃ table phases,
    eventThreadBreakdown 4 example_interaction example_trace example_processedTrace []
      = inr (table, phases).
Proof. eexists _, _. vm_compute. reflexivity. Qed.



(** ** The audit: what a scored product reports *)

Section AuditReport.
Context {num : Type} `{!Number num} `{!Tracehouse num} `{!ComputedArtifacts num}.

(** X18. A product of the audit that is not the not-applicable one reports the
    interaction the responsiveness request answered with: its duration and
    type in the display value, its type and phases in the debug data, and a
    table with the five headings and one item per phase. *)
Theorem audit_reports_interaction depth (artifacts : Artifacts num)
    (context : AuditContext num) product :
  audit depth artifacts context = inr product →
  product ≠ notApplicableProduct →
  ∃ interactionEvent report,
    ComputedResponsivenes_request (traces artifacts !! DEFAULT_PASS, settings context)
      (computedCache context) = inr (Some interactionEvent) ∧
    let data := args_data interactionEvent in
    displayValue product =
      Some (str_ (UIStrings "displayValue")
              [("timeInMs", IcuNumber (data_duration data));
               ("interactionType", IcuString (data_type data))]) ∧
    details product = Some report ∧
    debugData report =
      {| debug_type := "debugdata"; interactionType := data_type data;
         debug_phases := getPhaseTimes interactionEvent |} ∧
    tbl_headings (details_table report) = headings ∧
    Forall2 item_of_phase (tbl_items (details_table report))
      (Object_entries (getPhaseTimes interactionEvent)).
Proof.
  unfold audit. intros Hrun Hproduct.
  destruct (decide (throttlingMethod (settings context) = "simulate"));
    [by injection Hrun as <-|].
  destruct (ComputedResponsivenes_request _ _) as [?|[interactionEvent|]];
    cbn [bind ret] in Hrun; [done| |by injection Hrun as <-].
  destruct (NetworkRecords_request _ _) as [?|networkRecords]; cbn [bind ret] in Hrun; [done|].
  destruct (ProcessedTrace_request _ _) as [?|processedTrace]; cbn [bind ret] in Hrun; [done|].
  destruct (traces artifacts !! DEFAULT_PASS) as [trace|]; cbn [bind throw] in Hrun; [|done].
  destruct (eventThreadBreakdown _ _ _ _ _) as [?|[table phases]] eqn:Hbreakdown;
    cbn [bind ret] in Hrun; [done|].
  injection Hrun as <-.
  apply eventThreadBreakdown_inr in Hbreakdown as (-> & Hheadings & Hitems).
  by eexists _, _.
Qed.

End AuditReport.

Lemma example_audit_scored :
  ∃ product,
    audit 4 example_artifacts (example_context "devtools") = inr product ∧
    product ≠ notApplicableProduct.
Proof. eexists. split; [vm_compute; reflexivity|discriminate]. Qed.

Lemma audit_reports_interaction_example :
  ∃ product interactionEvent report,
    audit 4 example_artifacts (example_context "devtools") = inr product ∧
    ComputedResponsivenes_request
      (traces example_artifacts !! DEFAULT_PASS, settings (example_context "devtools"))
      (computedCache (example_context "devtools")) = inr (Some interactionEvent) ∧
    let data := args_data interactionEvent in
    displayValue product =
      Some (str_ (UIStrings "displayValue")
              [("timeInMs", IcuNumber (data_duration data));
               ("interactionType", IcuString (data_type data))]) ∧
    details product = Some report ∧
    debugData report =
      {| debug_type := "debugdata"; interactionType := data_type data;
         debug_phases := getPhaseTimes interactionEvent |} ∧
    tbl_headings (details_table report) = headings ∧
    Forall2 item_of_phase (tbl_items (details_table report))
      (Object_entries (getPhaseTimes interactionEvent)).
Proof.
  destruct example_audit_scored as (product & Hrun & Hscored).
  destruct (audit_reports_interaction 4 example_artifacts (example_context "devtools")
              product Hrun Hscored) as (interactionEvent & report & Hreport).
  exists product, interactionEvent, report. exact (conj Hrun Hreport).
Defined.

Lemma eventThreadBreakdown_totals_sum_example :
  ∃ table phases input processing presentation,
    eventThreadBreakdown 4 example_interaction example_trace example_processedTrace []
      = inr (table, phases) ∧
    tbl_items table = [input; processing; presentation] ∧
    num_add (num_add (item_total input) (item_total processing)) (item_total presentation)
    = data_duration (args_data example_interaction).
Proof.
  destruct example_breakdown_returns as (table & phases & Hrun).
  destruct (eventThreadBreakdown_totals_sum 4 example_interaction example_trace
              example_processedTrace [] table phases Hrun)
    as (input & processing & presentation & Hsum).
  exists table, phases, input, processing, presentation. exact (conj Hrun Hsum).
Defined.

(** ** Artifact definitions: resolution in declaration order *)

Lemma Array_map_st_app {S A B} (f : A → S → Result (B * S)) (l1 l2 : list A) (σ : S) :
  Array_map_st f (l1 ++ l2) σ =
  do (ys1, σ) <- Array_map_st f l1 σ;
  do (ys2, σ) <- Array_map_st f l2 σ;
  ret (ys1 ++ ys2, σ).
Proof.
  revert σ. induction l1 as [|x l1 IH]; intros σ; simpl.
  - by destruct (Array_map_st f l2 σ) as [?|[??]].
  - destruct (f x σ) as [?|[y σ1]]; simpl; [done|].
    rewrite IH. destruct (Array_map_st f l1 σ1) as [?|[ys1 σ2]]; simpl; [done|].
    by destruct (Array_map_st f l2 σ2) as [?|[ys2 σ3]].
Qed.

Section Resolution.
Context `{!ConfigHelpers}.

(** What a declaration that resolves leaves. *)
Lemma resolveArtifact_inr configDir artifactJson m artifact m' :
  resolveArtifact configDir artifactJson m = inr (artifact, m') →
  m' = register m artifact ∧
  defn_id artifact = json_id artifactJson ∧
  resolveGathererToDefn (json_gatherer artifactJson) coreGathererList configDir
    = inr (defn_gatherer artifact) ∧
  resolveArtifactDependencies artifactJson (defn_gatherer artifact) m
    = inr (defn_dependencies artifact).
Proof.
  unfold resolveArtifact. intros Hrun.
  destruct (resolveGathererToDefn _ _ _) as [?|gatherer]; simpl in Hrun; [done|].
  destruct (isFRGathererDefn gatherer); simpl in Hrun; [|done].
  destruct (resolveArtifactDependencies _ _ _) as [?|dependencies] eqn:Hdeps;
    simpl in Hrun; [done|].
  unfold register, symbol_of, the_meta in *.
  destruct (instance_meta gatherer) as [meta|] eqn:Hmeta; simpl in Hrun; [|done].
  destruct (meta_symbol meta) as [symbol|] eqn:Hsymbol;
    injection Hrun as <- <-; simpl; by rewrite Hmeta; simpl; rewrite ?Hsymbol.
Qed.

Lemma Array_map_st_resolveArtifact configDir artifacts m artifactDefns m' :
  Array_map_st (resolveArtifact configDir) artifacts m = inr (artifactDefns, m') →
  m' = foldl register m artifactDefns ∧
  defn_id <$> artifactDefns = json_id <$> artifacts.
Proof.
  revert m artifactDefns. induction artifacts as [|artifactJson artifacts IH];
    intros m artifactDefns Hrun; simpl in Hrun.
  - by injection Hrun as <- <-.
  - destruct (resolveArtifact configDir artifactJson m) as [?|[artifact m1]] eqn:Hone;
      simpl in Hrun; [done|].
    destruct (Array_map_st _ artifacts m1) as [?|[rest m2]] eqn:Hrest; simpl in Hrun; [done|].
    injection Hrun as <- <-.
    apply resolveArtifact_inr in Hone as (-> & Hid & _).
    destruct (IH _ _ Hrest) as [-> Hids]. split; [done|]. by rewrite !fmap_cons, Hid, Hids.
Qed.

(** The lookup after a run: each symbol stands for the last artifact that
    registered it. *)
Lemma lookup_foldl_register m artifactDefns symbol :
  foldl register m artifactDefns !! symbol =
  match last_registered symbol artifactDefns with
  | Some artifact => Some artifact
  | None => m !! symbol
  end.
Proof.
  revert m. induction artifactDefns as [|artifact artifactDefns IH] using rev_ind;
    intros m; [done|].
  rewrite foldl_app. simpl. unfold last_registered in *.
  rewrite List.filter_app. simpl. unfold register at 1.
  case_bool_decide as Hsym.
  - rewrite Hsym, lookup_insert_eq, last_snoc. done.
  - rewrite app_nil_r.
    destruct (symbol_of artifact) as [symbol'|]; [|apply IH].
    rewrite lookup_insert_ne by congruence. apply IH.
Qed.

Lemma last_registered_None symbol artifactDefns :
  last_registered symbol artifactDefns = None ↔
  Forall (λ artifact, symbol_of artifact ≠ Some symbol) artifactDefns.
Proof.
  unfold last_registered. rewrite last_None.
  induction artifactDefns as [|artifact artifactDefns IH]; simpl; [done|].
  rewrite Forall_cons. case_bool_decide; [|by rewrite IH; tauto].
  split; [done|]. by intros [??].
Qed.

End Resolution.

Lemma Result_mapM_throws {A B} (f : A → Result B) (before : list A) (x : A) (after : list A) e :
  Forall (λ y, ∃ b, f y = inr b) before → f x = inl e →
  Result_mapM f (before ++ x :: after) = inl e.
Proof.
  intros Hbefore Hx. induction Hbefore as [|y before [b Hy] _ IH]; simpl.
  - by rewrite Hx.
  - by rewrite Hy, IH.
Qed.

(** A loop with an element that throws ends with the throw of the first
    element that throws: the elements before that one return. *)
Lemma Result_mapM_first_throw {A B} (f : A → Result B) (before : list A) (x : A)
    (after : list A) e :
  f x = inl e →
  ∃ returned y rest e',
    before ++ [x] = returned ++ y :: rest ∧
    Forall (λ z, ∃ b, f z = inr b) returned ∧
    f y = inl e' ∧
    Result_mapM f (before ++ x :: after) = inl e'.
Proof.
  intros Hx.
  induction before as [|b before (returned & y & rest & e' & Heq & Hret & Hy & Hrun)]; simpl.
  - exists [], x, [], e. rewrite Hx. by repeat split.
  - destruct (f b) as [eb|vb] eqn:Hb.
    + exists [], b, (before ++ [x]), eb. by repeat split.
    + exists (b :: returned), y, rest, e'. rewrite Heq, Hrun.
      repeat split; [|done]. constructor; [by eexists|done].
Qed.

Lemma Result_mapM_inr {A B} (f : A → Result B) (l : list A) (bs : list B) :
  Result_mapM f l = inr bs ↔ Forall2 (λ x b, f x = inr b) l bs.
Proof.
  revert bs. induction l as [|x l IH]; intros bs; simpl.
  - split; [by intros [= <-]|by intros ->%Forall2_nil_inv_l].
  - split.
    + destruct (f x) as [?|b] eqn:Hx; simpl; [done|].
      destruct (Result_mapM f l) as [?|bs'] eqn:Hl; simpl; [done|].
      intros [= <-]. constructor; [done|]. by apply IH.
    + intros (b & bs' & Hx & Hl & ->)%Forall2_cons_inv_l.
      apply IH in Hl. by rewrite Hx, Hl.
Qed.

Section DependencyOrder.
Context `{!ConfigHelpers}.

(** C4, as the code has it. A declaration is reached when the declarations
    before it resolve, and the entries of its gatherer's [dependencies] are
    looked up in order, up to the first that fails. If the gatherer depends
    on a symbol that none of the earlier declarations registered (it is
    registered by a later one, or by none), the resolution throws. The error
    is that of [throwInvalidDependencyOrder] for this artifact id and this
    dependency name when the entries before this one resolve; in any case
    it is the error of the first entry, this one or one before it, that
    does not resolve: that of [throwInvalidDependencyOrder] for this
    artifact id and the name of that entry when no earlier declaration
    registered its symbol, and that of [throwInvalidArtifactDependency]
    when the last earlier declaration that did is of an incompatible
    phase. *)
Theorem resolveArtifactsToDefns_dependency_order configDir
    (earlier : list (ArtifactJson GathererJson)) (artifactJson : ArtifactJson GathererJson)
    (later : list (ArtifactJson GathererJson))
    artifactDefns gatherer meta
    (before : list (string * JsSymbol)) dependencyName artifactSymbol
    (after : list (string * JsSymbol)) :
  resolveArtifactsToDefns (Some earlier) configDir = inr (Some artifactDefns) →
  resolveGathererToDefn (json_gatherer artifactJson) coreGathererList configDir
    = inr gatherer →
  isFRGathererDefn gatherer = true →
  instance_meta gatherer = Some meta →
  meta_dependencies meta = Some (before ++ (dependencyName, artifactSymbol) :: after) →
  Forall (λ artifact, symbol_of artifact ≠ Some artifactSymbol) artifactDefns →
  let resolution := resolveArtifactsToDefns (Some (earlier ++ artifactJson :: later)) configDir in
  (Forall (resolves_among gatherer artifactDefns) before →
   resolution = inl (InvalidDependencyOrder (json_id artifactJson) dependencyName)) ∧
  (∃ resolved name symbol rest,
     before ++ [(dependencyName, artifactSymbol)] = resolved ++ (name, symbol) :: rest ∧
     Forall (resolves_among gatherer artifactDefns) resolved ∧
     match last_registered symbol artifactDefns with
     | None => resolution = inl (InvalidDependencyOrder (json_id artifactJson) name)
     | Some dependency =>
         isValidArtifactDependency gatherer (defn_gatherer dependency) = false ∧
         resolution = inl (InvalidArtifactDependency (json_id artifactJson) name)
     end).
Proof.
  intros Hearlier Hgatherer HFR Hmeta Hdeps Hfresh. cbv zeta.
  unfold resolveArtifactsToDefns in *.
  destruct (Array_map_st _ earlier ∅) as [?|[defns m]] eqn:Hrun; simpl in Hearlier; [done|].
  injection Hearlier as ->.
  apply Array_map_st_resolveArtifact in Hrun as Hm. destruct Hm as [-> _].
  rewrite Array_map_st_app, Hrun.
  cbn [bind Array_map_st]. unfold resolveArtifact at 1 3 5.
  rewrite Hgatherer. cbn [bind]. rewrite HFR. cbn [negb].
  unfold resolveArtifactDependencies, the_meta. rewrite Hmeta. cbn [bind ret].
  rewrite Hdeps.
  set (resolve := λ '(dependencyName, artifactSymbol), _).
  assert (resolve (dependencyName, artifactSymbol)
          = inl (InvalidDependencyOrder (json_id artifactJson) dependencyName)) as Hthrow.
  { simpl. rewrite lookup_foldl_register.
    by apply last_registered_None in Hfresh as ->. }
  split.
  - intros Hbefore. erewrite Result_mapM_throws; [done| |exact Hthrow].
    eapply Forall_impl; [exact Hbefore|].
    intros [name symbol] (dependency & Hlast & Hvalid). simpl in *.
    rewrite lookup_foldl_register, Hlast, Hvalid. by eexists.
  - destruct (Result_mapM_first_throw resolve before _ after _ Hthrow)
      as (resolved & [name symbol] & rest & e & Heq & Hresolved & He & ->).
    exists resolved, name, symbol, rest. split; [done|]. split.
    + eapply Forall_impl; [exact Hresolved|].
      intros [name' symbol'] [b Hb]. simpl in Hb.
      rewrite lookup_foldl_register, lookup_empty in Hb.
      destruct (last_registered symbol' artifactDefns) as [dependency|] eqn:Hlast; [|done].
      exists dependency. split; [done|].
      by destruct (isValidArtifactDependency _ _).
    + simpl in He. rewrite lookup_foldl_register, lookup_empty in He.
      destruct (last_registered symbol artifactDefns) as [dependency|].
      * destruct (isValidArtifactDependency _ _); [done|].
        split; [done|]. by injection He as <-.
      * by injection He as <-.
Qed.

End DependencyOrder.

Lemma Array_map_st_inr_app {S A B} (f : A → S → Result (B * S)) (l : list A) (σ σ' : S)
    (ys1 : list B) (y : B) (ys2 : list B) :
  Array_map_st f l σ = inr (ys1 ++ y :: ys2, σ') →
  ∃ l1 x l2 σ1 σ2,
    l = l1 ++ x :: l2 ∧
    Array_map_st f l1 σ = inr (ys1, σ1) ∧
    f x σ1 = inr (y, σ2) ∧
    Array_map_st f l2 σ2 = inr (ys2, σ').
Proof.
  revert l σ. induction ys1 as [|y1 ys1 IH]; intros [|x l] σ Hrun; simpl in Hrun;
    try (by injection Hrun as Hnil%eq_sym%app_cons_not_nil);
    try done;
    destruct (f x σ) as [?|[b σ1]] eqn:Hx; simpl in Hrun; try done;
    destruct (Array_map_st f l σ1) as [?|[bs σ2]] eqn:Hl; simpl in Hrun; try done;
    injection Hrun as -> -> ->.
  - by exists [], x, l, σ, σ1.
  - destruct (IH _ _ Hl) as (l1 & x' & l2 & σ3 & σ4 & -> & Hl1 & Hx' & Hl2).
    exists (x :: l1), x', l2, σ3, σ4. cbn [Array_map_st]. rewrite Hx. cbn [bind].
    by rewrite Hl1.
Qed.

Section Redeclaration.
Context `{!ConfigHelpers}.

(** C5, as the code has it. Nothing in the resolution compares a
    declaration's symbol or id with those of the declarations before it: a
    declaration resolves whenever its gatherer and its dependencies do, and
    the lookup then holds it for its symbol, in place of whatever it held.
    So in a resolution that returns, the ids are those of the declarations,
    in order, and every dependency is resolved to the id of the last
    earlier declaration that registered its symbol. *)
Theorem resolveArtifactsToDefns_redeclared :
  (∀ configDir (artifactJson : ArtifactJson GathererJson) artifactDefnsBySymbol
     gatherer dependencies,
     resolveGathererToDefn (json_gatherer artifactJson) coreGathererList configDir
       = inr gatherer →
     isFRGathererDefn gatherer = true →
     is_Some (instance_meta gatherer) →
     resolveArtifactDependencies artifactJson gatherer artifactDefnsBySymbol
       = inr dependencies →
     let artifact :=
       {| defn_id := json_id artifactJson; defn_gatherer := gatherer;
          defn_dependencies := dependencies |} in
     resolveArtifact configDir artifactJson artifactDefnsBySymbol
       = inr (artifact, register artifactDefnsBySymbol artifact)) ∧
  (∀ configDir (artifacts : list (ArtifactJson GathererJson)) artifactDefns,
     resolveArtifactsToDefns (Some artifacts) configDir = inr (Some artifactDefns) →
     defn_id <$> artifactDefns = json_id <$> artifacts ∧
     ∀ before artifact after meta,
       artifactDefns = before ++ artifact :: after →
       instance_meta (defn_gatherer artifact) = Some meta →
       match meta_dependencies meta with
       | None => defn_dependencies artifact = None
       | Some entries =>
           ∃ resolved,
             defn_dependencies artifact = Some resolved ∧
             Forall2 (resolved_to_latest before) entries resolved
       end).
Proof.
  split.
  - intros configDir artifactJson m gatherer dependencies Hgatherer HFR [meta Hmeta] Hdeps.
    simpl. unfold resolveArtifact. rewrite Hgatherer. cbn [bind]. rewrite HFR. cbn [negb].
    rewrite Hdeps. cbn [bind]. unfold register, symbol_of, the_meta. simpl.
    rewrite Hmeta. simpl. by destruct (meta_symbol meta).
  - intros configDir artifacts artifactDefns Hrun. unfold resolveArtifactsToDefns in Hrun.
    destruct (Array_map_st _ artifacts ∅) as [?|[defns m]] eqn:Hall; simpl in Hrun; [done|].
    injection Hrun as ->.
    split; [by apply Array_map_st_resolveArtifact in Hall as [_ ?]|].
    intros before artifact after meta -> Hmeta.
    apply Array_map_st_inr_app in Hall
      as (js1 & js & js2 & m1 & m2 & _ & Hbefore & Hone & _).
    apply Array_map_st_resolveArtifact in Hbefore as [-> _].
    apply resolveArtifact_inr in Hone as (_ & _ & _ & Hdeps).
    unfold resolveArtifactDependencies, the_meta in Hdeps.
    rewrite Hmeta in Hdeps. cbn [bind ret] in Hdeps.
    destruct (meta_dependencies meta) as [entries|]; [|by injection Hdeps].
    destruct (Result_mapM _ entries) as [?|resolved] eqn:Hentries; simpl in Hdeps; [done|].
    injection Hdeps as <-. exists resolved. split; [done|].
    apply Result_mapM_inr in Hentries.
    eapply Forall2_impl; [exact Hentries|].
    intros [name symbol] r Hr. simpl in Hr.
    rewrite lookup_foldl_register, lookup_empty in Hr.
    destruct (last_registered symbol before) as [dependency|] eqn:Hlast; [|done].
    destruct (isValidArtifactDependency _ _); [|done].
    injection Hr as <-. by exists dependency.
Qed.

End Redeclaration.

Lemma resolveArtifactsToDefns_dependency_order_example :
  resolveArtifactsToDefns (Some late_artifacts) None = inl (InvalidDependencyOrder "B" "y").
Proof.
  refine (proj1 (resolveArtifactsToDefns_dependency_order None
                   [example_artifact "A" (Some 1%nat) None]
                   (example_artifact "B" None (Some [("x", 1%nat); ("y", 2%nat)]))
                   [example_artifact "C" (Some 2%nat) None]
                   _ _ _ [("x", 1%nat)] "y" 2%nat []
                   eq_refl eq_refl eq_refl eq_refl eq_refl _) _).
  - by repeat constructor.
  - repeat constructor. by eexists.
Defined.

(** C4, as the specification has it, fails where an entry before the one in
    question fails first. [B] depends on symbol 2, which only the later [C]
    registers, under the name [y]; the error names [x]: the phase error
    when [x] is for a symbol that [A] registers for another phase, and the
    order error when [x] is for a symbol that nothing registers. *)
Lemma resolveArtifactsToDefns_earlier_entry_first :
  let resolution (x : JsSymbol) :=
    @resolveArtifactsToDefns phased_ConfigHelpers
      (Some [phased_artifact "A" ["snapshot"] (Some 1%nat) None;
             phased_artifact "B" ["timespan"] None (Some [("x", x); ("y", 2%nat)]);
             phased_artifact "C" ["timespan"] (Some 2%nat) None])
      None in
  resolution 1%nat = inl (InvalidArtifactDependency "B" "x") ∧
  resolution 3%nat = inl (InvalidDependencyOrder "B" "x") ∧
  resolution 1%nat ≠ inl (InvalidDependencyOrder "B" "y") ∧
  resolution 3%nat ≠ inl (InvalidDependencyOrder "B" "y").
Proof.
  cbv beta zeta.
  assert (@resolveArtifactsToDefns phased_ConfigHelpers
            (Some [phased_artifact "A" ["snapshot"] (Some 1%nat) None;
                   phased_artifact "B" ["timespan"] None
                     (Some [("x", 1%nat); ("y", 2%nat)]);
                   phased_artifact "C" ["timespan"] (Some 2%nat) None])
            None = inl (InvalidArtifactDependency "B" "x")) as -> by by vm_compute.
  assert (@resolveArtifactsToDefns phased_ConfigHelpers
            (Some [phased_artifact "A" ["snapshot"] (Some 1%nat) None;
                   phased_artifact "B" ["timespan"] None
                     (Some [("x", 3%nat); ("y", 2%nat)]);
                   phased_artifact "C" ["timespan"] (Some 2%nat) None])
            None = inl (InvalidDependencyOrder "B" "x")) as -> by by vm_compute.
  by repeat split.
Qed.

(** The resolution of the declarations that repeat a symbol and an id
    resolves the dependency on the symbol to the second declaration. *)
Lemma resolveArtifactsToDefns_redeclared_example :
  defn_id <$> duplicate_defns = json_id <$> duplicate_artifacts ∧
  ∃ resolved,
    Some [("devtoolsLog", "DevtoolsLogCompat")] = Some resolved ∧
    Forall2
      (resolved_to_latest
         [duplicate_defn "DevtoolsLog" (Some 1%nat) None None;
          duplicate_defn "DevtoolsLogCompat" (Some 1%nat) None None])
      [("devtoolsLog", 1%nat)] resolved.
Proof.
  destruct (proj2 (@resolveArtifactsToDefns_redeclared example_ConfigHelpers) None
              duplicate_artifacts duplicate_defns eq_refl) as [Hids Hdeps].
  split; [exact Hids|].
  exact (Hdeps [duplicate_defn "DevtoolsLog" (Some 1%nat) None None;
                duplicate_defn "DevtoolsLogCompat" (Some 1%nat) None None]
               (duplicate_defn "DevtoolsLog" None (Some [("devtoolsLog", 1%nat)])
                  (Some [("devtoolsLog", "DevtoolsLogCompat")]))
               [] _ eq_refl eq_refl).
Defined.

(** C5, as the specification has it, fails: the resolution of declarations
    that repeat a symbol and an id returns. *)
Lemma resolveArtifactsToDefns_duplicates :
  resolveArtifactsToDefns (Some duplicate_artifacts) None = inr (Some duplicate_defns) ∧
  ¬ ∃ e, resolveArtifactsToDefns (Some duplicate_artifacts) None = inl e.
Proof. split; [done|]. by intros [e ?]. Qed.

(** ** Artifact definitions: a declaration that is reached *)

Section Reached.
Context `{!ConfigHelpers}.

(** The resolution of a list, once the declarations before one of them have
    resolved: that declaration is resolved against the lookup the earlier
    definitions leave, and the later ones after it. *)
Lemma resolveArtifactsToDefns_reached configDir
    (earlier : list (ArtifactJson GathererJson)) (artifactJson : ArtifactJson GathererJson)
    (later : list (ArtifactJson GathererJson)) artifactDefns :
  resolveArtifactsToDefns (Some earlier) configDir = inr (Some artifactDefns) →
  resolveArtifactsToDefns (Some (earlier ++ artifactJson :: later)) configDir =
  do (artifact, artifactDefnsBySymbol) <-
    resolveArtifact configDir artifactJson (foldl register ∅ artifactDefns);
  do (rest, _) <- Array_map_st (resolveArtifact configDir) later artifactDefnsBySymbol;
  ret (Some (artifactDefns ++ artifact :: rest)).
Proof.
  unfold resolveArtifactsToDefns. intros Hearlier.
  destruct (Array_map_st _ earlier ∅) as [?|[defns m]] eqn:Hrun; simpl in Hearlier; [done|].
  injection Hearlier as ->.
  apply Array_map_st_resolveArtifact in Hrun as Hm. destruct Hm as [-> _].
  rewrite Array_map_st_app, Hrun. cbn [bind Array_map_st].
  destruct (resolveArtifact _ _ _) as [?|[artifact m1]]; cbn [bind ret]; [done|].
  by destruct (Array_map_st _ later m1) as [?|[rest m2]].
Qed.

(** The entries of [dependencies] that resolve among the definitions so far. *)
Lemma Result_mapM_resolves (artifact : ArtifactJson GathererJson) gatherer artifactDefns
    (entries : list (string * JsSymbol)) :
  Forall (resolves_among gatherer artifactDefns) entries →
  ∃ resolved,
    Result_mapM
      (λ '(dependencyName, artifactSymbol),
         match foldl register ∅ artifactDefns !! artifactSymbol with
         | None => throwInvalidDependencyOrder (json_id artifact) dependencyName
         | Some dependency =>
             if isValidArtifactDependency gatherer (defn_gatherer dependency)
             then ret (dependencyName, defn_id dependency)
             else throwInvalidArtifactDependency (json_id artifact) dependencyName
         end)
      entries = inr resolved ∧
    Forall2 (resolved_to_latest artifactDefns) entries resolved.
Proof.
  induction 1 as [|[name symbol] entries (dependency & Hlast & Hvalid) _ (resolved & Hrun & Hall)].
  - by exists [].
  - exists ((name, defn_id dependency) :: resolved). simpl in *.
    rewrite lookup_foldl_register, Hlast, Hvalid. cbn [bind ret]. rewrite Hrun.
    split; [done|]. constructor; [by exists dependency|done].
Qed.

(** X19. The sibling of the order check: a dependency on a symbol that an earlier
    declaration did register, but with a gatherer that
    [isValidArtifactDependency] rejects for the dependent, throws the error
    of [throwInvalidArtifactDependency] for this artifact id and this
    dependency name. *)
Theorem resolveArtifactsToDefns_invalid_dependency configDir
    (earlier : list (ArtifactJson GathererJson)) (artifactJson : ArtifactJson GathererJson)
    (later : list (ArtifactJson GathererJson))
    artifactDefns gatherer meta
    (before : list (string * JsSymbol)) dependencyName artifactSymbol
    (after : list (string * JsSymbol)) dependency :
  resolveArtifactsToDefns (Some earlier) configDir = inr (Some artifactDefns) →
  resolveGathererToDefn (json_gatherer artifactJson) coreGathererList configDir
    = inr gatherer →
  isFRGathererDefn gatherer = true →
  instance_meta gatherer = Some meta →
  meta_dependencies meta = Some (before ++ (dependencyName, artifactSymbol) :: after) →
  Forall (resolves_among gatherer artifactDefns) before →
  last_registered artifactSymbol artifactDefns = Some dependency →
  isValidArtifactDependency gatherer (defn_gatherer dependency) = false →
  resolveArtifactsToDefns (Some (earlier ++ artifactJson :: later)) configDir
    = inl (InvalidArtifactDependency (json_id artifactJson) dependencyName).
Proof.
  intros Hearlier Hgatherer HFR Hmeta Hdeps Hbefore Hlast Hvalid.
  rewrite (resolveArtifactsToDefns_reached _ _ _ _ _ Hearlier).
  unfold resolveArtifact. rewrite Hgatherer. cbn [bind]. rewrite HFR. cbn [negb].
  unfold resolveArtifactDependencies, the_meta. rewrite Hmeta. cbn [bind ret].
  rewrite Hdeps.
  erewrite Result_mapM_throws; [done| |].
  - eapply Forall_impl; [exact Hbefore|].
    intros [name symbol] (dep & Hdep & Hok). simpl in *.
    rewrite lookup_foldl_register, Hdep, Hok. by eexists.
  - simpl. by rewrite lookup_foldl_register, Hlast, Hvalid.
Qed.

(** X20. A declaration resolves when its gatherer does, to a Fraggle Rock
    gatherer, and every entry of the gatherer's [dependencies] resolves among
    the definitions so far: the list with the declaration at its end resolves
    to the definitions so far, unchanged, and the definition of the
    declaration, whose dependencies are the ids of the latest definitions
    that registered their symbols. *)
Theorem resolveArtifactsToDefns_snoc configDir
    (earlier : list (ArtifactJson GathererJson)) (artifactJson : ArtifactJson GathererJson)
    artifactDefns gatherer meta :
  resolveArtifactsToDefns (Some earlier) configDir = inr (Some artifactDefns) →
  resolveGathererToDefn (json_gatherer artifactJson) coreGathererList configDir
    = inr gatherer →
  isFRGathererDefn gatherer = true →
  instance_meta gatherer = Some meta →
  Forall (resolves_among gatherer artifactDefns) (default [] (meta_dependencies meta)) →
  ∃ dependencies,
    resolveArtifactsToDefns (Some (earlier ++ [artifactJson])) configDir =
    inr (Some (artifactDefns ++
                 [{| defn_id := json_id artifactJson; defn_gatherer := gatherer;
                     defn_dependencies := dependencies |}])) ∧
    match meta_dependencies meta with
    | None => dependencies = None
    | Some entries =>
        ∃ resolved,
          dependencies = Some resolved ∧
          Forall2 (resolved_to_latest artifactDefns) entries resolved
    end.
Proof.
  intros Hearlier Hgatherer HFR Hmeta Hentries.
  rewrite (resolveArtifactsToDefns_reached _ _ _ _ _ Hearlier).
  unfold resolveArtifact. rewrite Hgatherer. cbn [bind]. rewrite HFR. cbn [negb].
  unfold resolveArtifactDependencies, the_meta. rewrite Hmeta. cbn [bind ret].
  destruct (meta_dependencies meta) as [entries|]; cbn [default] in Hentries.
  - destruct (Result_mapM_resolves artifactJson gatherer artifactDefns entries Hentries)
      as (resolved & -> & Hall).
    cbn [bind ret defn_gatherer]. rewrite Hmeta. cbn [bind ret].
    exists (Some resolved). split; [by destruct (meta_symbol meta)|by exists resolved].
  - cbn [bind ret defn_gatherer]. rewrite Hmeta. cbn [bind ret].
    exists None. split; [by destruct (meta_symbol meta)|done].
Qed.

(** X21. A declaration never changes what the declarations before it resolve to:
    where a list resolves, each list it starts with resolves to the
    definitions the result starts with. *)
Theorem resolveArtifactsToDefns_prefix configDir
    (artifacts more : list (ArtifactJson GathererJson)) artifactDefns :
  resolveArtifactsToDefns (Some (artifacts ++ more)) configDir = inr (Some artifactDefns) →
  resolveArtifactsToDefns (Some artifacts) configDir
    = inr (Some (take (length artifacts) artifactDefns)).
Proof.
  unfold resolveArtifactsToDefns. rewrite Array_map_st_app.
  destruct (Array_map_st _ artifacts ∅) as [?|[defns m]] eqn:Hrun; cbn [bind ret]; [done|].
  destruct (Array_map_st _ more m) as [?|[rest m']]; cbn [bind ret]; [done|].
  intros [= <-]. do 2 f_equal.
  apply Array_map_st_resolveArtifact in Hrun as [_ Hids].
  apply (f_equal length) in Hids. rewrite !length_fmap in Hids.
  by rewrite <-Hids, take_app_length.
Qed.

(** X22. The gatherer of a declaration that is reached is checked before its
    dependencies are: an error of [resolveGathererToDefn] is the error of the
    resolution, and a gatherer that is not a Fraggle Rock one ends it with an
    [Error] that names the gatherer, whatever the dependencies and the
    declarations that follow. *)
Theorem resolveArtifactsToDefns_gatherer configDir
    (earlier : list (ArtifactJson GathererJson)) (artifactJson : ArtifactJson GathererJson)
    (later : list (ArtifactJson GathererJson)) artifactDefns :
  resolveArtifactsToDefns (Some earlier) configDir = inr (Some artifactDefns) →
  let resolution :=
    resolveArtifactsToDefns (Some (earlier ++ artifactJson :: later)) configDir in
  match resolveGathererToDefn (json_gatherer artifactJson) coreGathererList configDir with
  | inl e => resolution = inl e
  | inr gatherer =>
      isFRGathererDefn gatherer = false →
      resolution =
        inl (Error (instance_name gatherer +:+ " gatherer does not have a Fraggle Rock meta obj"))
  end.
Proof.
  intros Hearlier. cbv zeta.
  rewrite (resolveArtifactsToDefns_reached _ _ _ _ _ Hearlier).
  unfold resolveArtifact.
  destruct (resolveGathererToDefn _ _ _) as [e|gatherer]; cbn [bind]; [done|].
  by intros ->.
Qed.

(** X23. In a resolution that returns, every definition has a Fraggle Rock
    gatherer, and its dependencies are keyed as the gatherer's are and name
    definitions that come before it in the result, each with a gatherer that
    passed [isValidArtifactDependency]. *)
Theorem resolveArtifactsToDefns_sound configDir
    (artifacts : list (ArtifactJson GathererJson)) artifactDefns :
  resolveArtifactsToDefns (Some artifacts) configDir = inr (Some artifactDefns) →
  ∀ before artifact after,
    artifactDefns = before ++ artifact :: after →
    isFRGathererDefn (defn_gatherer artifact) = true ∧
    ∃ meta,
      instance_meta (defn_gatherer artifact) = Some meta ∧
      match meta_dependencies meta, defn_dependencies artifact with
      | None, None => True
      | Some entries, Some resolved =>
          resolved.*1 = entries.*1 ∧
          Forall
            (λ r, ∃ dependency,
               dependency ∈ before ∧ defn_id dependency = r.2 ∧
               isValidArtifactDependency (defn_gatherer artifact) (defn_gatherer dependency)
                 = true)
            resolved
      | _, _ => False
      end.
Proof.
  intros Hrun before artifact after ->. unfold resolveArtifactsToDefns in Hrun.
  destruct (Array_map_st _ artifacts ∅) as [?|[defns m]] eqn:Hall; simpl in Hrun; [done|].
  injection Hrun as ->.
  apply Array_map_st_inr_app in Hall
    as (js1 & js & js2 & m1 & m2 & _ & Hbefore & Hone & _).
  apply Array_map_st_resolveArtifact in Hbefore as [-> _].
  unfold resolveArtifact in Hone.
  destruct (resolveGathererToDefn _ _ _) as [?|gatherer]; cbn [bind] in Hone; [done|].
  destruct (isFRGathererDefn gatherer) eqn:HFR; cbn [negb] in Hone; [|done].
  destruct (resolveArtifactDependencies _ _ _) as [?|dependencies] eqn:Hdeps;
    cbn [bind] in Hone; [done|].
  cbn [defn_gatherer] in Hone.
  unfold resolveArtifactDependencies in Hdeps. unfold the_meta in Hone, Hdeps.
  destruct (instance_meta gatherer) as [meta|] eqn:Hmeta; cbn [bind ret throw] in Hone; [|done].
  assert (artifact = {| defn_id := json_id js; defn_gatherer := gatherer;
                        defn_dependencies := dependencies |}) as ->
    by by destruct (meta_symbol meta); injection Hone as <- <-.
  cbn [defn_gatherer defn_dependencies]. split; [done|]. exists meta. split; [done|].
  cbn [bind ret] in Hdeps.
  destruct (meta_dependencies meta) as [entries|]; [|by injection Hdeps as <-].
  destruct (Result_mapM _ entries) as [?|resolved] eqn:Hentries; cbn [bind ret] in Hdeps; [done|].
  injection Hdeps as <-.
  apply Result_mapM_inr in Hentries.
  clear Hone.
  induction Hentries as [|[name symbol] r entries resolved Hr _ [IHkeys IHall]]; [done|].
  simpl in Hr. rewrite lookup_foldl_register, lookup_empty in Hr.
  destruct (last_registered symbol before) as [dependency|] eqn:Hlast; [|done].
  destruct (isValidArtifactDependency _ _) eqn:Hvalid; [|done].
  injection Hr as <-. split; [by rewrite !fmap_cons, IHkeys|].
  constructor; [|done]. exists dependency. split; [|done].
  unfold last_registered in Hlast. apply last_Some in Hlast as [l Hl].
  assert (dependency ∈ List.filter
            (λ artifact, bool_decide (symbol_of artifact = Some symbol)) before) as Hin
    by (rewrite Hl; apply elem_of_app; right; by apply list_elem_of_singleton).
  apply list_elem_of_In, filter_In in Hin as [Hin _]. by apply list_elem_of_In.
Qed.

End Reached.

(** A gatherer for timespans that depends on one for snapshots only. *)
Lemma resolveArtifactsToDefns_invalid_dependency_example :
  @resolveArtifactsToDefns phased_ConfigHelpers
    (Some [phased_artifact "Snapshot" ["snapshot"] (Some 1%nat) None;
           phased_artifact "Timespan" ["timespan"] None (Some [("snapshot", 1%nat)])])
    None
  = inl (InvalidArtifactDependency "Timespan" "snapshot").
Proof.
  refine (@resolveArtifactsToDefns_invalid_dependency phased_ConfigHelpers None
            [phased_artifact "Snapshot" ["snapshot"] (Some 1%nat) None]
            (phased_artifact "Timespan" ["timespan"] None (Some [("snapshot", 1%nat)]))
            [] _ _ _ [] "snapshot" 1%nat [] _
            eq_refl eq_refl eq_refl eq_refl eq_refl _ eq_refl _).
  - constructor.
  - by vm_compute.
Defined.

Lemma resolveArtifactsToDefns_snoc_example :
  ∃ dependencies,
    resolveArtifactsToDefns
      (Some ([example_artifact "A" (Some 1%nat) None]
             ++ [example_artifact "B" None (Some [("x", 1%nat)])])) None =
    inr (Some ([duplicate_defn "A" (Some 1%nat) None None] ++
                 [{| defn_id := "B";
                     defn_gatherer := example_gatherer "B" None (Some [("x", 1%nat)]);
                     defn_dependencies := dependencies |}])) ∧
    ∃ resolved,
      dependencies = Some resolved ∧
      Forall2 (resolved_to_latest [duplicate_defn "A" (Some 1%nat) None None])
        [("x", 1%nat)] resolved.
Proof.
  refine (@resolveArtifactsToDefns_snoc example_ConfigHelpers None
            [example_artifact "A" (Some 1%nat) None]
            (example_artifact "B" None (Some [("x", 1%nat)]))
            [duplicate_defn "A" (Some 1%nat) None None] _ _
            eq_refl eq_refl eq_refl eq_refl _).
  repeat constructor. by eexists.
Defined.

Lemma resolveArtifactsToDefns_prefix_example :
  resolveArtifactsToDefns (Some (take 2 duplicate_artifacts)) None
  = inr (Some (take 2 duplicate_defns)).
Proof.
  exact (@resolveArtifactsToDefns_prefix example_ConfigHelpers None
           (take 2 duplicate_artifacts) (drop 2 duplicate_artifacts) duplicate_defns eq_refl).
Defined.

(** A declaration with a legacy gatherer, after one that resolves and
    before one that depends on a symbol nothing registers. *)
Lemma resolveArtifactsToDefns_gatherer_example :
  resolveArtifactsToDefns
    (Some ([example_artifact "A" (Some 1%nat) None]
           ++ legacy_artifact "Legacy" :: [example_artifact "B" None (Some [("x", 2%nat)])]))
    None
  = inl (Error "Legacy gatherer does not have a Fraggle Rock meta obj").
Proof.
  exact (@resolveArtifactsToDefns_gatherer example_ConfigHelpers None
           [example_artifact "A" (Some 1%nat) None] (legacy_artifact "Legacy")
           [example_artifact "B" None (Some [("x", 2%nat)])]
           [duplicate_defn "A" (Some 1%nat) None None] eq_refl eq_refl).
Defined.

(** The last of the three definitions: its dependency names the second. *)
Lemma resolveArtifactsToDefns_sound_example :
  let before := take 2 duplicate_defns in
  let artifact :=
    duplicate_defn "DevtoolsLog" None (Some [("devtoolsLog", 1%nat)])
      (Some [("devtoolsLog", "DevtoolsLogCompat")]) in
  isFRGathererDefn (defn_gatherer artifact) = true ∧
  ∃ meta,
    instance_meta (defn_gatherer artifact) = Some meta ∧
    match meta_dependencies meta, defn_dependencies artifact with
    | None, None => True
    | Some entries, Some resolved =>
        resolved.*1 = entries.*1 ∧
        Forall
          (λ r, ∃ dependency,
             dependency ∈ before ∧ defn_id dependency = r.2 ∧
             isValidArtifactDependency (defn_gatherer artifact) (defn_gatherer dependency)
               = true)
          resolved
    | _, _ => False
    end.
Proof.
  exact (@resolveArtifactsToDefns_sound example_ConfigHelpers None duplicate_artifacts
           duplicate_defns eq_refl (take 2 duplicate_defns) _ [] eq_refl).
Defined.

(** ** The config: quiet thresholds *)

Lemma Qc_or_zero_Some (v : Qc) : or_zero (Some v) = v.
Proof. simpl. by case_bool_decide as Hv; [rewrite Hv|]. Qed.

Lemma Qc_Math_max_raised (before : option Qc) (override : Qc) :
  raised_threshold before override (Some (Math_max (or_zero before) override)).
Proof.
  exists (Math_max (or_zero before) override). split; [done|].
  destruct (Qc_Math_max_cases (or_zero before) override) as [[Hlt ->]|[Hle ->]].
  - split; [apply Qcle_refl|]. split; [by apply Qclt_le_weak|by left].
  - split; [done|]. split; [apply Qcle_refl|by right].
Qed.

Lemma Qc_Math_max_again (a c : Qc) :
  Math_max (or_zero (Some (Math_max a c))) c = Math_max a c.
Proof.
  rewrite Qc_or_zero_Some.
  destruct (Qc_Math_max_cases a c) as [[Hlt ->]|[Hle ->]].
  - destruct (Qc_Math_max_cases c c) as [[_ ->]|[_ ->]]; done.
  - destruct (Qc_Math_max_cases a c) as [[Hlt ->]|[_ ->]]; [|done].
    by apply Qcle_antisym; [|apply Qclt_le_weak].
Qed.

Section Thresholds.
Context `{!ConfigHelpers} `{!ConfigTypes} `{!ConfigModules Qc}.

(** X24. [overrideSettingsThrottlingWindows] leaves the throttling method alone,
    and with the method ['simulate'] everything else; with any other
    method, in exact arithmetic, each of the four thresholds comes out set,
    at least the override and at least what it was, and equal to one of the
    two. *)
Theorem overrideSettingsThrottlingWindows_raises (settings : ConfigSettings Qc) :
  let settings' := overrideSettingsThrottlingWindows settings in
  settings_throttlingMethod settings' = settings_throttlingMethod settings ∧
  (settings_throttlingMethod settings = "simulate" → settings' = settings) ∧
  (settings_throttlingMethod settings ≠ "simulate" →
   Forall3 raised_threshold (thresholds settings)
     (override_thresholds nonSimulatedPassConfigOverrides) (thresholds settings')).
Proof.
  cbv zeta. unfold overrideSettingsThrottlingWindows.
  destruct (decide (settings_throttlingMethod settings = "simulate")) as [Hsim|Hsim].
  - by split; [|split].
  - split; [done|]. split; [done|]. intros _.
    unfold thresholds, override_thresholds.
    cbn [cpuQuietThresholdMs networkQuietThresholdMs pauseAfterFcpMs pauseAfterLoadMs].
    repeat (constructor; [apply Qc_Math_max_raised|]). constructor.
Qed.

(** X25. In exact arithmetic, raising the thresholds twice is raising them once. *)
Theorem overrideSettingsThrottlingWindows_idempotent (settings : ConfigSettings Qc) :
  overrideSettingsThrottlingWindows (overrideSettingsThrottlingWindows settings)
  = overrideSettingsThrottlingWindows settings.
Proof.
  unfold overrideSettingsThrottlingWindows.
  destruct (decide (settings_throttlingMethod settings = "simulate")) as [Hsim|Hsim].
  - by rewrite decide_True.
  - cbn [settings_throttlingMethod cpuQuietThresholdMs networkQuietThresholdMs
         pauseAfterFcpMs pauseAfterLoadMs].
    rewrite decide_False by done. by rewrite !Qc_Math_max_again.
Qed.

End Thresholds.

(** ** The config: the working copy and the config itself *)

Section ConfigFacts.
Context {num : Type} `{!Number num} `{!ConfigHelpers} `{!ConfigTypes} `{!ConfigModules num}.

Lemma overrideSettingsThrottlingWindows_method (settings : ConfigSettings num) :
  settings_throttlingMethod (overrideSettingsThrottlingWindows settings)
  = settings_throttlingMethod settings.
Proof. unfold overrideSettingsThrottlingWindows. by case_decide. Qed.

(** In timespan mode the settings leave the two overrides with a throttling
    method that is not ['simulate']. *)
Lemma overrideSettings_timespan (settings : ConfigSettings num)
    (context : ConfigContext) :
  gatherMode context = "timespan" →
  settings_throttlingMethod
    (overrideSettingsThrottlingWindows (overrideSettingsForGatherMode settings context))
  ≠ "simulate".
Proof.
  intros Hmode. rewrite overrideSettingsThrottlingWindows_method.
  unfold overrideSettingsForGatherMode. rewrite decide_True by done.
  by case_decide.
Qed.

(** X26. [resolveWorkingCopy] throws exactly when the context gives a path that
    is not empty and not absolute, whatever the config.  When it returns,
    the working copy is a clone of the config, with the path of the context
    and the directory of that path, if there is one; without a config it is
    a clone of the default config, with the path of the default config and
    its directory, whatever path the context gives. *)
Theorem resolveWorkingCopy_paths (configJSON : option ConfigJson)
    (context : ConfigContext) :
  let relative :=
    ∃ path, configPath context = Some path ∧ path ≠ "" ∧ path_isAbsolute path = false in
  (relative →
   resolveWorkingCopy configJSON context = inl (Error "configPath must be an absolute path")) ∧
  (¬ relative →
   resolveWorkingCopy configJSON context =
   inr match configJSON with
       | Some configJSON =>
           {| configWorkingCopy := deepCloneConfigJson configJSON;
              wc_configPath := configPath context;
              wc_configDir :=
                match configPath context with
                | Some path => if decide (path = "") then None else Some (path_dirname path)
                | None => None
                end |}
       | None =>
           {| configWorkingCopy := deepCloneConfigJson defaultConfig;
              wc_configPath := Some defaultConfigPath;
              wc_configDir :=
                if decide (defaultConfigPath = "") then None
                else Some (path_dirname defaultConfigPath) |}
       end).
Proof.
  cbv zeta. unfold resolveWorkingCopy, if_truthy. split.
  - intros (path & -> & Hpath & Habs).
    by rewrite bool_decide_false, Habs by done.
  - intros Hrel.
    assert (match configPath context with
            | Some s => if bool_decide (s = "") then false else negb (path_isAbsolute s)
            | None => false
            end = false) as ->.
    { destruct (configPath context) as [path|]; [|done].
      case_bool_decide as Hpath; [done|].
      destruct (path_isAbsolute path) eqn:Habs; [done|].
      exfalso. apply Hrel. by exists path. }
    destruct configJSON as [configJSON|]; cbn [ret]; do 2 f_equal.
    + destruct (configPath context) as [path|]; [|done].
      by case_bool_decide; case_decide.
    + by case_bool_decide; case_decide.
Qed.

(** X27. The order in which [initializeConfig] fails: a path that is not
    absolute ends it before the config is looked at; then an [extends] that
    is not ['lighthouse:default']; and an error of the resolution of the
    artifacts ends it before the audits are resolved and the config is
    validated. *)
Theorem initializeConfig_throws (configJSON : option ConfigJson)
    (context : ConfigContext) :
  (∀ path,
     configPath context = Some path → path ≠ "" → path_isAbsolute path = false →
     initializeConfig configJSON context
       = inl (Error "configPath must be an absolute path")) ∧
  (∀ workingCopy extends,
     resolveWorkingCopy configJSON context = inr workingCopy →
     json_extends (configWorkingCopy workingCopy) = Some extends →
     extends ≠ "" → extends ≠ "lighthouse:default" →
     initializeConfig configJSON context
       = inl (Error "`lighthouse:default` is the only valid extension method.")) ∧
  (∀ workingCopy extended merged settings e,
     resolveWorkingCopy configJSON context = inr workingCopy →
     resolveExtensions (configWorkingCopy workingCopy) = inr extended →
     mergePlugins extended (wc_configDir workingCopy) (settingsOverrides context) = inr merged →
     resolveSettings (default emptySettingsJson (json_settings merged))
       (settingsOverrides context) = inr settings →
     resolveArtifactsToDefns (json_artifacts merged) (wc_configDir workingCopy) = inl e →
     initializeConfig configJSON context = inl e).
Proof.
  split; [|split].
  - intros path Hpath Hne Habs. unfold initializeConfig, resolveWorkingCopy, if_truthy.
    by rewrite Hpath, bool_decide_false, Habs by done.
  - intros workingCopy extends Hcopy Hext Hne Hother. unfold initializeConfig.
    rewrite Hcopy. cbn [bind]. unfold resolveExtensions, if_truthy. rewrite Hext.
    rewrite bool_decide_false by done. rewrite bool_decide_false by congruence. done.
  - intros workingCopy extended merged settings e Hcopy Hext Hplugins Hsettings Hartifacts.
    unfold initializeConfig. rewrite Hcopy. cbn [bind]. rewrite Hext. cbn [bind].
    rewrite Hplugins. cbn [bind]. rewrite Hsettings. cbn [bind]. by rewrite Hartifacts.
Qed.

(** X28. A config that [initializeConfig] returns is what the two filters make
    of a config that [assertValidConfig] accepted, whose artifacts are the
    resolution of the artifacts of the working copy, and whose settings went
    through the two overrides, so that in timespan mode its throttling
    method is not ['simulate']. *)
Theorem initializeConfig_validated (configJSON : option ConfigJson)
    (context : ConfigContext) config :
  initializeConfig configJSON context = inr config →
  ∃ workingCopy extended (merged : ConfigJson) settings (validated filtered : FRConfig num),
    resolveWorkingCopy configJSON context = inr workingCopy ∧
    resolveExtensions (configWorkingCopy workingCopy) = inr extended ∧
    mergePlugins extended (wc_configDir workingCopy) (settingsOverrides context) = inr merged ∧
    resolveSettings (default emptySettingsJson (json_settings merged))
      (settingsOverrides context) = inr settings ∧
    resolveArtifactsToDefns (json_artifacts merged) (wc_configDir workingCopy)
      = inr (config_artifacts validated) ∧
    config_settings validated =
      overrideSettingsThrottlingWindows (overrideSettingsForGatherMode settings context) ∧
    (gatherMode context = "timespan" →
     settings_throttlingMethod (config_settings validated) ≠ "simulate") ∧
    assertValidConfig validated = inr () ∧
    filterConfigByGatherMode validated (gatherMode context) = inr filtered ∧
    filterConfigByExplicitFilters filtered (config_settings validated) = inr config.
Proof.
  unfold initializeConfig. intros Hrun.
  destruct (resolveWorkingCopy _ _) as [?|workingCopy]; cbn [bind] in Hrun; [done|].
  destruct (resolveExtensions _) as [?|extended] eqn:Hextended; cbn [bind] in Hrun; [done|].
  destruct (mergePlugins _ _ _) as [?|merged] eqn:Hmerged; cbn [bind] in Hrun; [done|].
  destruct (resolveSettings _ _) as [?|settings] eqn:Hsettings; cbn [bind] in Hrun; [done|].
  destruct (resolveArtifactsToDefns _ _) as [?|artifacts] eqn:Hartifacts;
    cbn [bind] in Hrun; [done|].
  destruct (resolveAuditsToDefns _ _) as [?|audits]; cbn [bind] in Hrun; [done|].
  destruct (assertValidConfig _) as [?|[]] eqn:Hvalid; cbn [bind] in Hrun; [done|].
  destruct (filterConfigByGatherMode _ _) as [?|filtered] eqn:Hmode; cbn [bind] in Hrun; [done|].
  destruct (filterConfigByExplicitFilters _ _) as [?|final] eqn:Hfilters;
    cbn [bind ret] in Hrun; [done|].
  injection Hrun as <-.
  match type of Hvalid with
  | assertValidConfig ?validated = _ =>
      exists workingCopy, extended, merged, settings, validated, filtered
  end.
  split; [done|]. split; [exact Hextended|]. split; [exact Hmerged|].
  split; [exact Hsettings|].
  split; [exact Hartifacts|]. split; [done|].
  split; [apply overrideSettings_timespan|]. by split; [exact Hvalid|].
Qed.

End ConfigFacts.

(** ** The audit under the settings of a timespan config *)

Section TimespanAudit.
Context {num : Type} `{!Number num} `{!Tracehouse num} `{!ComputedArtifacts num}
  `{!ConfigHelpers} `{!ConfigTypes} `{!ConfigModules num}.


End TimespanAudit.

Lemma example_initializeConfig_returns :
  ∃ config,
    initializeConfig (Some (example_config None (Some duplicate_artifacts)))
      (example_configContext "timespan" (Some "/home/config.js")) = inr config.
Proof. eexists. vm_compute. reflexivity. Qed.

Lemma initializeConfig_validated_example :
  ∃ config workingCopy extended (merged : ConfigJson) settings
    (validated filtered : FRConfig Qc),
    initializeConfig (Some (example_config None (Some duplicate_artifacts)))
      (example_configContext "timespan" (Some "/home/config.js")) = inr config ∧
    resolveWorkingCopy (Some (example_config None (Some duplicate_artifacts)))
      (example_configContext "timespan" (Some "/home/config.js")) = inr workingCopy ∧
    resolveExtensions (configWorkingCopy workingCopy) = inr extended ∧
    mergePlugins extended (wc_configDir workingCopy) None = inr merged ∧
    resolveSettings (default emptySettingsJson (json_settings merged)) None = inr settings ∧
    resolveArtifactsToDefns (json_artifacts merged) (wc_configDir workingCopy)
      = inr (config_artifacts validated) ∧
    config_settings validated =
      overrideSettingsThrottlingWindows
        (overrideSettingsForGatherMode settings
           (example_configContext "timespan" (Some "/home/config.js"))) ∧
    ("timespan" = "timespan" →
     settings_throttlingMethod (config_settings validated) ≠ "simulate") ∧
    assertValidConfig validated = inr () ∧
    filterConfigByGatherMode validated "timespan" = inr filtered ∧
    filterConfigByExplicitFilters filtered (config_settings validated) = inr config.
Proof.
  destruct example_initializeConfig_returns as [config Hrun].
  destruct (initializeConfig_validated (Some (example_config None (Some duplicate_artifacts)))
              (example_configContext "timespan" (Some "/home/config.js")) config Hrun)
    as (workingCopy & extended & merged & settings & validated & filtered & Hvalidated).
  exists config, workingCopy, extended, merged, settings, validated, filtered.
  split; [exact Hrun|exact Hvalidated].
Defined.


(** ** The computed-artifact cache: one execution, many waiters *)

Section ComputedCacheFacts.
Context {I V : Type} (fingerprint : I → string).

Lemma cache_inv_new : cache_inv (V:=V) (new_cache, []).
Proof.
  split; [|split]; simpl.
  - intros key work. by rewrite lookup_empty, lookup_nil.
  - by intros ??? ?%elem_of_nil.
  - intros work. rewrite lookup_empty. by intros [??].
Qed.

Lemma cache_inv_step (s : Cache V * list (nat * ComputationKey * nat)) ev :
  cache_inv s → cache_inv (cache_step fingerprint s ev).
Proof.
  destruct s as [c obs]. intros (Hunits & Hobs & Hsettled).
  destruct ev as [requester kind inputs|work result]; simpl in *.
  - unfold request.
    destruct (units c !! (kind, fingerprint inputs)) as [work|] eqn:Hkey; simpl.
    + split; [done|]. split; [|done].
      intros r key w [Hin|Heq%list_elem_of_singleton]%elem_of_app; [by eauto|].
      by simplify_eq.
    + split; [|split].
      * intros key work. simpl.
        destruct (decide (key = (kind, fingerprint inputs))) as [->|Hne].
        -- rewrite lookup_insert_eq. split.
           ++ intros [= <-]. by rewrite lookup_app_r, Nat.sub_diag.
           ++ intros Hwork.
              destruct (decide (work < length (executions c))%nat) as [Hlt|Hge].
              ** rewrite lookup_app_l in Hwork by done.
                 apply Hunits in Hwork. congruence.
              ** rewrite lookup_app_r in Hwork by lia.
                 apply list_lookup_singleton_Some in Hwork as [? _].
                 f_equal. lia.
        -- rewrite lookup_insert_ne by done. rewrite Hunits. split.
           ++ intros Hwork. by apply lookup_app_l_Some.
           ++ intros [Hwork|[_ Hwork]]%lookup_app_Some; [done|].
              apply list_lookup_singleton_Some in Hwork as [_ ?]. congruence.
      * intros r key w [Hin|Heq%list_elem_of_singleton]%elem_of_app; simpl.
        -- destruct (decide (key = (kind, fingerprint inputs))) as [->|Hne].
           ++ apply Hobs in Hin. congruence.
           ++ rewrite lookup_insert_ne by done. by eauto.
        -- simplify_eq. by rewrite lookup_insert_eq.
      * intros work Hwork. simpl in *. rewrite length_app. simpl.
        specialize (Hsettled work Hwork). lia.
  - unfold complete. case_decide as Hlt; [|done].
    destruct (settled c !! work) eqn:Hwork; [done|].
    split; [done|]. split; [done|]. simpl.
    intros w [v Hw]. destruct (decide (w = work)) as [->|Hne]; [done|].
    rewrite lookup_insert_ne in Hw by done. by eauto.
Qed.

Lemma cache_inv_foldl (s : Cache V * list (nat * ComputationKey * nat)) events :
  cache_inv s → cache_inv (foldl (cache_step fingerprint) s events).
Proof.
  revert s. induction events as [|ev events IH]; intros s Hs; [done|].
  simpl. by apply IH, cache_inv_step.
Qed.

(** What has completed stays as it completed, and what was observed stays
    observed. *)
Lemma cache_step_mono (s : Cache V * list (nat * ComputationKey * nat)) ev :
  (∀ work result,
     settled s.1 !! work = Some result →
     settled (cache_step fingerprint s ev).1 !! work = Some result) ∧
  (∀ o, o ∈ s.2 → o ∈ (cache_step fingerprint s ev).2).
Proof.
  destruct s as [c obs]. destruct ev as [requester kind inputs|work result]; simpl.
  - unfold request. destruct (units c !! _); simpl;
      (split; [done|]; intros o Ho; by apply elem_of_app; left).
  - split; [|done]. intros w v Hw. unfold complete.
    case_decide; [|done]. destruct (settled c !! work) eqn:Hwork; [done|]. simpl.
    rewrite lookup_insert_ne; [done|]. congruence.
Qed.

Lemma cache_foldl_mono (s : Cache V * list (nat * ComputationKey * nat)) events :
  (∀ work result,
     settled s.1 !! work = Some result →
     settled (foldl (cache_step fingerprint) s events).1 !! work = Some result) ∧
  (∀ o, o ∈ s.2 → o ∈ (foldl (cache_step fingerprint) s events).2).
Proof.
  revert s. induction events as [|ev events IH]; intros s; [done|].
  simpl. destruct (cache_step_mono s ev) as [Hs Ho].
  destruct (IH (cache_step fingerprint s ev)) as [Hs' Ho']. split; eauto.
Qed.

End ComputedCacheFacts.

Section ComputedCacheClaims.
Context {I V : Type} (fingerprint : I → string).

(** C9. In every interleaving of requests and completions on one cache, no
    key is executed twice; all requests for a key, whenever issued, are
    answered with the same unit of work, the one executed for the key, which
    the cache holds as pending or completed; and the result a unit of work
    completed with is the result it has from then on, so that all of them
    receive the same result. *)
Theorem request_executes_once (events more : list (CacheEvent I V)) :
  let now := cache_run fingerprint events in
  let later := cache_run fingerprint (events ++ more) in
  NoDup (executions now.1) ∧
  (∀ requester1 requester2 key work1 work2,
     (requester1, key, work1) ∈ now.2 → (requester2, key, work2) ∈ now.2 →
     work1 = work2 ∧ executions now.1 !! work1 = Some key) ∧
  (∀ requester key work,
     (requester, key, work) ∈ now.2 →
     cached now.1 key = Some (Pending work) ∨
     ∃ result, cached now.1 key = Some (Completed work result)) ∧
  (∀ observation, observation ∈ now.2 → observation ∈ later.2) ∧
  (∀ work result,
     settled now.1 !! work = Some result → settled later.1 !! work = Some result).
Proof.
  cbv zeta. unfold cache_run. rewrite foldl_app.
  pose proof (cache_inv_foldl fingerprint _ events (cache_inv_new)) as (Hunits & Hobs & _).
  destruct (cache_foldl_mono fingerprint (foldl (cache_step fingerprint) (new_cache, []) events)
              more) as [Hsettled Hkept].
  split; [|split; [|split; [|split]]]; [| | |done|done].
  - apply NoDup_alt. intros i j key Hi%Hunits Hj%Hunits. congruence.
  - intros r1 r2 key w1 w2 H1%Hobs H2%Hobs. split; [congruence|]. by apply Hunits.
  - intros r key w Hw%Hobs. unfold cached. rewrite Hw. simpl.
    destruct (settled _ !! w) as [result|]; [right; by exists result|by left].
Qed.

End ComputedCacheClaims.

(** The run of the example: one execution per key, and the three requesters
    of the first key hold its unit of work, which has completed. *)
Example cache_run_example :
  let run := cache_run (λ inputs, inputs) example_events in
  executions run.1 = [("MainThreadTasks", "trace"); ("NetworkRecords", "devtoolsLog")] ∧
  run.2 = [(1%nat, ("MainThreadTasks", "trace"), 0%nat);
           (2%nat, ("MainThreadTasks", "trace"), 0%nat);
           (3%nat, ("MainThreadTasks", "trace"), 0%nat);
           (4%nat, ("NetworkRecords", "devtoolsLog"), 1%nat)] ∧
  cached run.1 ("MainThreadTasks", "trace") = Some (Completed 0 "tasks") ∧
  cached run.1 ("NetworkRecords", "devtoolsLog") = Some (Pending 1).
Proof. by vm_compute. Qed.
